(** * koishi-core: context scopes, command registration and execution

    A shallow embedding of
      - packages/koishi-core/src/context.ts  (ContextScope, Context)
      - packages/koishi-core/src/command.ts  (Command)
      - the teach plugin's dialogue handlers
    together with the properties stated about them.

    JavaScript exceptions are values of [Result]; arrays are lists;
    [null] is [None]; objects used as dictionaries are [gmap]s; [Set]s
    are [gset]s.  Ids are JavaScript numbers that hold integers: they
    are modelled by [Z]. *)

From Stdlib Require Import ZArith QArith List Bool Ascii String DecimalString DecimalZ.
From stdpp Require Import base option list gmap strings.

Local Open Scope string_scope.

(** ** Exceptions *)

Inductive Error : Type :=
  | TypeError              (* reading a property of null or undefined *)
  | INVALID_IDENTIFIER     (* errors.INVALID_IDENTIFIER *)
  | INVALID_CONTEXT        (* errors.INVALID_CONTEXT *)
  | INVALID_SUBCOMMAND     (* errors.INVALID_SUBCOMMAND *)
  | DUPLICATE_COMMAND      (* errors.DUPLICATE_COMMAND *)
  | EXPECT_COMMAND_NAME    (* errors.EXPECT_COMMAND_NAME *)
  | NotAnInteger.          (* a number outside the integer model of ids *)

Inductive Result (A : Type) : Type :=
  | Ok (a : A)
  | Throw (e : Error).
Arguments Ok {A} a.
Arguments Throw {A} e.

Definition result_bind {A B : Type} (f : A → Result B) (m : Result A) : Result B :=
  match m with
  | Ok a => f a
  | Throw e => Throw e
  end.

#[global] Instance Result_ret : MRet Result := λ A a, Ok a.
#[global] Instance Result_bind : MBind Result := λ A B f m, result_bind f m.

(** [array.map((x, index) => ...)] and [array.every((x, index) => ...)]
    with a callback that may throw; [every] stops at the first [false]. *)

Fixpoint map_from {A B : Type} (f : A → nat → Result B) (index : nat) (l : list A)
  : Result (list B) :=
  match l with
  | [] => Ok []
  | x :: l' =>
      y ← f x index;
      ys ← map_from f (S index) l';
      Ok (y :: ys)
  end.

Definition map_index {A B : Type} (f : A → nat → Result B) (l : list A) : Result (list B) :=
  map_from f 0 l.

Fixpoint every_from {A : Type} (f : A → nat → Result bool) (index : nat) (l : list A)
  : Result bool :=
  match l with
  | [] => Ok true
  | x :: l' =>
      b ← f x index;
      if b : bool then every_from f (S index) l' else Ok false
  end.

Definition every_index {A : Type} (f : A → nat → Result bool) (l : list A) : Result bool :=
  every_from f 0 l.

(** ** koishi-utils: the set helpers *)

Module Utils.

(** [Array.prototype.includes] on an array of ids. *)
Definition includes (l : list Z) (x : Z) : bool := bool_decide (x ∈ l).

(** Modelled from the spec: koishi-utils [union], [intersection] and
    [difference] are not part of the sources at hand.  The spec has them
    as set operations over id collections whose result order is
    irrelevant. *)
Definition union (a b : list Z) : list Z := list_union a b.
Definition intersection (a b : list Z) : list Z := list_intersection a b.
Definition difference (a b : list Z) : list Z := list_difference a b.

(** Modelled from the spec: koishi-utils [contain] is not part of the
    sources at hand.  The spec words it as: [contain(a, b)] holds when
    every id of [a] is in [b]. *)
Definition contain (a b : list Z) : bool := forallb (includes b) a.

(** The same helper with the two collections in the other roles:
    every id of [b] is in [a]. *)
Definition contain_rev (a b : list Z) : bool := forallb (includes a) b.

End Utils.

(** ** meta.ts: identity types *)

Inductive ContextType : Type := user | group | discuss.

(** Modelled from the spec: the [contextTypes] enumeration of meta.ts is
    not part of the sources at hand.  It is the fixed enumeration
    user, group, discuss, indexed in that order, used both ways:
    [contextTypes[type]] is an index and [contextTypes[index]] a name. *)
Definition contextTypes_index (type : ContextType) : nat :=
  match type with user => 0 | group => 1 | discuss => 2 end.

Definition contextTypes_name (index : nat) : string :=
  match index with
  | 0 => "user"
  | 1 => "group"
  | 2 => "discuss"
  | _ => "undefined"
  end.

Record Meta : Type := { ctxType : ContextType; ctxId : Z }.

(** ** Strings of JavaScript *)

(** [String(n)] for an integer [n]: its decimal digits, after a minus sign
    when negative (JavaScript prints integers this way below 10^21). *)
Definition number_to_string (n : Z) : string := NilZero.string_of_int (Z.to_int n).

(** Unary plus on a string, on the literals ids are printed as: an optional
    minus sign and decimal digits.  Every other string (read by JavaScript
    as 0, NaN, a fraction, ...) is outside the integer model: [None]. *)
Definition string_to_number (s : string) : option Z :=
  Z.of_int <$> NilZero.int_of_string s.

(** [array.join(sep)] on an array of strings. *)
Fixpoint join (sep : string) (l : list string) : string :=
  match l with
  | [] => ""
  | [s] => s
  | s :: l' => s +:+ sep +:+ join sep l'
  end.

(** [string.split(sep)] for a one-character separator: never an empty
    array, [''.split(sep)] is [['']]. *)
Fixpoint split (sep : ascii) (s : string) : list string :=
  match s with
  | EmptyString => [""]
  | String c s' =>
      if Ascii.eqb c sep then "" :: split sep s'
      else match split sep s' with
           | [] => [String c ""]
           | w :: ws => String c w :: ws
           end
  end.

(** ** ContextScope *)

Definition Subscope : Type := option (list Z) * option (list Z).
Definition ContextScope : Type := list Subscope.

(** Using an id list that is [null] throws. *)
Definition ids (l : option (list Z)) : Result (list Z) :=
  match l with
  | Some l => Ok l
  | None => Throw TypeError
  end.

Definition noopScope : ContextScope := [(Some [], None); (Some [], None); (Some [], None)].

Module ContextScope.

Definition stringify_entry (s : Subscope) (index : nat) : Result string :=
  let '(include, exclude) := s in
  let type := contextTypes_name index in
  let sign := match include with Some _ => "+" | None => "-" end in
  idList ← ids (match include with Some _ => include | None => exclude end);
  Ok (sign +:+ type +:+ ":" +:+ join "," (number_to_string <$> idList)).

Definition stringify (scope : ContextScope) : Result string :=
  segments ← map_index stringify_entry scope;
  Ok (join ";" (filter (λ a, a ≠ "") segments)).

(** The regular expression [/^([+-])(user|group|discuss):(.+)$/]: the
    captures are the sign ([true] for [+]), the type and the list.  A dot
    matches any character but a line terminator; of the four line
    terminators of JavaScript, line feed and carriage return are
    characters of [string]. *)
Definition is_line_terminator (c : ascii) : bool :=
  Ascii.eqb c "010" || Ascii.eqb c "013".

Fixpoint no_line_terminator (s : string) : bool :=
  match s with
  | EmptyString => true
  | String c s' => negb (is_line_terminator c) && no_line_terminator s'
  end.

Fixpoint strip_prefix (p s : string) : option string :=
  match p, s with
  | EmptyString, _ => Some s
  | String a p', String b s' => if Ascii.eqb a b then strip_prefix p' s' else None
  | String _ _, EmptyString => None
  end.

Definition capture_list (type : ContextType) (rest : string) : option (ContextType * string) :=
  match rest with
  | String ":" (String c list') =>
      if no_line_terminator (String c list') then Some (type, String c list') else None
  | _ => None
  end.

Definition capture_type (rest : string) : option (ContextType * string) :=
  match strip_prefix "user" rest with
  | Some r => capture_list user r
  | None =>
      match strip_prefix "group" rest with
      | Some r => capture_list group r
      | None =>
          match strip_prefix "discuss" rest with
          | Some r => capture_list discuss r
          | None => None
          end
      end
  end.

Definition exec_segment (segment : string) : option (bool * ContextType * string) :=
  match segment with
  | String sign rest =>
      if Ascii.eqb sign "+" || Ascii.eqb sign "-" then
        '(type, list) ← capture_type rest;
        Some (Ascii.eqb sign "+", type, list)
      else None
  | EmptyString => None
  end.

(** [list.split(',').map(n => +n)]; an entry outside the integer model is
    reported as [NotAnInteger] (JavaScript itself does not throw here). *)
Fixpoint to_numbers (l : list string) : Result (list Z) :=
  match l with
  | [] => Ok []
  | n :: l' =>
      match string_to_number n with
      | Some z => zs ← to_numbers l'; Ok (z :: zs)
      | None => Throw NotAnInteger
      end
  end.

(** The body of the [forEach] of [parse]. *)
Definition parse_segment (scope : ContextScope) (segment : string) : Result ContextScope :=
  match exec_segment segment with
  | None => Throw INVALID_IDENTIFIER
  | Some (sign, type, list) =>
      idList ← to_numbers (split "," list);
      Ok (<[contextTypes_index type := if sign : bool then (Some idList, None) else (None, Some idList)]> scope)
  end.

Fixpoint parse_segments (scope : ContextScope) (segments : list string) : Result ContextScope :=
  match segments with
  | [] => Ok scope
  | segment :: rest => scope' ← parse_segment scope segment; parse_segments scope' rest
  end.

Definition parse (identifier : string) : Result ContextScope :=
  parse_segments noopScope (split ";" identifier).

End ContextScope.

(** [const noopIdentifier = ContextScope.stringify(noopScope)] *)
Definition noopIdentifier : string :=
  match ContextScope.stringify noopScope with
  | Ok identifier => identifier
  | Throw _ => ""
  end.

(** ** Context *)

Record Context : Type := { identifier : string; _scope : ContextScope }.

(** Modelled from the spec: [App._createContext] (app.ts) is not part of
    the sources at hand.  The spec has a Context as its tuple of ScopeSets
    plus the identifier derived from it, the canonical text form. *)
Definition _createContext (scope : ContextScope) : Result Context :=
  identifier ← ContextScope.stringify scope;
  Ok {| identifier := identifier; _scope := scope |}.

(** [const [include2, exclude2] = ctx._scope[index]] *)
Definition entry_at (ctx : Context) (index : nat) : Result Subscope :=
  match _scope ctx !! index with
  | Some s => Ok s
  | None => Throw TypeError
  end.

(** ** parser.ts, database.ts, messages.ts: the types command.ts reads *)

(** A JavaScript number that may be [Infinity]. *)
Inductive JsNumber : Type := Finite (z : Z) | Infinity.

(** [x < Infinity] and [x > 0]; a comparison with [undefined] is false. *)
Definition lt_Infinity (x : option JsNumber) : bool :=
  match x with
  | Some (Finite _) => true
  | _ => false
  end.

Definition gt_zero (x : option JsNumber) : bool :=
  match x with
  | Some (Finite z) => Z.ltb 0 z
  | Some Infinity => true
  | None => false
  end.

Module CommandArgument.
Record t : Type := { required : bool; variadic : bool; noSegment : bool }.
End CommandArgument.

Module CommandOption.
Record t : Type := {
  rawName : string;
  longest : string;
  names : list string;
  camels : list string;
  required : bool;
  authority : Z;
  notUsage : bool
}.
End CommandOption.

Module UserData.
Record t : Type := { id : Z; authority : Z }.
End UserData.

(** [T | ((user: UserData) => T)] *)
Inductive UserType (T : Type) : Type :=
  | Value (v : T)
  | PerUser (f : UserData.t → T).
Arguments Value {T} v.
Arguments PerUser {T} f.

(** The texts of messages.ts, by name. *)
Inductive Message : Type :=
  | USAGE_EXHAUSTED
  | TOO_FREQUENT
  | LOW_AUTHORITY
  | INSUFFICIENT_ARGUMENTS
  | REDUNANT_ARGUMENTS
  | UNKNOWN_OPTIONS
  | REQUIRED_OPTIONS
  | COMMAND_NOT_FOUND.

(** An optional property is [None] when it is left out. *)
Module CommandConfig.
Record t : Type := {
  checkUnknown : option bool;
  checkRequired : option bool;
  checkArgCount : option bool;
  usageName : option string;
  description : option string;
  authority : option Z;
  disable : option (UserType bool);
  maxUsage : option (UserType JsNumber);
  minInterval : option (UserType JsNumber);
  showWarning : option bool
}.

Definition empty : t :=
  {| checkUnknown := None; checkRequired := None; checkArgCount := None;
     usageName := None; description := None; authority := None; disable := None;
     maxUsage := None; minInterval := None; showWarning := None |}.

(** The properties of [source] over those of [target], as in
    [{ ...target, ...source }] and [Object.assign(target, source)]. *)
Definition over {A : Type} (source target : option A) : option A :=
  match source with Some _ => source | None => target end.

Definition assign (target source : t) : t :=
  {| checkUnknown := over (checkUnknown source) (checkUnknown target);
     checkRequired := over (checkRequired source) (checkRequired target);
     checkArgCount := over (checkArgCount source) (checkArgCount target);
     usageName := over (usageName source) (usageName target);
     description := over (description source) (description target);
     authority := over (authority source) (authority target);
     disable := over (disable source) (disable target);
     maxUsage := over (maxUsage source) (maxUsage target);
     minInterval := over (minInterval source) (minInterval target);
     showWarning := over (showWarning source) (showWarning target) |}.
Definition with_description (c : t) (d : option string) : t :=
  {| checkUnknown := checkUnknown c; checkRequired := checkRequired c;
     checkArgCount := checkArgCount c; usageName := usageName c; description := d;
     authority := authority c; disable := disable c; maxUsage := maxUsage c;
     minInterval := minInterval c; showWarning := showWarning c |}.
End CommandConfig.

Definition defaultConfig : CommandConfig.t :=
  {| CommandConfig.checkUnknown := None; CommandConfig.checkRequired := None;
     CommandConfig.checkArgCount := None; CommandConfig.usageName := None;
     CommandConfig.description := None;
     CommandConfig.authority := Some 1%Z;
     CommandConfig.disable := None;
     CommandConfig.maxUsage := Some (Value Infinity);
     CommandConfig.minInterval := Some (Value (Finite 0));
     CommandConfig.showWarning := Some true |}.

(** Truthiness of an optional boolean, string and object. *)
Definition truthy (b : option bool) : bool := default false b.

(** ** Plain objects *)

(** The properties that every plain object ([{}]) inherits from
    [Object.prototype]: [key in object] holds for them as it does for the
    object's own keys, and [object[key]] is then a function, or for
    [__proto__] the prototype itself, and so truthy. *)
Definition Object_prototype : list string :=
  ["constructor"; "__defineGetter__"; "__defineSetter__"; "hasOwnProperty";
   "__lookupGetter__"; "__lookupSetter__"; "isPrototypeOf"; "propertyIsEnumerable";
   "toString"; "valueOf"; "__proto__"; "toLocaleString"].

Definition inherited (key : string) : bool := existsb (String.eqb key) Object_prototype.

(** The [name] of the inherited object under [key], in a string
    concatenation: the function's name, and [undefined] for the
    prototype. *)
Definition object_name (key : string) : string :=
  if String.eqb key "constructor" then "Object"
  else if String.eqb key "__proto__" then "undefined"
  else key.

(** ** Command *)

(** Commands are objects: the application keeps them in [_commands], and a
    reference to a command is its position there. *)
Abbreviation CommandRef := nat (only parsing).

Record Command : Type := {
  name : string;
  declaration : string;
  context : Context;
  config : CommandConfig.t;
  children : list CommandRef;
  parent : option CommandRef;
  _aliases : list string;
  _options : list CommandOption.t;
  _userFields : gset string;
  _argsDef : list CommandArgument.t;
  (** The bound callback, by what the pipeline sees of it: given the
      positional arguments, whether it called [argv.next]. *)
  _action : option (list string → bool)
}.

(** The fields [name] and [parent], where a variable of the source has
    the same name. *)
Definition name_of (command : Command) : string := name command.
Definition parent_of (command : Command) : option CommandRef := parent command.

Record MessageMeta : Type := {
  meta_identity : Meta;
  meta_user : option UserData.t       (* meta.$user *)
}.

Record ParsedCommandLine : Type := {
  argv_meta : MessageMeta;
  argv_args : option (list string);
  argv_options : option (gmap string string);
  argv_unknown : option (list string)
}.

(** What a command execution does to the outside. *)
Inductive Event : Type :=
  | Serialize (event : string)      (* app.serialize(meta, event, argv) *)
  | Parallelize (event : string)    (* app.parallelize(meta, event, argv) *)
  | Send (message : Message) (param : list string)
                                    (* meta.$send(format(message, ...param)) *)
  | UpdateUsage (name : string) (user : UserData.t) (maxUsage minInterval : option JsNumber)
  | LogDebug (name : string)           (* logger('koishi:command').debug *)
  | Action (args : list string).    (* this._action(argv, ...args) *)

(** What the collaborators answer: whether a before-command listener
    handled the invocation, and the message [updateUsage] (utils.ts)
    returns, if any. *)
Record Env : Type := {
  before_command : ParsedCommandLine → bool;
  updateUsage : string → UserData.t → option JsNumber → option JsNumber → option Message
}.

(** Effects: the events so far and a result or an exception. *)
Definition Eff (A : Type) : Type := list Event * Result A.

Definition eff_bind {A B : Type} (f : A → Eff B) (m : Eff A) : Eff B :=
  match m with
  | (events, Ok a) => let '(events', r) := f a in ((events ++ events')%list, r)
  | (events, Throw e) => (events, Throw e)
  end.

#[global] Instance Eff_ret : MRet Eff := λ A a, ([], Ok a).
#[global] Instance Eff_bind : MBind Eff := λ A B f m, eff_bind f m.

Definition emit (e : Event) : Eff unit := ([e], Ok ()).
Definition lift {A : Type} (r : Result A) : Eff A := ([], r).

Definition Hint : Type := Message * list string.

(** ** The application's registry *)

Record App : Type := {
  _commands : list Command;
  _commandMap : gmap string CommandRef;
  (** The commands announced by [parallelize('new-command', command)]. *)
  new_commands : list CommandRef
}.

Definition empty_app : App :=
  {| _commands := []; _commandMap := ∅; new_commands := [] |}.

(** Registration: the registry is threaded through, and an exception
    leaves it as it was when thrown. *)
Definition Reg (A : Type) : Type := App → Result A * App.

Definition reg_bind {A B : Type} (f : A → Reg B) (m : Reg A) : Reg B :=
  λ app, match m app with
         | (Ok a, app') => f a app'
         | (Throw e, app') => (Throw e, app')
         end.

#[global] Instance Reg_ret : MRet Reg := λ A a app, (Ok a, app).
#[global] Instance Reg_bind : MBind Reg := λ A B f m, reg_bind f m.

Definition reg_lift {A : Type} (r : Result A) : Reg A := λ app, (r, app).
Definition reg_get : Reg App := λ app, (Ok app, app).
Definition reg_modify (f : App → App) : Reg unit := λ app, (Ok (), f app).

(** Reading a command through its reference. *)
Definition deref (ref : CommandRef) : Reg Command :=
  λ app, match _commands app !! ref with
         | Some command => (Ok command, app)
         | None => (Throw TypeError, app)
         end.

(** What [app._commandMap[name]] gives when it is not [undefined]: a
    command, or the object that the map, a plain object, inherits under
    that name. *)
Inductive Node : Type :=
  | node (ref : CommandRef)
  | inherited_object (key : string).

Definition look (app : App) (name : string) : option Node :=
  match _commandMap app !! name with
  | Some ref => Some (node ref)
  | None => if inherited name then Some (inherited_object name) else None
  end.

(** [string.toLowerCase()], on ASCII letters. *)
Definition lower (c : ascii) : ascii :=
  let n := nat_of_ascii c in
  if Nat.leb 65 n && Nat.leb n 90 then ascii_of_nat (n + 32) else c.

Fixpoint toLowerCase (s : string) : string :=
  match s with
  | EmptyString => EmptyString
  | String c s' => String (lower c) (toLowerCase s')
  end.

(** [const [path] = rawName.split(' ', 1)] and
    [rawName.slice(path.length)]. *)
Fixpoint split_declaration (rawName : string) : string * string :=
  match rawName with
  | EmptyString => ("", "")
  | String c s' =>
      if Ascii.eqb c " " then ("", rawName)
      else let '(path, declaration) := split_declaration s' in (String c path, declaration)
  end.

(** [path.split(/(?=[\\./])/)]: a new segment starts at every backslash,
    dot and slash but the first character. *)
Definition is_separator (c : ascii) : bool :=
  Ascii.eqb c "\" || Ascii.eqb c "." || Ascii.eqb c "/".

Fixpoint split_before (s : string) : string * list string :=
  match s with
  | EmptyString => ("", [])
  | String c s' =>
      let '(w, ws) := split_before s' in
      if is_separator c then ("", String c w :: ws) else (String c w, ws)
  end.

Definition split_path (path : string) : list string :=
  match path with
  | EmptyString => [""]
  | String c s' => let '(w, ws) := split_before s' in String c w :: ws
  end.

Module Command.

(** [key in options], for the plain object [options] with its own keys:
    the names it inherits count as well. *)
Definition has_key (options : gmap string string) (key : string) : bool :=
  bool_decide (is_Some (options !! key)) || inherited key.

(** [option.camels[0]] as a property key. *)
Definition first_camel (option : CommandOption.t) : string :=
  default "undefined" (head (CommandOption.camels option)).

Definition present (options : gmap string string) (option : CommandOption.t) : bool :=
  has_key options (first_camel option).

Definition is_number {T : Type} (x : option (UserType T)) : option T :=
  match x with
  | Some (Value v) => Some v
  | _ => None
  end.

(** The loop over [command._options] of [attachUserFields]. *)
Fixpoint attach_options (options : gmap string string) (l : list CommandOption.t)
    (should : bool * bool) : bool * bool :=
  match l with
  | [] => should
  | option :: l' =>
      let '(shouldFetchAuthority, shouldFetchUsage) := should in
      if present options option then
        attach_options options l'
          (if Z.ltb 0 (CommandOption.authority option) then true else shouldFetchAuthority,
           if CommandOption.notUsage option then false else shouldFetchUsage)
      else attach_options options l' should
  end.

Definition attachUserFields (command : option Command) (options : option (gmap string string))
    (userFields : gset string) : gset string :=
  let options := default ∅ options in
  match command with
  | None => userFields
  | Some command =>
      let userFields := userFields ∪ _userFields command in
      let maxUsage := CommandConfig.maxUsage (config command) in
      let minInterval := CommandConfig.minInterval (config command) in
      let authority := CommandConfig.authority (config command) in
      let shouldFetchAuthority :=
        negb (bool_decide ("authority" ∈ userFields))
        && match authority with Some a => Z.ltb 0 a | None => false end in
      let shouldFetchUsage :=
        negb (bool_decide ("usage" ∈ userFields))
        && (lt_Infinity (is_number maxUsage) || gt_zero (is_number minInterval)) in
      let '(shouldFetchAuthority, shouldFetchUsage) :=
        attach_options options (_options command) (shouldFetchAuthority, shouldFetchUsage) in
      let userFields := if shouldFetchAuthority then userFields ∪ {["authority"]} else userFields in
      if shouldFetchUsage then userFields ∪ {["usage"]} else userFields
  end.

Definition usageName (this : Command) : string :=
  match CommandConfig.usageName (config this) with
  | Some s => if bool_decide (s = "") then name this else s
  | None => name this
  end.

Definition getConfig {T : Type} (value : option (UserType T)) (user : UserData.t) : option T :=
  match value with
  | Some (Value v) => Some v
  | Some (PerUser f) => Some (f user)
  | None => None
  end.

Definition _sendHint (this : Command) (message : Message) (param : list string) : Eff unit :=
  if truthy (CommandConfig.showWarning (config this)) then emit (Send message param)
  else mret ().

(** The loop over [this._options] of [_checkUser]: [inl] is an early
    return, [inr] the flag [isUsage]. *)
Fixpoint check_options (user : UserData.t) (options : gmap string string)
    (l : list CommandOption.t) (isUsage : bool) : Message + bool :=
  match l with
  | [] => inr isUsage
  | option :: l' =>
      if present options option then
        if Z.ltb (UserData.authority user) (CommandOption.authority option)
        then inl LOW_AUTHORITY
        else check_options user options l'
               (if CommandOption.notUsage option then false else isUsage)
      else check_options user options l' isUsage
  end.

Definition _checkUser (env : Env) (this : Command) (meta : MessageMeta)
    (options : gmap string string) : Eff (option Message) :=
  match meta_user meta with
  | None => mret None
  | Some u =>   (* const user = meta.$user *)
      if match CommandConfig.authority (config this) with
         | Some a => Z.ltb (UserData.authority u) a
         | None => false
         end
      then mret (Some LOW_AUTHORITY)
      else
        match check_options u options (_options this) true with
        | inl message => mret (Some message)
        | inr isUsage =>
            if isUsage then
              let minInterval := getConfig (CommandConfig.minInterval (config this)) u in
              let maxUsage := getConfig (CommandConfig.maxUsage (config this)) u in
              if lt_Infinity maxUsage || gt_zero minInterval then
                emit (UpdateUsage (usageName this) u maxUsage minInterval);;
                mret (updateUsage env (usageName this) u maxUsage minInterval)
              else mret None
            else mret None
        end
  end.

(** The block under "check argument count". *)
Definition check_arg_count (this : Command) (args : list string) : Result (option Hint) :=
  if truthy (CommandConfig.checkArgCount (config this)) then
    let nextArg := _argsDef this !! length args in
    if match nextArg with Some a => CommandArgument.required a | None => false end
    then Ok (Some (INSUFFICIENT_ARGUMENTS, []))
    else
      let finalArg := last (_argsDef this) in
      if Nat.ltb (length (_argsDef this)) (length args) then
        match finalArg with
        | None => Throw TypeError
        | Some finalArg =>
            if negb (CommandArgument.noSegment finalArg)
               && negb (CommandArgument.variadic finalArg)
            then Ok (Some (REDUNANT_ARGUMENTS, []))
            else Ok None
        end
      else Ok None
  else Ok None.

(** The block under "check unknown options". *)
Definition check_unknown (this : Command) (unknown : list string) : option Hint :=
  if truthy (CommandConfig.checkUnknown (config this)) && negb (Nat.eqb (length unknown) 0)
  then Some (UNKNOWN_OPTIONS, [join ", " unknown])
  else None.

(** The block under "check required options". *)
Definition check_required (this : Command) (options : gmap string string) : option Hint :=
  if truthy (CommandConfig.checkRequired (config this)) then
    match List.find (λ option, CommandOption.required option
                               && negb (has_key options (CommandOption.longest option)))
                    (_options this) with
    | Some absent => Some (REQUIRED_OPTIONS, [CommandOption.rawName absent])
    | None => None
    end
  else None.

(** [argv] once [options], [unknown] and [args] have their defaults. *)
Definition with_defaults (argv : ParsedCommandLine) : ParsedCommandLine :=
  {| argv_meta := argv_meta argv;
     argv_args := Some (default [] (argv_args argv));
     argv_options := Some (default ∅ (argv_options argv));
     argv_unknown := Some (default [] (argv_unknown argv)) |}.

Definition run_action (this : Command) (args : list string) : Eff bool :=
  match _action this with
  | None => lift (Throw TypeError)
  | Some action => emit (Action args);; mret (action args)
  end.

Definition execute (env : Env) (this : Command) (argv : ParsedCommandLine) : Eff unit :=
  let options := default ∅ (argv_options argv) in
  let unknown := default [] (argv_unknown argv) in
  let args := default [] (argv_args argv) in
  let argv := with_defaults argv in
  emit (Serialize "before-command");;
  if before_command env argv then mret ()
  else
    hint ← lift (check_arg_count this args);
    match hint with
    | Some (message, param) => _sendHint this message param
    | None =>
        match check_unknown this unknown with
        | Some (message, param) => _sendHint this message param
        | None =>
            match check_required this options with
            | Some (message, param) => _sendHint this message param
            | None =>
                message ← _checkUser env this (argv_meta argv) options;
                match message with
                | Some message => _sendHint this message []
                | None =>
                    emit (LogDebug (name this));;
                    emit (Parallelize "command");;
                    skipped ← run_action this args;
                    if skipped : bool then mret ()
                    else emit (Parallelize "after-command")
                end
            end
        end
    end.

(** [_registerAlias] for the command of reference [ref]. *)
Definition _registerAlias (ref : CommandRef) (this : Command) (name : string) : Reg Command :=
  let name := toLowerCase name in
  let this :=
    {| name := name_of this; declaration := declaration this; context := context this;
       config := config this; children := children this; parent := parent this;
       _aliases := _aliases this ++ [name]; _options := _options this;
       _userFields := _userFields this; _argsDef := _argsDef this;
       _action := _action this |} in
  app ← reg_get;
  match look app name with
  | None =>
      reg_modify (λ app, {| _commands := _commands app;
                            _commandMap := <[name := ref]> (_commandMap app);
                            new_commands := new_commands app |});;
      mret this
  | Some (node previous) =>
      if Nat.eqb previous ref then mret this else reg_lift (Throw DUPLICATE_COMMAND)
  | Some (inherited_object _) => reg_lift (Throw DUPLICATE_COMMAND)
  end.

(** [new Command(name, declaration, context, config)]; [parseArguments]
    is the argument-grammar parser of parser.ts.  The new object is
    referred to by the position [_commands.push(this)] gives it. *)
Definition constructor (parseArguments : string → list CommandArgument.t)
    (name declaration : string) (context : Context) (config : CommandConfig.t)
    : Reg CommandRef :=
  if bool_decide (name = "") then reg_lift (Throw EXPECT_COMMAND_NAME)
  else
    app ← reg_get;
    let ref := length (_commands app) in
    this ← _registerAlias ref
      {| name := name; declaration := declaration; context := context;
         config := CommandConfig.assign defaultConfig config;
         children := []; parent := None; _aliases := []; _options := [];
         _userFields := ∅; _argsDef := parseArguments declaration; _action := None |}
      name;
    reg_modify (λ app, {| _commands := _commands app ++ [this];
                          _commandMap := _commandMap app;
                          new_commands := new_commands app ++ [ref] |});;
    mret ref.

End Command.

Module Context.

Definition inverse_entry (s : Subscope) (index : nat) : Result Subscope :=
  let '(include, exclude) := s in
  match include with
  | Some include => Ok (None, Some include)
  | None => exclude ← ids exclude; Ok (Some exclude, Some [])
  end.

Definition inverse (this : Context) : Result Context :=
  scope ← map_index inverse_entry (_scope this);
  _createContext scope.

Definition plus_entry (ctx : Context) (s : Subscope) (index : nat) : Result Subscope :=
  let '(include1, exclude1) := s in
  '(include2, exclude2) ← entry_at ctx index;
  match include1, include2 with
  | Some include1, Some include2 => Ok (Some (Utils.union include1 include2), None)
  | Some include1, None =>
      exclude2 ← ids exclude2; Ok (None, Some (Utils.difference exclude2 include1))
  | None, Some include2 =>
      exclude1 ← ids exclude1; Ok (None, Some (Utils.difference exclude1 include2))
  | None, None =>
      exclude1 ← ids exclude1; exclude2 ← ids exclude2;
      Ok (None, Some (Utils.intersection exclude1 exclude2))
  end.

Definition plus (this ctx : Context) : Result Context :=
  scope ← map_index (plus_entry ctx) (_scope this);
  _createContext scope.

Definition minus_entry (ctx : Context) (s : Subscope) (index : nat) : Result Subscope :=
  let '(include1, exclude1) := s in
  '(include2, exclude2) ← entry_at ctx index;
  match include1, include2 with
  | Some include1, Some include2 => Ok (Some (Utils.difference include1 include2), None)
  | Some include1, None =>
      exclude2 ← ids exclude2; Ok (Some (Utils.intersection include1 exclude2), None)
  | None, Some include2 =>
      exclude1 ← ids exclude1; Ok (None, Some (Utils.union include2 exclude1))
  | None, None =>
      exclude2 ← ids exclude2; exclude1 ← ids exclude1;
      Ok (Some (Utils.difference exclude2 exclude1), None)
  end.

Definition minus (this ctx : Context) : Result Context :=
  scope ← map_index (minus_entry ctx) (_scope this);
  _createContext scope.

Definition intersect_entry (ctx : Context) (s : Subscope) (index : nat) : Result Subscope :=
  let '(include1, exclude1) := s in
  '(include2, exclude2) ← entry_at ctx index;
  match include1, include2 with
  | Some include1, Some include2 => Ok (Some (Utils.intersection include1 include2), None)
  | Some include1, None =>
      exclude2 ← ids exclude2; Ok (Some (Utils.difference include1 exclude2), None)
  | None, Some include2 =>
      exclude1 ← ids exclude1; Ok (Some (Utils.difference include2 exclude1), None)
  | None, None =>
      exclude1 ← ids exclude1; exclude2 ← ids exclude2;
      Ok (None, Some (Utils.union exclude1 exclude2))
  end.

Definition intersect (this ctx : Context) : Result Context :=
  scope ← map_index (intersect_entry ctx) (_scope this);
  _createContext scope.

Definition match_ (this : Context) (meta : Meta) : Result bool :=
  '(include, exclude) ← entry_at this (contextTypes_index (ctxType meta));
  match include with
  | Some include => Ok (Utils.includes include (ctxId meta))
  | None => exclude ← ids exclude; Ok (negb (Utils.includes exclude (ctxId meta)))
  end.

(** [contain] takes the koishi-utils helper of the same name as
    [contain_ids]. *)
Definition contain_entry (contain_ids : list Z → list Z → bool)
    (ctx : Context) (s : Subscope) (index : nat) : Result bool :=
  let '(include1, exclude1) := s in
  '(include2, exclude2) ← entry_at ctx index;
  match include1, include2 with
  | Some include1, Some include2 => Ok (contain_ids include1 include2)
  | Some include1, None => Ok false
  | None, Some include2 =>
      exclude1 ← ids exclude1;
      Ok (Nat.eqb (length (Utils.intersection include2 exclude1)) 0)
  | None, None =>
      exclude2 ← ids exclude2; exclude1 ← ids exclude1;
      Ok (contain_ids exclude2 exclude1)
  end.

Definition contain (contain_ids : list Z → list Z → bool) (this ctx : Context) : Result bool :=
  every_index (contain_entry contain_ids ctx) (_scope this).


(** [command.parent = parent; parent.children.push(command)] *)
Definition set_parent (command parent : CommandRef) : Reg unit :=
  reg_modify (λ app,
    {| _commands :=
         alter (λ p, {| name := name p; declaration := declaration p; context := context p;
                        config := config p; children := children p ++ [command];
                        parent := parent_of p; _aliases := _aliases p;
                        _options := _options p; _userFields := _userFields p;
                        _argsDef := _argsDef p; _action := _action p |}) parent
           (alter (λ c, {| name := name c; declaration := declaration c; context := context c;
                           config := config c; children := children c;
                           parent := Some parent; _aliases := _aliases c;
                           _options := _options c; _userFields := _userFields c;
                           _argsDef := _argsDef c; _action := _action c |}) command
              (_commands app));
       _commandMap := _commandMap app;
       new_commands := new_commands app |}).

(** [Object.assign(parent.config, config)], where [config] is the object
    literal [{ description, ...args[0] }]: its key [description] is always
    there, with the value [undefined] when no description was given, and
    is copied as the others are. *)
Definition assign_config (command : CommandRef) (source : CommandConfig.t) : Reg unit :=
  reg_modify (λ app,
    {| _commands :=
         alter (λ c, {| name := name c; declaration := declaration c; context := context c;
                        config :=
                          CommandConfig.with_description
                            (CommandConfig.assign (config c) source)
                            (CommandConfig.description source);
                        children := children c; parent := parent_of c;
                        _aliases := _aliases c; _options := _options c;
                        _userFields := _userFields c; _argsDef := _argsDef c;
                        _action := _action c |}) command
           (_commands app);
       _commandMap := _commandMap app;
       new_commands := new_commands app |}).

Section Registration.
(** koishi-utils [contain] and parser.ts [parseArguments]. *)
Variable contain_ids : list Z → list Z → bool.
Variable parseArguments : string → list CommandArgument.t.

(** [this.contain(undefined)] and [this.intersect(undefined)], for an
    inherited object, which has no [context]: the callback throws when it
    reads [ctx._scope], at the first Subscope if there is one. *)
Definition contain_undefined (this : Context) : Result bool :=
  every_index (λ _ _, Throw TypeError) (_scope this).

Definition intersect_undefined (this : Context) : Result Context :=
  scope ← map_index (λ (_ : Subscope) _, Throw TypeError) (_scope this);
  _createContext scope.

(** The name a segment stands for. *)
Definition segment_name (parent : option Node) (segment : string) : Reg string :=
  match segment with
  | String c rest =>
      if Ascii.eqb c "." then                      (* code === 46 *)
        match parent with
        | Some (node parent) => p ← deref parent; mret (name p +:+ segment)
        | Some (inherited_object key) => mret (object_name key +:+ segment)
        | None => reg_lift (Throw TypeError)
        end
      else if Ascii.eqb c "/" then mret rest       (* code === 47 *)
      else mret segment
  | EmptyString => mret segment
  end.

(** The body of the [forEach] of [command]; the result is the new
    value of [parent].  An inherited object is no command of the
    registry: where the code writes [parent] into such an object, or
    the object among the children or as the parent of a command, the
    registry keeps no trace of it.  The code gets that far only from a
    Context without any Subscope, on which [contain] and [intersect] do
    not reach their callback. *)
Definition command_segment (this : Context) (declaration : string)
    (parent : option Node) (segment : string) : Reg Node :=
  name ← segment_name parent segment;
  app ← reg_get;
  match look app name with
  | Some (node command) =>
      match parent with
      | Some (node parent) =>
          if Nat.eqb command parent then reg_lift (Throw INVALID_SUBCOMMAND)
          else
            c ← deref command;
            match parent_of c with
            | Some grandparent =>
                if Nat.eqb grandparent parent then mret (node command)
                else reg_lift (Throw INVALID_SUBCOMMAND)
            | None =>
                p ← deref parent;
                contained ← reg_lift (contain contain_ids (context p) (context c));
                if contained : bool then set_parent command parent;; mret (node command)
                else reg_lift (Throw INVALID_CONTEXT)
            end
      | Some (inherited_object _) =>
          (* the command is not the object, whose [context] is undefined *)
          c ← deref command;
          match parent_of c with
          | Some _ => reg_lift (Throw INVALID_SUBCOMMAND)
          | None => reg_lift (Throw TypeError)
          end
      | None => mret (node command)
      end
  | Some (inherited_object key) =>
      match parent with
      | Some (node parent) =>
          (* the object is not the command, and has no [parent] *)
          p ← deref parent;
          contained ← reg_lift (contain_undefined (context p));
          if contained : bool then mret (inherited_object key)
          else reg_lift (Throw INVALID_CONTEXT)
      | Some (inherited_object key') =>
          if String.eqb key key' then reg_lift (Throw INVALID_SUBCOMMAND)
          else reg_lift (Throw TypeError)
      | None => mret (inherited_object key)
      end
  | None =>
      context ← match parent with
                | Some (node parent) => p ← deref parent; reg_lift (intersect this (context p))
                | Some (inherited_object _) => reg_lift (intersect_undefined this)
                | None => mret this
                end;
      if bool_decide (identifier context = noopIdentifier)
      then reg_lift (Throw INVALID_CONTEXT)
      else
        command ← Command.constructor parseArguments name declaration context
                    CommandConfig.empty;
        match parent with
        | Some (node parent) => set_parent command parent
        | Some (inherited_object _) => reg_lift (Throw TypeError)   (* parent.children *)
        | None => mret ()
        end;;
        mret (node command)
  end.

Fixpoint walk (this : Context) (declaration : string) (parent : option Node)
    (segments : list string) : Reg (option Node) :=
  match segments with
  | [] => mret parent
  | segment :: rest =>
      found ← command_segment this declaration parent segment;
      walk this declaration (Some found) rest
  end.

(** [command(rawName, description?, config?)] *)
Definition command (this : Context) (rawName : string) (description : option string)
    (config : CommandConfig.t) : Reg CommandRef :=
  let config :=
    CommandConfig.assign
      {| CommandConfig.checkUnknown := None; CommandConfig.checkRequired := None;
         CommandConfig.checkArgCount := None; CommandConfig.usageName := None;
         CommandConfig.description := description; CommandConfig.authority := None;
         CommandConfig.disable := None; CommandConfig.maxUsage := None;
         CommandConfig.minInterval := None; CommandConfig.showWarning := None |}
      config in
  let '(path, declaration) := split_declaration rawName in
  parent ← walk this declaration None (split_path (toLowerCase path));
  match parent with
  | Some (node parent) => assign_config parent config;; mret parent
  | Some (inherited_object _) => reg_lift (Throw TypeError)  (* parent.config is undefined *)
  | None => reg_lift (Throw TypeError)
  end.
End Registration.

End Context.

(** ** Well-formed scopes *)

(** A Subscope that the methods can read: one of the two lists is there. *)
Definition valid_subscope (s : Subscope) : bool :=
  match s with
  | (None, None) => false
  | _ => true
  end.

(** The data-model invariant: exactly one of include and exclude is there. *)
Definition exactly_one (s : Subscope) : bool :=
  match s with
  | (Some _, None) | (None, Some _) => true
  | _ => false
  end.

(** One Subscope per identity type. *)
Definition valid_scope (scope : ContextScope) : bool :=
  Nat.eqb (length scope) 3 && forallb valid_subscope scope.

Definition valid (ctx : Context) : bool := valid_scope (_scope ctx).

(** What a Subscope lets through, as a total function. *)
Definition entry_matches (s : Subscope) (id : Z) : bool :=
  match s with
  | (Some include, _) => Utils.includes include id
  | (None, Some exclude) => negb (Utils.includes exclude id)
  | (None, None) => false
  end.

Definition matches (scope : ContextScope) (meta : Meta) : bool :=
  match scope !! contextTypes_index (ctxType meta) with
  | Some s => entry_matches s (ctxId meta)
  | None => false
  end.

(** ** Sample contexts *)

Definition noop_ctx : Context :=
  {| identifier := "+user:;+group:;+discuss:"; _scope := noopScope |}.

Definition user1_ctx : Context :=
  {| identifier := "+user:1;+group:;+discuss:";
     _scope := [(Some [1%Z], None); (Some [], None); (Some [], None)] |}.

Definition not_user1_ctx : Context :=
  {| identifier := "-user:1;+group:;+discuss:";
     _scope := [(None, Some [1%Z]); (Some [], None); (Some [], None)] |}.

Definition user12_ctx : Context :=
  {| identifier := "+user:1,2;+group:;+discuss:";
     _scope := [(Some [1%Z; 2%Z], None); (Some [], None); (Some [], None)] |}.

Definition user13_ctx : Context :=
  {| identifier := "+user:1,3;+group:;+discuss:";
     _scope := [(Some [1%Z; 3%Z], None); (Some [], None); (Some [], None)] |}.

Definition user1_meta : Meta := {| ctxType := user; ctxId := 1 |}.

(** ** Canonical text *)

(** A Subscope whose list in use (include when present, else exclude) has
    an id in it. *)
Definition has_ids (s : Subscope) : bool :=
  match s with
  | (Some (_ :: _), _) => true
  | (None, Some (_ :: _)) => true
  | _ => false
  end.

Definition has_ids_scope (scope : ContextScope) : bool :=
  Nat.eqb (length scope) 3 && forallb has_ids scope.

(** What [stringify] keeps of a Subscope: the list in use. *)
Definition list_in_use (s : Subscope) : Subscope :=
  match s with
  | (Some include, _) => (Some include, None)
  | (None, exclude) => (None, exclude)
  end.

(** The identity types an identifier enumerates, segment by segment
    ([None] for a segment the regular expression of [parse] rejects). *)
Definition enumerated_types (identifier : string) : list (option ContextType) :=
  (λ segment, (λ capture, snd (fst capture)) <$> ContextScope.exec_segment segment)
    <$> split ";" identifier.

Fixpoint all_chars (P : ascii → bool) (s : string) : bool :=
  match s with
  | EmptyString => true
  | String c s' => P c && all_chars P s'
  end.

Definition is_digit (c : ascii) : bool :=
  let n := nat_of_ascii c in Nat.leb 48 n && Nat.leb n 57.

(** The characters of a printed id list. *)
Definition is_number_char (c : ascii) : bool := is_digit c || Ascii.eqb c "-".
Definition is_list_char (c : ascii) : bool := is_number_char c || Ascii.eqb c ",".

(** The text of an id list, [idList.join(',')]. *)
Definition printed (idList : list Z) : string := join "," (number_to_string <$> idList).

(** The segment [stringify] writes for a list in use. *)
Definition segment_of (sign : bool) (type : ContextType) (idList : list Z) : string :=
  (if sign then "+" else "-") +:+ contextTypes_name (contextTypes_index type) +:+ ":"
    +:+ printed idList.

(** ** The execution pipeline, check by check *)

Inductive Stage : Type := ArgCount | UnknownOptions | RequiredOptions | UserCheck.

(** The checks that come before a check, in order. *)
Definition earlier (stage : Stage) : list Stage :=
  match stage with
  | ArgCount => []
  | UnknownOptions => [ArgCount]
  | RequiredOptions => [ArgCount; UnknownOptions]
  | UserCheck => [ArgCount; UnknownOptions; RequiredOptions]
  end.

(** One check on its own: what it does and the hint it reports, if any. *)
Definition run_check (env : Env) (this : Command) (argv : ParsedCommandLine) (stage : Stage)
    : Eff (option Hint) :=
  match stage with
  | ArgCount => lift (Command.check_arg_count this (default [] (argv_args argv)))
  | UnknownOptions => mret (Command.check_unknown this (default [] (argv_unknown argv)))
  | RequiredOptions => mret (Command.check_required this (default ∅ (argv_options argv)))
  | UserCheck =>
      message ← Command._checkUser env this (argv_meta argv) (default ∅ (argv_options argv));
      mret ((λ message, (message, [])) <$> message)
  end.

(** How an execution stops short of the action: the before-command hook
    handles it, or a check reports a hint after every earlier check passed
    without effect. *)
Inductive Abort : Type :=
  | ByHook
  | ByCheck (stage : Stage) (events : list Event) (hint : Hint).

Definition aborts (env : Env) (this : Command) (argv : ParsedCommandLine) (a : Abort) : Prop :=
  match a with
  | ByHook => before_command env (Command.with_defaults argv) = true
  | ByCheck stage events hint =>
      before_command env (Command.with_defaults argv) = false ∧
      Forall (λ s, run_check env this argv s = ([], Ok None)) (earlier stage) ∧
      run_check env this argv stage = (events, Ok (Some hint))
  end.

(** The events of an aborted execution. *)
Definition abort_events (this : Command) (a : Abort) : list Event :=
  Serialize "before-command" ::
  match a with
  | ByHook => []
  | ByCheck _ events (message, param) =>
      events ++ (if truthy (CommandConfig.showWarning (config this))
                 then [Send message param] else [])
  end.

(** Events from the execution proper: later hooks and the action. *)
Definition past_checks (e : Event) : bool :=
  match e with
  | LogDebug _ | Parallelize _ | Action _ => true
  | _ => false
  end.

(** ** Authority and usage gating, without the loop *)

Definition exceeds (threshold : option Z) (user : UserData.t) : bool :=
  match threshold with
  | Some a => Z.ltb (UserData.authority user) a
  | None => false
  end.

Definition low_authority (this : Command) (user : UserData.t) (options : gmap string string)
    : bool :=
  exceeds (CommandConfig.authority (config this)) user
  || existsb (λ option, Command.present options option
                        && Z.ltb (UserData.authority user) (CommandOption.authority option))
             (_options this).

Definition usage_suppressed (this : Command) (options : gmap string string) : bool :=
  existsb (λ option, Command.present options option && CommandOption.notUsage option)
          (_options this).

Definition gating (env : Env) (this : Command) (user : option UserData.t)
    (options : gmap string string) : Eff (option Message) :=
  match user with
  | None => ([], Ok None)
  | Some u =>
      if low_authority this u options then ([], Ok (Some LOW_AUTHORITY))
      else if usage_suppressed this options then ([], Ok None)
      else
        let maxUsage := Command.getConfig (CommandConfig.maxUsage (config this)) u in
        let minInterval := Command.getConfig (CommandConfig.minInterval (config this)) u in
        if lt_Infinity maxUsage || gt_zero minInterval then
          ([UpdateUsage (Command.usageName this) u maxUsage minInterval],
           Ok (updateUsage env (Command.usageName this) u maxUsage minInterval))
        else ([], Ok None)
  end.

(** ** The user fields to fetch *)

Definition authority_reachable (command : Command) (options : gmap string string) : bool :=
  match CommandConfig.authority (config command) with Some a => Z.ltb 0 a | None => false end
  || existsb (λ option, Command.present options option
                        && Z.ltb 0 (CommandOption.authority option))
             (_options command).

(** Thresholds that are numbers. *)
Definition usage_reachable (command : Command) : bool :=
  lt_Infinity (Command.is_number (CommandConfig.maxUsage (config command)))
  || gt_zero (Command.is_number (CommandConfig.minInterval (config command))).

(** ** Sample commands *)

Definition sample_config : CommandConfig.t :=
  CommandConfig.assign defaultConfig
    {| CommandConfig.checkUnknown := Some true; CommandConfig.checkRequired := Some true;
       CommandConfig.checkArgCount := Some true; CommandConfig.usageName := None;
       CommandConfig.description := None; CommandConfig.authority := None;
       CommandConfig.disable := None; CommandConfig.maxUsage := None;
       CommandConfig.minInterval := None; CommandConfig.showWarning := None |}.

(** A command declared without arguments, with argument counting on. *)
Definition no_args_command : Command :=
  {| name := "ping"; declaration := ""; context := user12_ctx; config := sample_config;
     children := []; parent := None; _aliases := ["ping"]; _options := [];
     _userFields := ∅; _argsDef := []; _action := Some (λ _, false) |}.

(** A command declared with one required argument. *)
Definition one_arg_command : Command :=
  {| name := "echo"; declaration := " <message>"; context := user12_ctx;
     config := sample_config;
     children := []; parent := None; _aliases := ["echo"]; _options := [];
     _userFields := ∅;
     _argsDef := [ {| CommandArgument.required := true; CommandArgument.variadic := false;
                      CommandArgument.noSegment := false |} ];
     _action := Some (λ _, false) |}.

(** A command whose usage cap is a function of the user. *)
Definition per_user_command : Command :=
  {| name := "draw"; declaration := ""; context := user12_ctx;
     config := CommandConfig.assign defaultConfig
       {| CommandConfig.checkUnknown := None; CommandConfig.checkRequired := None;
          CommandConfig.checkArgCount := None; CommandConfig.usageName := None;
          CommandConfig.description := None; CommandConfig.authority := None;
          CommandConfig.disable := None;
          CommandConfig.maxUsage := Some (PerUser (λ _, Finite 5));
          CommandConfig.minInterval := None; CommandConfig.showWarning := None |};
     children := []; parent := None; _aliases := ["draw"]; _options := [];
     _userFields := ∅; _argsDef := []; _action := Some (λ _, false) |}.

Definition sample_user : UserData.t := {| UserData.id := 1; UserData.authority := 2 |}.

Definition sample_meta : MessageMeta :=
  {| meta_identity := user1_meta; meta_user := Some sample_user |}.

Definition sample_env : Env :=
  {| before_command := λ _, false; updateUsage := λ _ _ _ _, None |}.

Definition argv_of (args : list string) : ParsedCommandLine :=
  {| argv_meta := sample_meta; argv_args := Some args; argv_options := None;
     argv_unknown := None |}.

(** A command with a higher authority than [sample_user] has. *)
Definition admin_command : Command :=
  {| name := "shutdown"; declaration := ""; context := user12_ctx;
     config := CommandConfig.assign sample_config
       {| CommandConfig.checkUnknown := None; CommandConfig.checkRequired := None;
          CommandConfig.checkArgCount := None; CommandConfig.usageName := None;
          CommandConfig.description := None; CommandConfig.authority := Some 3%Z;
          CommandConfig.disable := None; CommandConfig.maxUsage := None;
          CommandConfig.minInterval := None; CommandConfig.showWarning := None |};
     children := []; parent := None; _aliases := ["shutdown"]; _options := [];
     _userFields := ∅; _argsDef := []; _action := Some (λ _, false) |}.

(** ** The teach plugin: the dialogue/modify handler *)

Module Teach.

(** A property that may be missing or [null]. *)
Inductive JsOpt (A : Type) : Type :=
  | undefined
  | null
  | value (a : A).
Arguments undefined {A}.
Arguments null {A}.
Arguments value {A} a.

(** [x ?? d] *)
Definition nullish_or {A : Type} (x : JsOpt A) (d : A) : JsOpt A :=
  match x with
  | value a => value a
  | _ => value d
  end.

(** [x !== undefined] *)
Definition is_defined {A : Type} (x : JsOpt A) : bool :=
  match x with undefined => false | _ => true end.

(** Truthiness of a string and of an object reference. *)
Definition truthy_string (x : JsOpt string) : bool :=
  match x with
  | value (String _ _) => true
  | _ => false
  end.

Definition truthy_object {A : Type} (x : JsOpt A) : bool :=
  match x with value _ => true | _ => false end.

(** [+x] for a boolean. *)
Definition to_number (x : JsOpt bool) : Z :=
  match x with value true => 1 | _ => 0 end.

(** The constants of the [DialogueFlag] enumeration (database.ts). *)
Module DialogueFlag.
Record t : Type := { keyword : Z; redirect : Z }.
End DialogueFlag.

Module Options.
Record t : Type := {
  answer : JsOpt string;
  question : JsOpt string;
  original : JsOpt string;
  probabilityStrict : JsOpt Q;
  probabilityAppellative : JsOpt Q;
  keyword : JsOpt bool;
  redirect : JsOpt bool
}.
End Options.

Module Dialogue.
Record t : Type := {
  answer : JsOpt string;
  question : JsOpt string;
  original : JsOpt string;
  probS : JsOpt Q;
  probA : JsOpt Q;
  flag : Z
}.
End Dialogue.

(** The statements of the handler that write to [data]. *)
Inductive Statement : Type :=
  | SetAnswer (v : JsOpt string)
  | SetQuestion (v : JsOpt string)
  | SetOriginal (v : JsOpt string)
  | SetProbS (v : JsOpt Q)
  | SetProbA (v : JsOpt Q)
  | FlagAnd (mask : Z)      (* data.flag &= mask *)
  | FlagOr (bits : Z).      (* data.flag |= bits *)

(** The 32-bit integer of a bitwise operation. *)
Definition to_int32 (z : Z) : Z := ((z + 2 ^ 31) mod 2 ^ 32 - 2 ^ 31)%Z.

Definition exec (data : Dialogue.t) (s : Statement) : Dialogue.t :=
  let '(Dialogue.Build_t answer question original probS probA flag) := data in
  match s with
  | SetAnswer v => Dialogue.Build_t v question original probS probA flag
  | SetQuestion v => Dialogue.Build_t answer v original probS probA flag
  | SetOriginal v => Dialogue.Build_t answer question v probS probA flag
  | SetProbS v => Dialogue.Build_t answer question original v probA flag
  | SetProbA v => Dialogue.Build_t answer question original probS v flag
  | FlagAnd mask =>
      Dialogue.Build_t answer question original probS probA
        (to_int32 (Z.land (to_int32 flag) (to_int32 mask)))
  | FlagOr bits =>
      Dialogue.Build_t answer question original probS probA
        (to_int32 (Z.lor (to_int32 flag) (to_int32 bits)))
  end.

Definition run (statements : list Statement) (data : Dialogue.t) : Dialogue.t :=
  fold_left exec statements data.

(** The listener of [ctx.before('dialogue/modify', ...)], as the
    statements it executes, in order. *)
Definition before_dialogue_modify (flags : DialogueFlag.t) (options : Options.t)
    (target : JsOpt (list Z)) (appellative : bool) : list Statement :=
  ((if truthy_string (Options.answer options)
    then [SetAnswer (Options.answer options)] else [])
   ++ (if truthy_string (Options.question options)
       then [SetQuestion (Options.question options); SetOriginal (Options.original options)]
       else [])
   ++ (if negb (truthy_object target) && appellative then
         [SetProbS (nullish_or (Options.probabilityStrict options) 0%Q);
          SetProbS (nullish_or (Options.probabilityAppellative options) 1%Q)]
       else
         (if is_defined (Options.probabilityStrict options)
          then [SetProbS (Options.probabilityStrict options)] else [])
         ++ (if is_defined (Options.probabilityAppellative options)
             then [SetProbA (Options.probabilityAppellative options)] else []))
   ++ (if is_defined (Options.keyword options) then
         [FlagAnd (Z.lnot (DialogueFlag.keyword flags));
          FlagOr (to_number (Options.keyword options) * DialogueFlag.keyword flags)]
       else [])
   ++ (if is_defined (Options.redirect options) then
         [FlagAnd (Z.lnot (DialogueFlag.redirect flags));
          FlagOr (to_number (Options.redirect options) * DialogueFlag.redirect flags)]
       else []))%list.

(** The writes to the two probability fields among some statements. *)
Definition is_prob (s : Statement) : bool :=
  match s with SetProbS _ | SetProbA _ => true | _ => false end.

Definition sample_flags : DialogueFlag.t :=
  {| DialogueFlag.keyword := 1; DialogueFlag.redirect := 2 |}.

Definition sample_options : Options.t :=
  {| Options.answer := value "hello"; Options.question := value "hi";
     Options.original := value "koishi, hi";
     Options.probabilityStrict := value (1 # 2); Options.probabilityAppellative := undefined;
     Options.keyword := value true; Options.redirect := undefined |}.

Definition sample_data : Dialogue.t :=
  {| Dialogue.answer := undefined; Dialogue.question := undefined;
     Dialogue.original := undefined; Dialogue.probS := value 1%Q;
     Dialogue.probA := value 0%Q; Dialogue.flag := 0 |}.

End Teach.

(** ** Sample registries *)

(** An argument parser for commands declared without arguments. *)
Definition no_arguments : string → list CommandArgument.t := λ _, [].

Definition register : Context → string → option string → CommandConfig.t → Reg nat :=
  Context.command Utils.contain no_arguments.

Definition user2_meta : Meta := {| ctxType := user; ctxId := 2 |}.

(** ** The command tree *)

(** The registry is well formed: every name is bound to a command that is
    there, every command stands on a readable Context, and a command with
    a parent matches only event identities its parent matches. *)
Definition tree_ok (app : App) : Prop :=
  (∀ key ref, _commandMap app !! key = Some ref → is_Some (_commands app !! ref)) ∧
  (∀ ref c, _commands app !! ref = Some c →
     valid (context c) = true ∧
     ∀ above, parent c = Some above →
       ∃ p, _commands app !! above = Some p ∧
            ∀ meta, matches (_scope (context c)) meta = true →
                    matches (_scope (context p)) meta = true).

(** Registration with the helper [contain] that holds iff every id of its
    second collection is in its first. *)
Definition register_rev : Context → string → option string → CommandConfig.t → Reg nat :=
  Context.command Utils.contain_rev no_arguments.

(** ** Command: aliases of a registered command *)

Module CommandMethods.

(** [this._registerAlias(name)] for a command [this] of the registry:
    [this._aliases.push(name)] changes the command where it is, before
    the name is looked up. *)
Definition push_alias (this : CommandRef) (name : string) : Reg unit :=
  reg_modify (λ app,
    {| _commands :=
         alter (λ c, {| name := name_of c; declaration := declaration c; context := context c;
                        config := config c; children := children c; parent := parent c;
                        _aliases := _aliases c ++ [name]; _options := _options c;
                        _userFields := _userFields c; _argsDef := _argsDef c;
                        _action := _action c |}) this (_commands app);
       _commandMap := _commandMap app;
       new_commands := new_commands app |}).

Definition _registerAlias (this : CommandRef) (name : string) : Reg unit :=
  let name := toLowerCase name in
  push_alias this name;;
  app ← reg_get;
  match look app name with
  | None =>
      reg_modify (λ app, {| _commands := _commands app;
                            _commandMap := <[name := this]> (_commandMap app);
                            new_commands := new_commands app |})
  | Some (node previous) =>
      if Nat.eqb previous this then mret () else reg_lift (Throw DUPLICATE_COMMAND)
  | Some (inherited_object _) => reg_lift (Throw DUPLICATE_COMMAND)
  end.

(** [alias(...names)] *)
Fixpoint alias (this : CommandRef) (names : list string) : Reg CommandRef :=
  match names with
  | [] => mret this
  | name :: rest => _registerAlias this name;; alias this rest
  end.

(** A name that [this] may take: its own already, or, in lower case,
    bound to no command and not one of the names every object inherits
    ([constructor], [__proto__], ...). *)
Definition free_or_own (app : App) (this : CommandRef) (name : string) : bool :=
  match _commandMap app !! toLowerCase name with
  | None => negb (existsb (String.eqb (toLowerCase name)) Object_prototype)
  | Some previous => Nat.eqb previous this
  end.

End CommandMethods.

(** ** Context: middlewares and the lookup of a command *)

Module ContextMethods.

(** [app._middlewares]: pairs of a Context and a middleware, both compared
    by identity and so held as references. *)
Definition Entry : Type := nat * nat.

(** [middleware(middleware)]: [_middlewares.push([this, middleware])] *)
Definition middleware (this middleware : nat) (_middlewares : list Entry) : list Entry :=
  _middlewares ++ [(this, middleware)].

(** [prependMiddleware(middleware)]: [_middlewares.unshift(...)] *)
Definition prependMiddleware (this middleware : nat) (_middlewares : list Entry)
    : list Entry :=
  (this, middleware) :: _middlewares.

(** [_middlewares.findIndex(([c, m]) => c === this && m === middleware)] *)
Fixpoint findIndex (this middleware : nat) (l : list Entry) : option nat :=
  match l with
  | [] => None
  | (c, m) :: l' =>
      if Nat.eqb c this && Nat.eqb m middleware then Some 0
      else S <$> findIndex this middleware l'
  end.

(** [removeMiddleware(middleware)]: [true] after [splice(index, 1)],
    [undefined] ([false] here) when the pair is not found. *)
Definition removeMiddleware (this middleware : nat) (_middlewares : list Entry)
    : bool * list Entry :=
  match findIndex this middleware _middlewares with
  | Some index => (true, delete index _middlewares)
  | None => (false, _middlewares)
  end.

(** [name.lastIndexOf('/')], [None] for -1, and [name.slice(n)]. *)
Fixpoint lastIndexOf (c : ascii) (s : string) : option nat :=
  match s with
  | EmptyString => None
  | String a s' =>
      match lastIndexOf c s' with
      | Some i => Some (S i)
      | None => if Ascii.eqb a c then Some 0 else None
      end
  end.

Fixpoint slice (n : nat) (s : string) : string :=
  match n, s with
  | 0, _ => s
  | S n', String _ s' => slice n' s'
  | S _, EmptyString => EmptyString
  end.

(** [_getCommandByRawName(name)]: the command it finds, if it finds one. *)
Definition _getCommandByRawName (name : string) (app : App) : option CommandRef :=
  let name := fst (split_declaration name) in
  let index := lastIndexOf "/" name in
  _commandMap app !! toLowerCase (slice (match index with Some i => S i | None => 0 end) name).

End ContextMethods.

(** ** The local assets server *)

Module LocalAssets.

(** A query parameter: [string | string[] | undefined]. *)
Inductive QueryValue : Type :=
  | absent
  | one (s : string)
  | many (l : list string).

Record Query : Type := { salt : QueryValue; sign : QueryValue; url : QueryValue; file : QueryValue }.

(** The configuration once the constructor has normalised it. *)
Record Config : Type := {
  path : string;
  root : string;
  secret : option string;
  selfUrl : string
}.

Record Stats : Type := { assetCount : Z; assetSize : Z }.

(** The server: its statistics and the files written, newest first, each
    with its path and content. *)
Record State : Type := { _stats : Stats; written : list (string * string) }.

(** What the class takes from outside: [analyze] of the Assets base class
    (the buffer and the file name for a url), [resolve] of path, and the
    HMAC-SHA1 hex digest of a message under a key. *)
Record Imports : Type := {
  analyze : string → QueryValue → string * string;
  resolve : string → string → string;
  hmac : string → string → string
}.

Definition truthy_value (v : QueryValue) : bool :=
  match v with
  | absent => false
  | one EmptyString => false
  | _ => true
  end.

(** A query parameter in a string concatenation. *)
Definition to_string (v : QueryValue) : string :=
  match v with
  | absent => "undefined"
  | one s => s
  | many l => join "," l
  end.

Definition is_array (v : QueryValue) : bool :=
  match v with many _ => true | _ => false end.

(** [write(buffer, filename)] *)
Definition write (buffer filename : string) (st : State) : State :=
  {| _stats := {| assetCount := assetCount (_stats st) + 1;
                  assetSize := assetSize (_stats st) + Z.of_nat (String.length buffer) |};
     written := (filename, buffer) :: written st |}.

(** [upload(url, file)]; [url] is what the caller passed, possibly
    [undefined]. *)
Definition upload (imports : Imports) (config : Config) (url file : QueryValue) (st : State)
    : Result string * State :=
  match url with
  | one url =>
      if String.prefix (selfUrl config) url then (Ok url, st)
      else
        let '(buffer, filename) := analyze imports url file in
        let savePath := resolve imports (root config) filename in
        (Ok (selfUrl config +:+ path config +:+ "/" +:+ filename), write buffer savePath st)
  | _ => (Throw TypeError, st)
  end.

(** The handler of [router.post(config.path, ...)]: the status it sets,
    or the exception of [upload]. *)
Definition post (imports : Imports) (config : Config) (query : Query) (st : State)
    : Result Z * State :=
  if is_array (file query) || is_array (url query) then (Ok 400%Z, st)
  else
    let checked :=
      match secret config with
      | Some (String c s) =>
          if negb (truthy_value (salt query)) || negb (truthy_value (sign query))
          then Some 400%Z
          else
            let hash := hmac imports (String c s)
                          (to_string (file query) +:+ to_string (salt query)) in
            match sign query with
            | one sign => if bool_decide (hash = sign) then None else Some 403%Z
            | _ => Some 403%Z
            end
      | _ => None
      end in
    match checked with
    | Some status => (Ok status, st)
    | None =>
        match upload imports config (url query) (file query) st with
        | (Ok _, st') => (Ok 200%Z, st')
        | (Throw e, st') => (Throw e, st')
        end
    end.

(** The statistics agree with the files written since [since]. *)
Definition accounted (since st : State) : Prop :=
  ∃ newer,
    written st = (newer ++ written since)%list ∧
    assetCount (_stats st) = (assetCount (_stats since) + Z.of_nat (length newer))%Z ∧
    assetSize (_stats st) =
      (assetSize (_stats since)
       + Z.of_nat (list_sum ((λ f, String.length (snd f)) <$> newer)))%Z.

Definition sample_imports : Imports :=
  {| analyze := λ url _, ("content", "picture.png");
     resolve := λ root filename, root +:+ "/" +:+ filename;
     hmac := λ key message, key +:+ ":" +:+ message |}.

Definition sample_config : Config :=
  {| path := "/assets"; root := "/srv/public"; secret := Some "s3cret";
     selfUrl := "https://bot.example" |}.

Definition empty_state : State :=
  {| _stats := {| assetCount := 0; assetSize := 0 |}; written := [] |}.

End LocalAssets.

(** The registry after [command('foo')] and [command('bar')]. *)
Definition app_foo_bar : App :=
  snd (register_rev user12_ctx "bar" None CommandConfig.empty
         (snd (register_rev user12_ctx "foo" None CommandConfig.empty empty_app))).

(** ** The teach plugin: what the handler does to the flag *)

(** The statements that write to [data.flag]. *)
Definition is_flag (s : Teach.Statement) : bool :=
  match s with Teach.FlagAnd _ | Teach.FlagOr _ => true | _ => false end.

(** Bit [n] of the flag after an option with the bits [mask] was handled:
    set to the option's value where [mask] has a bit and the option is
    given, left alone elsewhere. *)
Definition flag_bit (option : Teach.JsOpt bool) (mask : Z) (n : Z) (before : bool) : bool :=
  if Teach.is_defined option && Z.testbit mask n
  then Z.eqb (Teach.to_number option) 1
  else before.

(** ** Names in the registry *)

(** Every name of the registry is in lower case and bound to a command of
    that name (the registry holds no alias). *)
Definition names_bound (app : App) : Prop :=
  ∀ key ref, _commandMap app !! key = Some ref →
    toLowerCase key = key ∧ ∃ c, _commands app !! ref = Some c ∧ name c = key.

(** The name a segment stands for, from the name of the parent alone. *)
Definition step_name (prev : option string) (segment : string) : option string :=
  match segment with
  | String c rest =>
      if Ascii.eqb c "." then (λ prev, prev +:+ segment) <$> prev
      else if Ascii.eqb c "/" then Some rest
      else Some segment
  | EmptyString => Some segment
  end.

Fixpoint resolve (prev : option string) (segments : list string) : option (option string) :=
  match segments with
  | [] => Some prev
  | segment :: rest =>
      match step_name prev segment with
      | Some name => resolve (Some name) rest
      | None => None
      end
  end.

(** [name.slice(name.lastIndexOf('/') + 1)] *)
Definition after_last_slash (name : string) : string :=
  ContextMethods.slice
    (match ContextMethods.lastIndexOf "/" name with Some i => S i | None => 0 end) name.

Definition not_slash (c : ascii) : bool := negb (Ascii.eqb c "/").
Definition not_backslash (c : ascii) : bool := negb (Ascii.eqb c "\").
Definition not_separator (c : ascii) : bool := negb (is_separator c).

(** The shape of the segments after the first. *)
Definition later_segment (segment : string) : Prop :=
  ∃ c r, segment = String c r ∧ is_separator c = true ∧ all_chars not_separator r = true.

(** A character that [toLowerCase] leaves as it is. *)
Definition is_lowered (c : ascii) : bool := Ascii.eqb (lower c) c.

(** The command of reference [ref] is there and its own name leads to it. *)
Definition bound (app : App) (ref : CommandRef) : Prop :=
  ∃ c, _commands app !! ref = Some c ∧ _commandMap app !! name_of c = Some ref.

(** The name of the command [parent] refers to, if any. *)
Definition name_at (app : App) (parent : option CommandRef) : option string :=
  parent ≫= λ p, name_of <$> _commands app !! p.

(** Two registries with the same names: the same map, and at every
    reference a command of the same name. *)
Definition same_names (app app' : App) : Prop :=
  _commandMap app' = _commandMap app ∧
  ∀ ref, name_of <$> _commands app' !! ref = name_of <$> _commands app !! ref.

(** ** What an execution sends, and the fields it reads *)

(** The messages sent to the conversation among the events. *)
Definition sends (events : list Event) : list (Message * list string) :=
  omap (λ e, match e with Send message param => Some (message, param) | _ => None end) events.

(** A threshold given as a value, not as a function of the user. *)
Definition is_value {T : Type} (x : option (UserType T)) : Prop :=
  ∀ f, x ≠ Some (PerUser f).

(** What is bound stays bound, under the same name. *)
Definition keeps_bound (app app' : App) : Prop :=
  ∀ ref, bound app ref → bound app' ref ∧ name_at app' (Some ref) = name_at app (Some ref).

(** ** Command: subcommands *)

(** [subcommand(rawName, ...)] for the command of reference [this]. *)
Definition subcommand (contain_ids : list Z → list Z → bool)
    (parseArguments : string → list CommandArgument.t) (this : CommandRef)
    (rawName : string) (description : option string) (config : CommandConfig.t)
    : Reg CommandRef :=
  c ← deref this;
  let rawName :=
    name_of c
    +:+ (match rawName with
         | String c0 _ => if Ascii.eqb c0 "." then "" else "/"   (* charCodeAt(0) === 46 *)
         | EmptyString => "/"
         end)
    +:+ rawName in
  Context.command contain_ids parseArguments (context c) rawName description config.

(** A name without slash, backslash or space. *)
Definition name_char (c : ascii) : bool :=
  negb (Ascii.eqb c "/") && negb (Ascii.eqb c "\") && negb (Ascii.eqb c " ").

(** A path of one segment that does not start with a slash or backslash. *)
Definition child_path (path : string) : bool :=
  match path with
  | String c rest =>
      negb (Ascii.eqb c "/") && negb (Ascii.eqb c "\") && all_chars not_separator rest
  | EmptyString => false
  end.

(** The name of the child a path of one segment stands for. *)
Definition child_name (parent : Command) (path : string) : string :=
  match path with
  | String c rest => if Ascii.eqb c "." then name_of parent +:+ path else path
  | EmptyString => path
  end.

(** The registry after [command('foo')]. *)
Definition app_foo : App :=
  snd (register_rev user12_ctx "foo" None CommandConfig.empty empty_app).

(** ** The teach plugin: validation and display *)

Module TeachHandlers.

(** What the validate handler sends to the conversation. *)
Inductive Reply : Type :=
  | SURPLUS_ARGUMENTS      (* 存在多余的参数，请检查指令语法…… *)
  | IMAGE_IN_QUESTION      (* 问题不能包含图片。 *)
  | INVALID_REDIRECT.      (* 没有重定向到合法的指令。 *)

(** [String(x)] *)
Definition to_String (x : Teach.JsOpt string) : string :=
  match x with
  | Teach.undefined => "undefined"
  | Teach.null => "null"
  | Teach.value s => s
  end.

(** [s.includes(pattern)] *)
Fixpoint includes (pattern s : string) : bool :=
  String.prefix pattern s
  || match s with
     | String _ s' => includes pattern s'
     | EmptyString => false
     end.

Definition truthy_bool (x : Teach.JsOpt bool) : bool :=
  match x with Teach.value true => true | _ => false end.

(** [answer || ''] *)
Definition or_empty (x : Teach.JsOpt string) : string :=
  match x with Teach.value s => s | _ => "" end.

Definition set_question (options : Teach.Options.t) (question original : Teach.JsOpt string)
    : Teach.Options.t :=
  {| Teach.Options.answer := Teach.Options.answer options;
     Teach.Options.question := question;
     Teach.Options.original := original;
     Teach.Options.probabilityStrict := Teach.Options.probabilityStrict options;
     Teach.Options.probabilityAppellative := Teach.Options.probabilityAppellative options;
     Teach.Options.keyword := Teach.Options.keyword options;
     Teach.Options.redirect := Teach.Options.redirect options |}.

Definition set_answer (options : Teach.Options.t) (answer : Teach.JsOpt string)
    (redirect : Teach.JsOpt bool) : Teach.Options.t :=
  {| Teach.Options.answer := answer;
     Teach.Options.question := Teach.Options.question options;
     Teach.Options.original := Teach.Options.original options;
     Teach.Options.probabilityStrict := Teach.Options.probabilityStrict options;
     Teach.Options.probabilityAppellative := Teach.Options.probabilityAppellative options;
     Teach.Options.keyword := Teach.Options.keyword options;
     Teach.Options.redirect := redirect |}.

(** After the handler: what it sent, if anything, [argv.options], and
    [argv.appellative] once it was assigned. *)
Record Validated : Type := {
  sent : option Reply;
  validated : Teach.Options.t;
  appellation : option bool
}.

(** [probS < 1] and [probA > 0], for what the fields may hold. *)
Definition lt_one (x : Teach.JsOpt Q) : bool :=
  match x with
  | Teach.value q => negb (Qle_bool 1 q)
  | Teach.null => true
  | Teach.undefined => false
  end.

Definition gt_zero (x : Teach.JsOpt Q) : bool :=
  match x with
  | Teach.value q => negb (Qle_bool q 0)
  | _ => false
  end.

Section Handlers.
(** [String.prototype.trim] and [trimStart]; [config._stripQuestion],
    with whether the appellation it reports is
    [AppellationType.appellative]; whether [ctx.app._commandMap[name]] is
    truthy; and how a template literal prints a weight. *)
Variable trim trimStart : string → string.
Variable stripQuestion : Teach.JsOpt string → string * bool.
Variable registered : string → bool.
Variable show : Teach.JsOpt Q → string.

(** The listener of [ctx.before('dialogue/validate', ...)]. *)
Definition validate (args : list string) (options : Teach.Options.t)
    (redirectDialogue : Teach.JsOpt string) (search : Teach.JsOpt bool) : Validated :=
  if negb (Nat.eqb (length args) 0)
  then {| sent := Some SURPLUS_ARGUMENTS; validated := options; appellation := None |}
  else if includes "[CQ:image," (to_String (Teach.Options.question options))
  then {| sent := Some IMAGE_IN_QUESTION; validated := options; appellation := None |}
  else
    let '(question, appellative) := stripQuestion (Teach.Options.question options) in
    let options1 :=
      match question with
      | String _ _ =>
          set_question options (Teach.value question) (Teach.Options.question options)
      | EmptyString =>
          set_question options Teach.undefined (Teach.Options.original options)
      end in
    let answer := trim (or_empty (Teach.Options.answer options)) in
    match answer with
    | EmptyString =>
        {| sent := None;
           validated := set_answer options1 Teach.undefined (Teach.Options.redirect options1);
           appellation := Some appellative |}
    | String _ _ =>
        if Teach.truthy_string redirectDialogue then
          {| sent := None;
             validated := set_answer options1 (Teach.value ("dialogue " +:+ answer))
                            (Teach.value true);
             appellation := Some appellative |}
        else
          let options2 :=
            set_answer options1 (Teach.value answer) (Teach.Options.redirect options1) in
          if truthy_bool (Teach.Options.redirect options) && negb (truthy_bool search) then
            let name := fst (split_declaration answer) in
            {| sent := if registered name then None else Some INVALID_REDIRECT;
               validated := options2; appellation := Some appellative |}
          else {| sent := None; validated := options2; appellation := Some appellative |}
    end.

(** The listener of [ctx.on('dialogue/detail', ...)]: the lines of
    [output] afterwards. *)
Definition detail (flags : Teach.DialogueFlag.t) (data : Teach.Dialogue.t)
    (output : list string) : Result (list string) :=
  let output := (output ++ ["问题：" +:+ to_String (Teach.Dialogue.original data)])%list in
  let redirected :=
    negb (Z.eqb (Teach.to_int32
                   (Z.land (Teach.to_int32 (Teach.Dialogue.flag data))
                           (Teach.to_int32 (Teach.DialogueFlag.redirect flags)))) 0) in
  output ←
    (if negb redirected
     then Ok (output ++ ["回答：" +:+ to_String (Teach.Dialogue.answer data)])%list
     else
       match Teach.Dialogue.answer data with
       | Teach.value answer =>
           if String.prefix "dialogue " answer
           then Ok (output
                    ++ ["重定向到问题：" +:+ trimStart (ContextMethods.slice 9 answer)])%list
           else Ok (output ++ ["重定向到指令：" +:+ answer])%list
       | _ => Throw TypeError
       end);
  if lt_one (Teach.Dialogue.probS data) || gt_zero (Teach.Dialogue.probA data)
  then Ok (output ++ ["触发权重：p=" +:+ show (Teach.Dialogue.probS data)
                        +:+ ", P=" +:+ show (Teach.Dialogue.probA data)])%list
  else Ok output.
End Handlers.

(** A [trim] and [trimStart] for spaces, and the other collaborators, for
    the examples. *)
Fixpoint sample_trimStart (s : string) : string :=
  match s with
  | String c s' => if Ascii.eqb c " " then sample_trimStart s' else s
  | EmptyString => EmptyString
  end.

Fixpoint sample_trimEnd (s : string) : string :=
  match s with
  | String c s' =>
      match sample_trimEnd s' with
      | EmptyString => if Ascii.eqb c " " then EmptyString else String c EmptyString
      | t => String c t
      end
  | EmptyString => EmptyString
  end.

Definition sample_trim (s : string) : string := sample_trimEnd (sample_trimStart s).

Definition sample_strip (question : Teach.JsOpt string) : string * bool :=
  (or_empty question, false).

Definition sample_show (x : Teach.JsOpt Q) : string :=
  match x with Teach.value _ => "1" | _ => "undefined" end.

Definition redirect_options : Teach.Options.t :=
  {| Teach.Options.answer := Teach.value " good morning ";
     Teach.Options.question := Teach.value "hi";
     Teach.Options.original := Teach.undefined;
     Teach.Options.probabilityStrict := Teach.undefined;
     Teach.Options.probabilityAppellative := Teach.undefined;
     Teach.Options.keyword := Teach.undefined; Teach.Options.redirect := Teach.undefined |}.

End TeachHandlers.

(** ** Sample registries for adoption *)

(** The registry after [command('p')] on users 1 and 2 and [command('c')]
    on user 1: two commands without a parent. *)
Definition app_p_c : App :=
  snd (register_rev user1_ctx "c" None CommandConfig.empty
         (snd (register_rev user12_ctx "p" None CommandConfig.empty empty_app))).

(** The registry after [command('b')] on users 1 and 2. *)
Definition app_b : App :=
  snd (register_rev user12_ctx "b" None CommandConfig.empty empty_app).

(** ** The specification's words on options, thresholds and fields *)

(** The key an option is held under: the first of its names in camel
    case. *)
Definition key_of (option : CommandOption.t) : string :=
  match CommandOption.camels option with
  | key :: _ => key
  | [] => "undefined"
  end.

(** An option is present in the resolved options: they hold a value under
    its key. *)
Definition supplied (options : gmap string string) (option : CommandOption.t) : bool :=
  bool_decide (is_Some (options !! key_of option)).

(** No option of the command goes by a name that every object inherits
    ([constructor], [toString], ...). *)
Definition own_names (this : Command) : bool :=
  forallb (λ option, negb (existsb (String.eqb (key_of option)) Object_prototype))
          (_options this).

(** A threshold in effect for a user: one given as a function is evaluated
    against the user record. *)
Definition effective {T : Type} (threshold : option (UserType T)) (user : UserData.t)
    : option T :=
  match threshold with
  | Some (PerUser f) => Some (f user)
  | Some (Value v) => Some v
  | None => None
  end.

Definition finite (x : option JsNumber) : bool :=
  match x with Some (Finite _) => true | _ => false end.

Definition positive (x : option JsNumber) : bool :=
  match x with
  | Some (Finite z) => Z.ltb 0 z
  | Some Infinity => true
  | None => false
  end.

(** The usage identifier: the configured one, defaulting to the node's
    name. *)
Definition usage_identifier (this : Command) : string :=
  match CommandConfig.usageName (config this) with
  | Some (String c s) => String c s
  | _ => name this
  end.

(** The gating of an invocation, for the user record if there is one. *)
Definition specified_gating (env : Env) (this : Command) (user : option UserData.t)
    (options : gmap string string) : Eff (option Message) :=
  match user with
  | None => ([], Ok None)
  | Some u =>
      if exceeds (CommandConfig.authority (config this)) u
         || existsb (λ option, supplied options option
                               && Z.ltb (UserData.authority u) (CommandOption.authority option))
                    (_options this)
      then ([], Ok (Some LOW_AUTHORITY))
      else if existsb (λ option, supplied options option && CommandOption.notUsage option)
                      (_options this)
      then ([], Ok None)
      else
        let maxUsage := effective (CommandConfig.maxUsage (config this)) u in
        let minInterval := effective (CommandConfig.minInterval (config this)) u in
        if finite maxUsage || positive minInterval then
          ([UpdateUsage (usage_identifier this) u maxUsage minInterval],
           Ok (updateUsage env (usage_identifier this) u maxUsage minInterval))
        else ([], Ok None)
  end.

(** The user fields an invocation needs: the
    declared ones, [authority] when a threshold above 0 is reachable, and
    [usage] when a threshold given as a number is, unless a present option
    is marked notUsage. *)
Definition specified_fields (command : Command) (options : gmap string string) : gset string :=
  _userFields command
  ∪ (if match CommandConfig.authority (config command) with
        | Some a => Z.ltb 0 a
        | None => false
        end
        || existsb (λ option, supplied options option
                              && Z.ltb 0 (CommandOption.authority option))
                   (_options command)
     then {["authority"]} else ∅)
  ∪ (if (match CommandConfig.maxUsage (config command) with
         | Some (Value (Finite _)) => true
         | _ => false
         end
         || match CommandConfig.minInterval (config command) with
            | Some (Value (Finite z)) => Z.ltb 0 z
            | Some (Value Infinity) => true
            | _ => false
            end)
        && negb (existsb (λ option, supplied options option && CommandOption.notUsage option)
                         (_options command))
     then {["usage"]} else ∅).



(** An option [--force] that asks for authority 2 and is not counted as
    usage, and a command that has it. *)
Definition force_option : CommandOption.t :=
  {| CommandOption.rawName := "--force"; CommandOption.longest := "force";
     CommandOption.names := ["force"]; CommandOption.camels := ["force"];
     CommandOption.required := false; CommandOption.authority := 2;
     CommandOption.notUsage := true |}.

Definition force_command : Command :=
  {| name := "clean"; declaration := ""; context := user12_ctx;
     config := CommandConfig.assign sample_config
       {| CommandConfig.checkUnknown := None; CommandConfig.checkRequired := None;
          CommandConfig.checkArgCount := None; CommandConfig.usageName := None;
          CommandConfig.description := None; CommandConfig.authority := None;
          CommandConfig.disable := None; CommandConfig.maxUsage := Some (Value (Finite 3));
          CommandConfig.minInterval := None; CommandConfig.showWarning := None |};
     children := []; parent := None; _aliases := ["clean"];
     _options := [force_option];
     _userFields := {["name"]}; _argsDef := []; _action := Some (λ _, false) |}.

(** * Properties *)

(** ** The Result monad *)

Lemma bind_Ok_inv {A B : Type} (m : Result A) (f : A → Result B) (b : B) :
  (m ≫= f) = Ok b → ∃ a, m = Ok a ∧ f a = Ok b.
Proof. destruct m as [a|e]; [eauto | discriminate]. Qed.

(** ** The set helpers *)

Lemma includes_true l x : Utils.includes l x = true ↔ x ∈ l.
Proof. unfold Utils.includes. apply bool_decide_eq_true. Qed.

Lemma includes_union a b x :
  Utils.includes (Utils.union a b) x = Utils.includes a x || Utils.includes b x.
Proof.
  apply eq_true_iff_eq. rewrite orb_true_iff, !includes_true.
  unfold Utils.union. apply list_elem_of_union.
Qed.

Lemma includes_intersection a b x :
  Utils.includes (Utils.intersection a b) x = Utils.includes a x && Utils.includes b x.
Proof.
  apply eq_true_iff_eq. rewrite andb_true_iff, !includes_true.
  unfold Utils.intersection. apply list_elem_of_intersection.
Qed.

Lemma includes_difference a b x :
  Utils.includes (Utils.difference a b) x = Utils.includes a x && negb (Utils.includes b x).
Proof.
  apply eq_true_iff_eq. rewrite andb_true_iff, negb_true_iff, !includes_true.
  rewrite <- not_true_iff_false, includes_true.
  unfold Utils.difference. apply list_elem_of_difference.
Qed.

Lemma contain_spec a b : Utils.contain a b = true ↔ ∀ x, x ∈ a → x ∈ b.
Proof.
  unfold Utils.contain. rewrite forallb_forall. split.
  - intros H x Hx. apply includes_true, H, list_elem_of_In, Hx.
  - intros H x Hx. apply includes_true, H, list_elem_of_In, Hx.
Qed.

Lemma contain_rev_spec a b : Utils.contain_rev a b = true ↔ ∀ x, x ∈ b → x ∈ a.
Proof. apply (contain_spec b a). Qed.

(** ** Scopes of three entries *)

Lemma valid_scope_inv scope :
  valid_scope scope = true →
  ∃ s0 s1 s2, scope = [s0; s1; s2] ∧
    valid_subscope s0 = true ∧ valid_subscope s1 = true ∧ valid_subscope s2 = true.
Proof.
  unfold valid_scope. intros H. apply andb_true_iff in H as [Hlen Hall].
  destruct scope as [|s0 [|s1 [|s2 [|s3 scope]]]]; try discriminate.
  simpl in Hall. rewrite !andb_true_iff in Hall.
  exists s0, s1, s2. tauto.
Qed.

Lemma stringify_entry_ok s index :
  valid_subscope s = true → ∃ segment, ContextScope.stringify_entry s index = Ok segment.
Proof.
  destruct s as [[include|] [exclude|]]; simpl; intros H; try discriminate; eauto.
Qed.

Lemma stringify_ok scope :
  valid_scope scope = true → ∃ identifier, ContextScope.stringify scope = Ok identifier.
Proof.
  intros H. apply valid_scope_inv in H as (s0 & s1 & s2 & -> & H0 & H1 & H2).
  unfold ContextScope.stringify, map_index. simpl.
  destruct (stringify_entry_ok s0 0 H0) as [g0 ->].
  destruct (stringify_entry_ok s1 1 H1) as [g1 ->].
  destruct (stringify_entry_ok s2 2 H2) as [g2 ->].
  simpl. eauto.
Qed.

Lemma createContext_ok scope :
  valid_scope scope = true → ∃ ctx, _createContext scope = Ok ctx ∧ _scope ctx = scope.
Proof.
  intros H. destruct (stringify_ok scope H) as [identifier Hid].
  unfold _createContext. rewrite Hid. simpl. eauto.
Qed.

Lemma match_valid ctx meta :
  valid ctx = true → Context.match_ ctx meta = Ok (matches (_scope ctx) meta).
Proof.
  unfold valid. intros H.
  apply valid_scope_inv in H as (s0 & s1 & s2 & Hs & H0 & H1 & H2).
  unfold Context.match_, entry_at, matches. rewrite Hs.
  destruct meta as [[] id]; simpl;
    [ destruct s0 as [[?|] [?|]] | destruct s1 as [[?|] [?|]] | destruct s2 as [[?|] [?|]] ];
    simpl in *; try discriminate; reflexivity.
Qed.

(** Each callback, on readable entries: it returns, the result is readable,
    and it lets through what the operation says. *)

Lemma inverse_entry_spec s index :
  valid_subscope s = true →
  ∃ r, Context.inverse_entry s index = Ok r ∧ valid_subscope r = true ∧
       ∀ id, entry_matches r id = negb (entry_matches s id).
Proof.
  destruct s as [[include|] [exclude|]]; simpl; intros H; try discriminate;
    eexists; (split; [reflexivity|]); (split; [reflexivity|]);
    intros id; simpl; try rewrite negb_involutive; reflexivity.
Qed.

Lemma plus_entry_spec ctx s t index :
  entry_at ctx index = Ok t → valid_subscope s = true → valid_subscope t = true →
  ∃ r, Context.plus_entry ctx s index = Ok r ∧ valid_subscope r = true ∧
       ∀ id, entry_matches r id = entry_matches s id || entry_matches t id.
Proof.
  intros Ht Hs Hv. unfold Context.plus_entry.
  destruct s as [[include1|] [exclude1|]]; try discriminate; rewrite Ht;
    destruct t as [[include2|] [exclude2|]]; try discriminate; simpl;
    eexists; (split; [reflexivity|]); (split; [reflexivity|]);
    intros id; simpl;
    rewrite ?includes_union, ?includes_difference, ?includes_intersection;
    repeat match goal with |- context [Utils.includes ?l id] =>
      destruct (Utils.includes l id) end; reflexivity.
Qed.

Lemma intersect_entry_spec ctx s t index :
  entry_at ctx index = Ok t → valid_subscope s = true → valid_subscope t = true →
  ∃ r, Context.intersect_entry ctx s index = Ok r ∧ valid_subscope r = true ∧
       ∀ id, entry_matches r id = entry_matches s id && entry_matches t id.
Proof.
  intros Ht Hs Hv. unfold Context.intersect_entry.
  destruct s as [[include1|] [exclude1|]]; try discriminate; rewrite Ht;
    destruct t as [[include2|] [exclude2|]]; try discriminate; simpl;
    eexists; (split; [reflexivity|]); (split; [reflexivity|]);
    intros id; simpl;
    rewrite ?includes_union, ?includes_difference, ?includes_intersection;
    repeat match goal with |- context [Utils.includes ?l id] =>
      destruct (Utils.includes l id) end; reflexivity.
Qed.

Lemma minus_entry_spec ctx s t index :
  entry_at ctx index = Ok t → valid_subscope s = true → valid_subscope t = true →
  ∃ r, Context.minus_entry ctx s index = Ok r ∧ valid_subscope r = true ∧
       ∀ id, entry_matches r id = entry_matches s id && negb (entry_matches t id).
Proof.
  intros Ht Hs Hv. unfold Context.minus_entry.
  destruct s as [[include1|] [exclude1|]]; try discriminate; rewrite Ht;
    destruct t as [[include2|] [exclude2|]]; try discriminate; simpl;
    eexists; (split; [reflexivity|]); (split; [reflexivity|]);
    intros id; simpl;
    rewrite ?includes_union, ?includes_difference, ?includes_intersection;
    repeat match goal with |- context [Utils.includes ?l id] =>
      destruct (Utils.includes l id) end; reflexivity.
Qed.

(** Lifting a binary callback to [map] over the three entries. *)

Section Lift.
Variable f : Context → Subscope → nat → Result Subscope.
Variable op : bool → bool → bool.
Hypothesis f_spec : ∀ ctx s t index,
  entry_at ctx index = Ok t → valid_subscope s = true → valid_subscope t = true →
  ∃ r, f ctx s index = Ok r ∧ valid_subscope r = true ∧
       ∀ id, entry_matches r id = op (entry_matches s id) (entry_matches t id).

Lemma binary_lift a b :
  valid a = true → valid b = true →
  ∃ c, (map_index (f b) (_scope a) ≫= _createContext) = Ok c ∧ valid c = true ∧
       ∀ meta, matches (_scope c) meta = op (matches (_scope a) meta) (matches (_scope b) meta).
Proof.
  unfold valid. intros Ha Hb.
  apply valid_scope_inv in Ha as (s0 & s1 & s2 & Hsa & Hs0 & Hs1 & Hs2).
  apply valid_scope_inv in Hb as (t0 & t1 & t2 & Hsb & Ht0 & Ht1 & Ht2).
  rewrite Hsa. unfold map_index. simpl.
  destruct (f_spec b s0 t0 0) as (r0 & -> & Hr0 & M0); auto.
  { unfold entry_at. rewrite Hsb. reflexivity. }
  destruct (f_spec b s1 t1 1) as (r1 & -> & Hr1 & M1); auto.
  { unfold entry_at. rewrite Hsb. reflexivity. }
  destruct (f_spec b s2 t2 2) as (r2 & -> & Hr2 & M2); auto.
  { unfold entry_at. rewrite Hsb. reflexivity. }
  simpl.
  destruct (createContext_ok [r0; r1; r2]) as (c & -> & Hc).
  { unfold valid_scope. simpl. rewrite Hr0, Hr1, Hr2. reflexivity. }
  exists c. split; [reflexivity|]. rewrite Hc, Hsb. split.
  - unfold valid_scope. simpl. rewrite Hr0, Hr1, Hr2. reflexivity.
  - intros [[] id]; unfold matches; simpl; auto.
Qed.
End Lift.

Lemma plus_spec a b :
  valid a = true → valid b = true →
  ∃ c, Context.plus a b = Ok c ∧ valid c = true ∧
       ∀ meta, matches (_scope c) meta = matches (_scope a) meta || matches (_scope b) meta.
Proof. apply (binary_lift Context.plus_entry orb plus_entry_spec). Qed.

Lemma intersect_spec a b :
  valid a = true → valid b = true →
  ∃ c, Context.intersect a b = Ok c ∧ valid c = true ∧
       ∀ meta, matches (_scope c) meta = matches (_scope a) meta && matches (_scope b) meta.
Proof. apply (binary_lift Context.intersect_entry andb intersect_entry_spec). Qed.

Lemma minus_spec a b :
  valid a = true → valid b = true →
  ∃ c, Context.minus a b = Ok c ∧ valid c = true ∧
       ∀ meta, matches (_scope c) meta = matches (_scope a) meta && negb (matches (_scope b) meta).
Proof.
  apply (binary_lift Context.minus_entry (λ x y, x && negb y) minus_entry_spec).
Qed.

Lemma inverse_spec a :
  valid a = true →
  ∃ c, Context.inverse a = Ok c ∧ valid c = true ∧
       ∀ meta, matches (_scope c) meta = negb (matches (_scope a) meta).
Proof.
  unfold valid. intros Ha.
  apply valid_scope_inv in Ha as (s0 & s1 & s2 & Hsa & Hs0 & Hs1 & Hs2).
  unfold Context.inverse, map_index. rewrite Hsa. simpl.
  destruct (inverse_entry_spec s0 0 Hs0) as (r0 & -> & Hr0 & M0).
  destruct (inverse_entry_spec s1 1 Hs1) as (r1 & -> & Hr1 & M1).
  destruct (inverse_entry_spec s2 2 Hs2) as (r2 & -> & Hr2 & M2).
  simpl.
  destruct (createContext_ok [r0; r1; r2]) as (c & -> & Hc).
  { unfold valid_scope. simpl. rewrite Hr0, Hr1, Hr2. reflexivity. }
  exists c. split; [reflexivity|]. rewrite Hc. split.
  - unfold valid_scope. simpl. rewrite Hr0, Hr1, Hr2. reflexivity.
  - intros [[] id]; unfold matches; simpl; auto.
Qed.

(** C1. For Contexts [a] and [b] (one readable Subscope per identity
    type) and every event identity [x]: [a.intersect(b)], [a.plus(b)] and
    [a.inverse()] return Contexts, and matching [x] against them gives
    [a.match(x) && b.match(x)], [a.match(x) || b.match(x)] and
    [!a.match(x)]. *)
Theorem algebra_match (a b : Context) (x : Meta) :
  valid a = true → valid b = true →
  ∃ ma mb,
    Context.match_ a x = Ok ma ∧ Context.match_ b x = Ok mb ∧
    (Context.intersect a b ≫= λ c, Context.match_ c x) = Ok (ma && mb) ∧
    (Context.plus a b ≫= λ c, Context.match_ c x) = Ok (ma || mb) ∧
    (Context.inverse a ≫= λ c, Context.match_ c x) = Ok (negb ma).
Proof.
  intros Ha Hb.
  exists (matches (_scope a) x), (matches (_scope b) x).
  rewrite !match_valid by assumption.
  destruct (intersect_spec a b Ha Hb) as (ci & -> & Hci & Mi).
  destruct (plus_spec a b Ha Hb) as (cp & -> & Hcp & Mp).
  destruct (inverse_spec a Ha) as (cn & -> & Hcn & Mn).
  simpl. rewrite !match_valid by assumption.
  rewrite Mi, Mp, Mn. auto.
Qed.

Lemma algebra_match_witness :
  ∃ ma mb,
    Context.match_ user12_ctx user1_meta = Ok ma ∧
    Context.match_ not_user1_ctx user1_meta = Ok mb ∧
    (Context.intersect user12_ctx not_user1_ctx ≫= λ c, Context.match_ c user1_meta) = Ok (ma && mb) ∧
    (Context.plus user12_ctx not_user1_ctx ≫= λ c, Context.match_ c user1_meta) = Ok (ma || mb) ∧
    (Context.inverse user12_ctx ≫= λ c, Context.match_ c user1_meta) = Ok (negb ma).
Proof.
  apply (algebra_match user12_ctx not_user1_ctx user1_meta); reflexivity.
Defined.

(** ** Containment *)

Section Contain.
Variable contain_ids : list Z → list Z → bool.
Hypothesis contain_ids_spec :
  ∀ a b, contain_ids a b = true ↔ ∀ id, id ∈ b → id ∈ a.

Lemma contain_entry_sound ctx s t index id :
  entry_at ctx index = Ok t → valid_subscope s = true → valid_subscope t = true →
  Context.contain_entry contain_ids ctx s index = Ok true →
  entry_matches t id = true → entry_matches s id = true.
Proof using contain_ids_spec.
  intros Ht Hs Hv. unfold Context.contain_entry.
  destruct s as [[include1|] [exclude1|]]; try discriminate; rewrite Ht;
    destruct t as [[include2|] [exclude2|]]; try discriminate; simpl;
    intros [= Hc]; try discriminate;
    rewrite ?negb_true_iff, <- ?not_true_iff_false, ?includes_true.
  all: try (pose proof (proj1 (contain_ids_spec _ _) Hc) as Hsub;
            first [ now auto | intros Hn Hin; apply Hn; now auto ]).
  all: try (intros Hin Hex; apply Nat.eqb_eq, nil_length_inv in Hc;
            assert (Hi : id ∈ Utils.intersection include2 exclude1)
              by (apply list_elem_of_intersection; auto);
            rewrite Hc in Hi; now apply not_elem_of_nil in Hi).
Qed.

Lemma contain_sound a b :
  valid a = true → valid b = true → Context.contain contain_ids a b = Ok true →
  ∀ meta, matches (_scope b) meta = true → matches (_scope a) meta = true.
Proof using contain_ids_spec.
  unfold valid. intros Ha Hb.
  apply valid_scope_inv in Ha as (s0 & s1 & s2 & Hsa & Hs0 & Hs1 & Hs2).
  apply valid_scope_inv in Hb as (t0 & t1 & t2 & Hsb & Ht0 & Ht1 & Ht2).
  assert (E0 : entry_at b 0 = Ok t0) by (unfold entry_at; now rewrite Hsb).
  assert (E1 : entry_at b 1 = Ok t1) by (unfold entry_at; now rewrite Hsb).
  assert (E2 : entry_at b 2 = Ok t2) by (unfold entry_at; now rewrite Hsb).
  unfold Context.contain, every_index. rewrite Hsa, Hsb. simpl. intros H.
  apply bind_Ok_inv in H as ([] & C0 & H); [|discriminate].
  apply bind_Ok_inv in H as ([] & C1 & H); [|discriminate].
  apply bind_Ok_inv in H as ([] & C2 & H); [|discriminate].
  intros [[] id]; unfold matches; simpl;
    eauto using contain_entry_sound.
Qed.
End Contain.

(** C2, as amended. If [a.contain(b)] returns true then every event
    identity matched by [b] is matched by [a], when the helper
    [contain(l1, l2)] over id collections holds iff every id of [l2] is in
    [l1]. *)
Theorem contain_implies_match (contain_ids : list Z → list Z → bool)
    (a b : Context) (x : Meta) :
  (∀ l1 l2, contain_ids l1 l2 = true ↔ ∀ id, id ∈ l2 → id ∈ l1) →
  valid a = true → valid b = true →
  Context.contain contain_ids a b = Ok true →
  Context.match_ b x = Ok true → Context.match_ a x = Ok true.
Proof.
  intros Hspec Ha Hb Hc. rewrite !match_valid by assumption.
  intros [= Hm]. f_equal. eapply contain_sound; eauto.
Qed.

Lemma contain_implies_match_witness :
  Context.contain Utils.contain_rev user12_ctx user1_ctx = Ok true ∧
  Context.match_ user1_ctx user1_meta = Ok true ∧
  Context.match_ user12_ctx user1_meta = Ok true.
Proof.
  split; [reflexivity|]. split; [reflexivity|].
  apply (contain_implies_match Utils.contain_rev user12_ctx user1_ctx user1_meta).
  - apply contain_rev_spec.
  - reflexivity.
  - reflexivity.
  - reflexivity.
  - reflexivity.
Defined.

(** C2, as worded, fails: with the helper that holds iff every id of its
    first collection is in its second, the Context that matches nothing
    contains the Context of user 1. *)
Lemma contain_as_worded_counterexample :
  (∀ l1 l2, Utils.contain l1 l2 = true ↔ ∀ id, id ∈ l1 → id ∈ l2) ∧
  valid noop_ctx = true ∧ valid user1_ctx = true ∧
  Context.contain Utils.contain noop_ctx user1_ctx = Ok true ∧
  Context.match_ user1_ctx user1_meta = Ok true ∧
  Context.match_ noop_ctx user1_meta = Ok false.
Proof.
  split; [apply contain_spec|]. repeat split.
Qed.

(** ** The include/exclude invariant *)

Lemma plus_entry_exactly_one ctx s index r :
  Context.plus_entry ctx s index = Ok r → exactly_one r = true.
Proof.
  unfold Context.plus_entry, entry_at. destruct s as [[?|] [?|]];
    destruct (_scope ctx !! index) as [[[?|] [?|]]|]; simpl;
    intros [= <-]; reflexivity.
Qed.

Lemma minus_entry_exactly_one ctx s index r :
  Context.minus_entry ctx s index = Ok r → exactly_one r = true.
Proof.
  unfold Context.minus_entry, entry_at. destruct s as [[?|] [?|]];
    destruct (_scope ctx !! index) as [[[?|] [?|]]|]; simpl;
    intros [= <-]; reflexivity.
Qed.

Lemma intersect_entry_exactly_one ctx s index r :
  Context.intersect_entry ctx s index = Ok r → exactly_one r = true.
Proof.
  unfold Context.intersect_entry, entry_at. destruct s as [[?|] [?|]];
    destruct (_scope ctx !! index) as [[[?|] [?|]]|]; simpl;
    intros [= <-]; reflexivity.
Qed.

Lemma map_from_Forall {A B : Type} (f : A → nat → Result B) (P : B → Prop) :
  (∀ x i y, f x i = Ok y → P y) →
  ∀ l i ys, map_from f i l = Ok ys → Forall P ys.
Proof.
  intros Hf l. induction l as [|x l IH]; simpl; intros i ys H.
  - injection H as <-. constructor.
  - apply bind_Ok_inv in H as (y & Hy & H).
    apply bind_Ok_inv in H as (ys' & Hys & H).
    injection H as <-. constructor; eauto.
Qed.

Lemma createContext_scope scope c : _createContext scope = Ok c → _scope c = scope.
Proof.
  unfold _createContext. intros H.
  apply bind_Ok_inv in H as (identifier & _ & H). now injection H as <-.
Qed.

(** The binary operations keep the invariant, on whatever they return. *)
Lemma binary_exactly_one a b c :
  Context.plus a b = Ok c ∨ Context.minus a b = Ok c ∨ Context.intersect a b = Ok c →
  Forall (λ s, exactly_one s = true) (_scope c).
Proof.
  intros [H | [H | H]]; apply bind_Ok_inv in H as (scope & Hm & Hc);
    rewrite (createContext_scope _ _ Hc);
    eapply map_from_Forall; try apply Hm; simpl;
    eauto using plus_entry_exactly_one, minus_entry_exactly_one, intersect_entry_exactly_one.
Qed.

(** So does [inverse] on an include list. *)
Lemma inverse_entry_include include exclude index :
  Context.inverse_entry (Some include, exclude) index = Ok (None, Some include).
Proof. reflexivity. Qed.

(** C4. [inverse] breaks the invariant on an exclude list: the Context
    of everyone but user 1 has exactly one list per identity type, and its
    inverse has both an include and an exclude list for users. *)
Theorem inverse_exclude_both_lists :
  forallb exactly_one (_scope not_user1_ctx) = true ∧
  Context.inverse not_user1_ctx =
    Ok {| identifier := "+user:1;-group:;-discuss:";
          _scope := [(Some [1%Z], Some []); (None, Some []); (None, Some [])] |} ∧
  exactly_one (Some [1%Z], Some []) = false.
Proof. repeat split. Qed.

(** ** Strings: join, split, printed numbers *)

Lemma all_chars_app P s t : all_chars P (s +:+ t) = all_chars P s && all_chars P t.
Proof.
  induction s as [|c s IH]; simpl; [reflexivity|].
  rewrite IH. apply andb_assoc.
Qed.

Lemma all_chars_impl (P Q : ascii → bool) s :
  (∀ c, P c = true → Q c = true) → all_chars P s = true → all_chars Q s = true.
Proof.
  intros HPQ. induction s as [|c s IH]; simpl; [reflexivity|].
  rewrite !andb_true_iff. intros [Hc Hs]. auto.
Qed.

Lemma split_no_sep sep s :
  all_chars (λ c, negb (Ascii.eqb c sep)) s = true → split sep s = [s].
Proof.
  induction s as [|c s IH]; simpl; [reflexivity|].
  rewrite andb_true_iff, negb_true_iff. intros [-> Hs].
  rewrite (IH Hs). reflexivity.
Qed.

Lemma split_app_sep sep s t :
  all_chars (λ c, negb (Ascii.eqb c sep)) s = true →
  split sep (s +:+ String sep t) = s :: split sep t.
Proof.
  induction s as [|c s IH]; simpl.
  - intros _. rewrite Ascii.eqb_refl. reflexivity.
  - rewrite andb_true_iff, negb_true_iff. intros [-> Hs].
    rewrite (IH Hs). reflexivity.
Qed.

Lemma split_join sep l :
  l ≠ [] →
  Forall (λ s, all_chars (λ c, negb (Ascii.eqb c sep)) s = true) l →
  split sep (join (String sep "") l) = l.
Proof.
  induction l as [|s l IH]; [congruence|]. intros _ Hall.
  apply Forall_cons in Hall as [Hs Hl].
  destruct l as [|s' l]; simpl.
  - apply split_no_sep, Hs.
  - change (String sep "" +:+ ?t) with (String sep t).
    rewrite split_app_sep by assumption. f_equal. apply IH; [congruence | assumption].
Qed.

Lemma all_chars_join P sep l :
  all_chars P sep = true → Forall (λ s, all_chars P s = true) l →
  all_chars P (join sep l) = true.
Proof.
  intros Hsep. induction l as [|s l IH]; [reflexivity|]. intros Hall.
  apply Forall_cons in Hall as [Hs Hl].
  destruct l as [|s' l]; [exact Hs|].
  change (join sep (s :: s' :: l)) with (s +:+ sep +:+ join sep (s' :: l)).
  rewrite !all_chars_app, Hs, Hsep, (IH Hl). reflexivity.
Qed.

Lemma string_of_uint_digits d : all_chars is_digit (NilEmpty.string_of_uint d) = true.
Proof. induction d; simpl; auto. Qed.

Lemma number_to_string_chars n : all_chars is_number_char (number_to_string n) = true.
Proof.
  assert (Hu : ∀ d, all_chars is_number_char (NilZero.string_of_uint d) = true).
  { intros d. apply all_chars_impl with (P := is_digit).
    - intros c Hc. unfold is_number_char. now rewrite Hc.
    - destruct d; try apply (string_of_uint_digits (_ _)); reflexivity. }
  unfold number_to_string. destruct (Z.to_int n); simpl; auto.
Qed.

Lemma number_to_string_nonempty n : number_to_string n ≠ "".
Proof.
  unfold number_to_string. destruct (Z.to_int n) as [d|d]; simpl; [|discriminate].
  destruct d; discriminate.
Qed.

Lemma string_to_number_to_string n : string_to_number (number_to_string n) = Some n.
Proof.
  unfold string_to_number, number_to_string.
  rewrite NilZero.isi.
  - simpl. f_equal. apply DecimalZ.of_to.
  - destruct n; simpl; try discriminate.
    intros [= H]. now apply DecimalPos.Unsigned.to_uint_nonnil in H.
  - destruct n; simpl; try discriminate.
    intros [= H]. now apply DecimalPos.Unsigned.to_uint_nonnil in H.
Qed.

Lemma to_numbers_printed l :
  ContextScope.to_numbers (number_to_string <$> l) = Ok l.
Proof.
  induction l as [|n l IH]; [reflexivity|].
  rewrite fmap_cons. cbn [ContextScope.to_numbers].
  rewrite string_to_number_to_string, IH. reflexivity.
Qed.

(** ** Segments of an identifier *)

Lemma printed_chars l : all_chars is_list_char (printed l) = true.
Proof.
  apply all_chars_join; [reflexivity|].
  apply Forall_fmap, Forall_forall. intros n _. simpl.
  apply all_chars_impl with (P := is_number_char); [|apply number_to_string_chars].
  intros c Hc. unfold is_list_char. now rewrite Hc.
Qed.

Lemma printed_nonempty l : l ≠ [] → ∃ c s, printed l = String c s.
Proof.
  destruct l as [|n l]; [congruence|]. intros _. unfold printed.
  rewrite fmap_cons. pose proof (number_to_string_nonempty n) as Hn.
  destruct (number_to_string n) as [|c s] eqn:E; [congruence|].
  destruct (number_to_string <$> l); simpl; eauto.
Qed.

Lemma split_printed l : l ≠ [] → split "," (printed l) = number_to_string <$> l.
Proof.
  intros Hl. apply (split_join ","%char).
  - destruct l; [congruence | discriminate].
  - apply Forall_fmap, Forall_forall. intros n _. simpl.
    apply all_chars_impl with (P := is_number_char); [|apply number_to_string_chars].
    intros c. unfold is_number_char, is_digit.
    destruct (Ascii.eqb_spec c ","%char) as [->|]; [discriminate | reflexivity].
Qed.

Lemma list_char_not_terminator s :
  all_chars is_list_char s = true → ContextScope.no_line_terminator s = true.
Proof.
  induction s as [|c s IH]; simpl; [reflexivity|].
  rewrite !andb_true_iff. intros [Hc Hs]. split; [|auto].
  unfold ContextScope.is_line_terminator.
  destruct (Ascii.eqb_spec c "010"%char) as [->|]; [discriminate|].
  destruct (Ascii.eqb_spec c "013"%char) as [->|]; [discriminate | reflexivity].
Qed.

Lemma exec_segment_of sign type l :
  l ≠ [] → ContextScope.exec_segment (segment_of sign type l) = Some (sign, type, printed l).
Proof.
  intros Hl. destruct (printed_nonempty l Hl) as (c & s & E).
  pose proof (list_char_not_terminator _ (printed_chars l)) as Hterm.
  unfold segment_of. rewrite E in *.
  destruct sign, type; cbv -[ContextScope.no_line_terminator]; rewrite Hterm; reflexivity.
Qed.

Lemma parse_segment_of scope sign type l :
  l ≠ [] →
  ContextScope.parse_segment scope (segment_of sign type l) =
    Ok (<[contextTypes_index type := if sign then (Some l, None) else (None, Some l)]> scope).
Proof.
  intros Hl. unfold ContextScope.parse_segment.
  rewrite exec_segment_of, split_printed, to_numbers_printed by assumption.
  reflexivity.
Qed.

Lemma segment_of_no_semicolon sign type l :
  all_chars (λ c, negb (Ascii.eqb c ";")) (segment_of sign type l) = true.
Proof.
  unfold segment_of. rewrite !all_chars_app.
  assert (all_chars (λ c, negb (Ascii.eqb c ";")) (printed l) = true) as ->.
  { apply all_chars_impl with (P := is_list_char); [|apply printed_chars].
    intros c. destruct (Ascii.eqb_spec c ";"%char) as [->|]; [discriminate | reflexivity]. }
  destruct sign, type; reflexivity.
Qed.

Lemma segment_of_nonempty sign type l : segment_of sign type l ≠ "".
Proof. destruct sign; discriminate. Qed.

Lemma stringify_entry_has_ids s type :
  has_ids s = true →
  ∃ sign l, l ≠ [] ∧
    list_in_use s = (if sign : bool then (Some l, None) else (None, Some l)) ∧
    ContextScope.stringify_entry s (contextTypes_index type) = Ok (segment_of sign type l).
Proof.
  destruct s as [[[|n include]|] [[|m exclude]|]]; simpl; try discriminate; intros _.
  1,2,3: exists true, (n :: include); repeat split; congruence.
  exists false, (m :: exclude); repeat split; congruence.
Qed.

Lemma has_ids_scope_inv scope :
  has_ids_scope scope = true →
  ∃ s0 s1 s2, scope = [s0; s1; s2] ∧
    has_ids s0 = true ∧ has_ids s1 = true ∧ has_ids s2 = true.
Proof.
  unfold has_ids_scope. intros H. apply andb_true_iff in H as [Hlen Hall].
  destruct scope as [|s0 [|s1 [|s2 [|s3 scope]]]]; try discriminate.
  simpl in Hall. rewrite !andb_true_iff in Hall.
  exists s0, s1, s2. tauto.
Qed.

Lemma stringify_three s0 s1 s2 sg0 l0 sg1 l1 sg2 l2 :
  ContextScope.stringify_entry s0 0 = Ok (segment_of sg0 user l0) →
  ContextScope.stringify_entry s1 1 = Ok (segment_of sg1 group l1) →
  ContextScope.stringify_entry s2 2 = Ok (segment_of sg2 discuss l2) →
  ContextScope.stringify [s0; s1; s2] =
    Ok (join ";" [segment_of sg0 user l0; segment_of sg1 group l1; segment_of sg2 discuss l2]).
Proof.
  intros E0 E1 E2. unfold ContextScope.stringify, map_index. cbn [map_from].
  rewrite E0, E1, E2. cbn [mbind Result_bind result_bind].
  rewrite !filter_cons, filter_nil.
  repeat (destruct (decide _) as [_|Hne];
          [|exfalso; apply Hne, segment_of_nonempty]).
  reflexivity.
Qed.

Lemma stringify_has_ids scope :
  has_ids_scope scope = true →
  ∃ sg0 l0 sg1 l1 sg2 l2,
    l0 ≠ [] ∧ l1 ≠ [] ∧ l2 ≠ [] ∧
    list_in_use <$> scope =
      [ if sg0 : bool then (Some l0, None) else (None, Some l0);
        if sg1 : bool then (Some l1, None) else (None, Some l1);
        if sg2 : bool then (Some l2, None) else (None, Some l2) ] ∧
    ContextScope.stringify scope =
      Ok (join ";" [segment_of sg0 user l0; segment_of sg1 group l1; segment_of sg2 discuss l2]).
Proof.
  intros H. apply has_ids_scope_inv in H as (s0 & s1 & s2 & -> & H0 & H1 & H2).
  destruct (stringify_entry_has_ids s0 user H0) as (sg0 & l0 & N0 & U0 & E0).
  destruct (stringify_entry_has_ids s1 group H1) as (sg1 & l1 & N1 & U1 & E1).
  destruct (stringify_entry_has_ids s2 discuss H2) as (sg2 & l2 & N2 & U2 & E2).
  exists sg0, l0, sg1, l1, sg2, l2. repeat (split; [assumption|]). split.
  - rewrite !fmap_cons, U0, U1, U2. reflexivity.
  - apply stringify_three; assumption.
Qed.

Lemma split_identifier g0 g1 g2 :
  all_chars (λ c, negb (Ascii.eqb c ";")) g0 = true →
  all_chars (λ c, negb (Ascii.eqb c ";")) g1 = true →
  all_chars (λ c, negb (Ascii.eqb c ";")) g2 = true →
  split ";" (join ";" [g0; g1; g2]) = [g0; g1; g2].
Proof.
  intros H0 H1 H2. apply (split_join ";"%char); [discriminate|].
  repeat constructor; assumption.
Qed.

Lemma list_in_use_exactly_one scope :
  forallb exactly_one scope = true → list_in_use <$> scope = scope.
Proof.
  induction scope as [|s scope IH]; [reflexivity|]. cbn [forallb].
  rewrite andb_true_iff. intros [Hs Hall]. rewrite fmap_cons, (IH Hall).
  destruct s as [[?|] [?|]]; try discriminate; reflexivity.
Qed.

(** C3, as amended. For every scope with one Subscope per identity type
    whose list in use holds at least one id: [stringify] returns an
    identifier, [parse] of it succeeds and yields the lists in use (the
    scope itself when each Subscope has exactly one list, by
    [list_in_use_exactly_one]), which stringifies to the same identifier;
    and the identifier enumerates all three identity types, in the order
    user, group, discuss. *)
Theorem parse_stringify (scope : ContextScope) :
  has_ids_scope scope = true →
  ∃ identifier,
    ContextScope.stringify scope = Ok identifier ∧
    ContextScope.parse identifier = Ok (list_in_use <$> scope) ∧
    (ContextScope.parse identifier ≫= ContextScope.stringify) = Ok identifier ∧
    enumerated_types identifier = [Some user; Some group; Some discuss].
Proof.
  intros H.
  destruct (stringify_has_ids scope H)
    as (sg0 & l0 & sg1 & l1 & sg2 & l2 & N0 & N1 & N2 & Hin & Hstr).
  eexists. split; [exact Hstr|].
  assert (Hsplit : split ";"
            (join ";" [segment_of sg0 user l0; segment_of sg1 group l1;
                       segment_of sg2 discuss l2]) =
          [segment_of sg0 user l0; segment_of sg1 group l1; segment_of sg2 discuss l2])
    by (apply split_identifier; apply segment_of_no_semicolon).
  assert (Hparse : ContextScope.parse
            (join ";" [segment_of sg0 user l0; segment_of sg1 group l1;
                       segment_of sg2 discuss l2]) = Ok (list_in_use <$> scope)).
  { unfold ContextScope.parse. rewrite Hsplit. cbn [ContextScope.parse_segments].
    rewrite parse_segment_of by assumption. cbn [mbind Result_bind result_bind].
    rewrite parse_segment_of by assumption. cbn [mbind Result_bind result_bind].
    rewrite parse_segment_of by assumption. cbn [mbind Result_bind result_bind].
    rewrite Hin. reflexivity. }
  split; [exact Hparse|]. split.
  - rewrite Hparse, Hin. cbn [mbind Result_bind result_bind].
    apply stringify_three; [destruct sg0 | destruct sg1 | destruct sg2]; reflexivity.
  - unfold enumerated_types. rewrite Hsplit, !fmap_cons, !exec_segment_of by assumption.
    reflexivity.
Qed.

Lemma parse_stringify_witness :
  ∃ identifier,
    ContextScope.stringify [(Some [1%Z; 2%Z], None); (None, Some [3%Z]); (Some [7%Z], None)]
      = Ok identifier ∧
    ContextScope.parse identifier
      = Ok (list_in_use <$> [(Some [1%Z; 2%Z], None); (None, Some [3%Z]); (Some [7%Z], None)]) ∧
    (ContextScope.parse identifier ≫= ContextScope.stringify) = Ok identifier ∧
    enumerated_types identifier = [Some user; Some group; Some discuss].
Proof.
  apply (parse_stringify [(Some [1%Z; 2%Z], None); (None, Some [3%Z]); (Some [7%Z], None)]).
  reflexivity.
Defined.

(** C3, as worded, fails on the Context that matches nothing, which the
    algebra reaches as [a.minus(a)]: its identifier enumerates the three
    identity types although each has the default Subscope, and [parse]
    rejects that identifier. *)
Lemma parse_stringify_noop_counterexample :
  valid user1_ctx = true ∧
  Context.minus user1_ctx user1_ctx = Ok noop_ctx ∧
  ContextScope.stringify (_scope noop_ctx) = Ok "+user:;+group:;+discuss:" ∧
  ContextScope.parse "+user:;+group:;+discuss:" = Throw INVALID_IDENTIFIER.
Proof. repeat split. Qed.

(** ** Authority and usage gating *)

Lemma check_options_spec user options l isUsage :
  Command.check_options user options l isUsage =
    if existsb (λ option, Command.present options option
                          && Z.ltb (UserData.authority user) (CommandOption.authority option)) l
    then inl LOW_AUTHORITY
    else inr (isUsage
              && negb (existsb (λ option, Command.present options option
                                          && CommandOption.notUsage option) l)).
Proof.
  revert isUsage. induction l as [|option l IH]; intros isUsage; simpl.
  - now rewrite andb_true_r.
  - destruct (Command.present options option); simpl; [|apply IH].
    destruct (Z.ltb _ _); simpl; [reflexivity|].
    rewrite IH. destruct (existsb _ l); [reflexivity|].
    destruct (CommandOption.notUsage option), isUsage; reflexivity.
Qed.

Lemma checkUser_eq_gating env this meta options :
  Command._checkUser env this meta options = gating env this (meta_user meta) options.
Proof.
  unfold Command._checkUser, gating, low_authority, usage_suppressed, exceeds.
  destruct (meta_user meta) as [u|]; [|reflexivity].
  destruct (CommandConfig.authority (config this)) as [a|]; simpl.
  - destruct (Z.ltb (UserData.authority u) a); simpl; [reflexivity|].
    rewrite check_options_spec. destruct (existsb _ _); [reflexivity|].
    simpl. destruct (existsb _ _); simpl; [reflexivity|].
    destruct (lt_Infinity _ || gt_zero _); reflexivity.
  - rewrite check_options_spec. destruct (existsb _ _); [reflexivity|].
    simpl. destruct (existsb _ _); simpl; [reflexivity|].
    destruct (lt_Infinity _ || gt_zero _); reflexivity.
Qed.

(** Where no name is inherited, the presence test of the code is the
    presence of the specification. *)
Lemma key_of_first_camel option : Command.first_camel option = key_of option.
Proof. unfold Command.first_camel, key_of. now destruct (CommandOption.camels option). Qed.

Lemma present_supplied options option :
  existsb (String.eqb (key_of option)) Object_prototype = false →
  Command.present options option = supplied options option.
Proof.
  intros Hown. unfold Command.present, Command.has_key, supplied, inherited.
  rewrite key_of_first_camel, Hown. apply orb_false_r.
Qed.

Lemma existsb_own_names options (f : CommandOption.t → bool) l :
  forallb (λ option, negb (existsb (String.eqb (key_of option)) Object_prototype)) l = true →
  existsb (λ option, Command.present options option && f option) l
  = existsb (λ option, supplied options option && f option) l.
Proof.
  induction l as [|option l IH]; [reflexivity|].
  cbn [forallb existsb]. rewrite andb_true_iff, negb_true_iff. intros [Hown Hall].
  now rewrite (present_supplied options option Hown), (IH Hall).
Qed.


(** X28. For a command none of whose options goes by a name that every
    object inherits, [_checkUser] is the gating of the specification: no
    user record, no gating; the low-authority message when the node's
    minimum authority, or the threshold of an option that the options
    hold, exceeds the user's level; else nothing when an option that the
    options hold is marked notUsage; else the usage tracker, called with
    the usage identifier (the configured one, or the node's name when none
    or an empty one is configured) and its answer returned, when the
    maxUsage in effect is finite or the minInterval in effect is positive
    (a threshold given as a function evaluated against the user record);
    else nothing. *)
Theorem checkUser_gating (env : Env) (this : Command) (meta : MessageMeta)
    (options : gmap string string) :
  own_names this = true →
  Command._checkUser env this meta options
    = specified_gating env this (meta_user meta) options.
Proof.
  intros Hown. rewrite checkUser_eq_gating.
  unfold gating, specified_gating, low_authority, usage_suppressed.
  destruct (meta_user meta) as [u|]; [|reflexivity].
  rewrite !(existsb_own_names options _ _ Hown).
  assert (Heff : ∀ x : option (UserType JsNumber), Command.getConfig x u = effective x u)
    by (intros [[v|f]|]; reflexivity).
  assert (Hid : Command.usageName this = usage_identifier this).
  { unfold Command.usageName, usage_identifier.
    destruct (CommandConfig.usageName (config this)) as [[|c s]|]; reflexivity. }
  rewrite !Heff, Hid. reflexivity.
Qed.

Lemma checkUser_gating_witness :
  Command._checkUser sample_env force_command sample_meta {["force" := "true"]}
    = specified_gating sample_env force_command (Some sample_user) {["force" := "true"]}.
Proof.
  apply (checkUser_gating sample_env force_command sample_meta {["force" := "true"]}).
  reflexivity.
Defined.

(** ** The user fields to fetch *)

Lemma attach_options_spec options l fetchAuthority fetchUsage :
  Command.attach_options options l (fetchAuthority, fetchUsage) =
    (fetchAuthority
     || existsb (λ option, Command.present options option
                           && Z.ltb 0 (CommandOption.authority option)) l,
     fetchUsage
     && negb (existsb (λ option, Command.present options option
                                 && CommandOption.notUsage option) l)).
Proof.
  revert fetchAuthority fetchUsage.
  induction l as [|option l IH]; intros fetchAuthority fetchUsage; simpl.
  - now rewrite orb_false_r, andb_true_r.
  - destruct (Command.present options option); simpl; [|apply IH].
    rewrite IH.
    destruct (Z.ltb 0 _), (CommandOption.notUsage option), fetchAuthority, fetchUsage;
      simpl; rewrite ?orb_true_r, ?andb_false_r; reflexivity.
Qed.

(** The fields after [attachUserFields], with the presence test of the
    code. *)
Lemma attachUserFields_union command options userFields :
  Command.attachUserFields (Some command) options userFields =
    userFields ∪ _userFields command
    ∪ (if authority_reachable command (default ∅ options) then {["authority"]} else ∅)
    ∪ (if usage_reachable command && negb (usage_suppressed command (default ∅ options))
       then {["usage"]} else ∅).
Proof.
  unfold Command.attachUserFields, authority_reachable, usage_reachable, usage_suppressed.
  rewrite attach_options_spec.
  set (declared := userFields ∪ _userFields command).
  set (byOption := existsb _ _).
  set (notUsage := existsb _ _).
  set (direct := match CommandConfig.authority (config command) with
                 | Some a => Z.ltb 0 a | None => false end).
  set (threshold := lt_Infinity _ || gt_zero _).
  destruct (bool_decide_reflect ("authority" ∈ declared)) as [Ha|Ha];
    destruct (bool_decide_reflect ("usage" ∈ declared)) as [Hu|Hu];
    destruct direct, byOption, threshold, notUsage; simpl;
    apply set_eq; intros field; set_unfold; intuition (subst; auto).
Qed.

(** C9, as amended. For a command none of whose options goes by a name
    that every object inherits, the user fields after [attachUserFields]
    are the ones there before, the node's declared ones, [authority] when
    the node's authority or the authority of an option that the options
    hold is above 0, and [usage] when maxUsage is a finite number or
    minInterval a positive number (a threshold given as a per-user
    function does not count) and no option that the options hold is
    marked notUsage; nothing else. *)
Theorem attachUserFields_fields (command : Command) (options : option (gmap string string))
    (userFields : gset string) :
  own_names command = true →
  Command.attachUserFields (Some command) options userFields
    = userFields ∪ specified_fields command (default ∅ options).
Proof.
  intros Hown. rewrite attachUserFields_union.
  unfold specified_fields, authority_reachable, usage_reachable, usage_suppressed.
  rewrite !(existsb_own_names (default ∅ options) _ _ Hown).
  assert (Hmax : lt_Infinity (Command.is_number (CommandConfig.maxUsage (config command)))
                 = match CommandConfig.maxUsage (config command) with
                   | Some (Value (Finite _)) => true
                   | _ => false
                   end)
    by (destruct (CommandConfig.maxUsage (config command)) as [[[]|]|]; reflexivity).
  assert (Hmin : gt_zero (Command.is_number (CommandConfig.minInterval (config command)))
                 = match CommandConfig.minInterval (config command) with
                   | Some (Value (Finite z)) => Z.ltb 0 z
                   | Some (Value Infinity) => true
                   | _ => false
                   end)
    by (destruct (CommandConfig.minInterval (config command)) as [[[]|]|]; reflexivity).
  rewrite Hmax, Hmin.
  apply set_eq; intros field; set_unfold; tauto.
Qed.

Lemma attachUserFields_fields_witness :
  Command.attachUserFields (Some force_command) (Some {["force" := "true"]}) {["id"]}
    = {["id"]} ∪ specified_fields force_command {["force" := "true"]}.
Proof.
  exact (attachUserFields_fields force_command (Some {["force" := "true"]}) {["id"]}
           eq_refl).
Defined.

(** C9, as worded, fails: a usage cap given as a per-user function does
    not make [usage] a field to fetch, although the pipeline evaluates the
    cap and consults the usage tracker. *)
Lemma attachUserFields_per_user_counterexample :
  CommandConfig.maxUsage (config per_user_command) = Some (PerUser (λ _, Finite 5)) ∧
  Command.attachUserFields (Some per_user_command) None ∅ = {["authority"]} ∧
  Command._checkUser sample_env per_user_command sample_meta ∅ =
    ([UpdateUsage "draw" sample_user (Some (Finite 5)) (Some (Finite 0))], Ok None).
Proof.
  split; [reflexivity|]. split; [|reflexivity].
  rewrite attachUserFields_union. vm_compute authority_reachable.
  vm_compute usage_reachable. simpl.
  apply set_eq; intros field; set_unfold; intuition.
Qed.

(** ** The execution pipeline *)

Lemma gating_events env this user options :
  existsb past_checks (fst (gating env this user options)) = false.
Proof.
  unfold gating. destruct user as [u|]; [|reflexivity].
  destruct (low_authority this u options); [reflexivity|].
  destruct (usage_suppressed this options); [reflexivity|].
  simpl. destruct (lt_Infinity _ || gt_zero _); reflexivity.
Qed.

Lemma user_check_inv env this argv events hint :
  run_check env this argv UserCheck = (events, Ok (Some hint)) →
  ∃ message, hint = (message, []) ∧
    Command._checkUser env this (argv_meta argv) (default ∅ (argv_options argv))
      = (events, Ok (Some message)).
Proof.
  unfold run_check.
  destruct (Command._checkUser _ _ _ _) as [evs [[message|]|e]]; simpl;
    intros [= <- <-] || intros [=].
  exists message. now rewrite app_nil_r.
Qed.

Lemma sendHint_events this message param :
  Command._sendHint this message param =
    (if truthy (CommandConfig.showWarning (config this)) then [Send message param] else [],
     Ok ()).
Proof. unfold Command._sendHint. destruct (truthy _); reflexivity. Qed.

(** X27. An execution that the before-command hook handles, or in which a
    check reports a hint after the earlier checks (in the order argument
    count, unknown options, required options, authority and usage) passed,
    returns normally having done this and nothing more: the hook, what the
    failing check itself did, and the hint sent to the conversation when
    showWarning is on.  No later check, hook or action ran. *)
Theorem execute_short_circuits (env : Env) (this : Command) (argv : ParsedCommandLine)
    (a : Abort) :
  aborts env this argv a →
  Command.execute env this argv = (abort_events this a, Ok ()) ∧
  existsb past_checks (abort_events this a) = false.
Proof.
  destruct a as [|stage events [message param]]; simpl.
  - intros H. unfold Command.execute. rewrite H. split; reflexivity.
  - intros (Hhook & Hearlier & Hcheck).
    unfold Command.execute. rewrite Hhook.
    destruct stage; simpl in Hearlier, Hcheck.
    + (* argument count *)
      unfold lift in Hcheck. injection Hcheck as <- Hc. rewrite Hc.
      simpl. rewrite sendHint_events. simpl.
      split; [reflexivity|]. destruct (truthy _); reflexivity.
    + (* unknown options *)
      apply Forall_cons in Hearlier as [H1 _].
      unfold lift in H1. injection H1 as H1. rewrite H1.
      injection Hcheck as <- Hc. simpl. rewrite Hc.
      rewrite sendHint_events. simpl.
      split; [reflexivity|]. destruct (truthy _); reflexivity.
    + (* required options *)
      apply Forall_cons in Hearlier as [H1 Hearlier].
      apply Forall_cons in Hearlier as [H2 _].
      unfold lift in H1. injection H1 as H1. rewrite H1.
      injection H2 as H2. simpl. rewrite H2.
      injection Hcheck as <- Hc. rewrite Hc.
      rewrite sendHint_events. simpl.
      split; [reflexivity|]. destruct (truthy _); reflexivity.
    + (* authority and usage *)
      apply Forall_cons in Hearlier as [H1 Hearlier].
      apply Forall_cons in Hearlier as [H2 Hearlier].
      apply Forall_cons in Hearlier as [H3 _].
      unfold lift in H1. injection H1 as H1. rewrite H1.
      injection H2 as H2. simpl. rewrite H2.
      injection H3 as H3. rewrite H3.
      apply user_check_inv in Hcheck as (m & [= -> ->] & Hc).
      assert (Hev : existsb past_checks events = false).
      { pose proof (gating_events env this (meta_user (argv_meta argv))
                      (default ∅ (argv_options argv))) as G.
        rewrite <- checkUser_eq_gating, Hc in G. exact G. }
      simpl in Hc |- *. rewrite Hc. simpl. rewrite sendHint_events. simpl.
      split; [reflexivity|].
      rewrite existsb_app, Hev. destruct (truthy _); reflexivity.
Qed.

Lemma execute_short_circuits_witness :
  Command.execute sample_env admin_command (argv_of []) =
    ([Serialize "before-command"; Send LOW_AUTHORITY []], Ok ()) ∧
  existsb past_checks [Serialize "before-command"; Send LOW_AUTHORITY []] = false.
Proof.
  apply (execute_short_circuits sample_env admin_command (argv_of [])
           (ByCheck UserCheck [] (LOW_AUTHORITY, []))).
  simpl. split; [reflexivity|]. split; [|reflexivity].
  repeat constructor.
Defined.

(** The pipeline run to its end, for comparison: the action and the
    later hooks are there. *)
Example execute_runs :
  Command.execute sample_env one_arg_command (argv_of ["hello"]) =
    ([Serialize "before-command"; LogDebug "echo"; Parallelize "command"; Action ["hello"];
      Parallelize "after-command"], Ok ()).
Proof. reflexivity. Qed.

(** C5. An execution need not end in one of the ways the pipeline has: for
    a command declared without arguments, with argument counting and
    showWarning on, invoked with one argument, the before-command hook does
    not handle the invocation and the first check, the argument count, does
    not pass, yet no hint is sent and the execution does not return: the
    check throws a TypeError, reading [noSegment] of a final argument that
    is not there.  The execution stops short in neither of the two ways
    ([aborts]) in which the pipeline stops. *)
Theorem execute_check_throws :
  before_command sample_env (Command.with_defaults (argv_of ["extra"])) = false ∧
  truthy (CommandConfig.showWarning (config no_args_command)) = true ∧
  run_check sample_env no_args_command (argv_of ["extra"]) ArgCount = ([], Throw TypeError) ∧
  sends (fst (Command.execute sample_env no_args_command (argv_of ["extra"]))) = [] ∧
  snd (Command.execute sample_env no_args_command (argv_of ["extra"])) = Throw TypeError ∧
  ∀ a, ¬ aborts sample_env no_args_command (argv_of ["extra"]) a.
Proof.
  repeat split.
  intros [|stage events hint]; simpl.
  - discriminate.
  - intros (_ & Hearlier & Hcheck).
    destruct stage; simpl in Hearlier, Hcheck; try discriminate;
      apply Forall_cons in Hearlier as [H _]; discriminate.
Qed.

(** ** Argument counting *)

Lemma check_arg_count_insufficient this args nextArg :
  truthy (CommandConfig.checkArgCount (config this)) = true →
  _argsDef this !! length args = Some nextArg →
  CommandArgument.required nextArg = true →
  Command.check_arg_count this args = Ok (Some (INSUFFICIENT_ARGUMENTS, [])).
Proof.
  intros Hon Hnext Hreq. unfold Command.check_arg_count.
  now rewrite Hon, Hnext, Hreq.
Qed.

Lemma check_arg_count_redundant this args finalArg :
  truthy (CommandConfig.checkArgCount (config this)) = true →
  length (_argsDef this) < length args →
  last (_argsDef this) = Some finalArg →
  CommandArgument.noSegment finalArg = false →
  CommandArgument.variadic finalArg = false →
  Command.check_arg_count this args = Ok (Some (REDUNANT_ARGUMENTS, [])).
Proof.
  intros Hon Hlen Hlast Hseg Hvar. unfold Command.check_arg_count.
  rewrite Hon, Hlast, Hseg, Hvar.
  rewrite (lookup_ge_None_2 (_argsDef this) (length args)) by lia.
  apply Nat.ltb_lt in Hlen. now rewrite Hlen.
Qed.

(** C8. With argument counting on, a command declared without arguments
    and invoked with one does not report redundant arguments: reading
    [noSegment] of the missing final argument throws. *)
Theorem execute_no_declared_args_throws :
  truthy (CommandConfig.checkArgCount (config no_args_command)) = true ∧
  _argsDef no_args_command = [] ∧
  Command.check_arg_count no_args_command ["extra"] = Throw TypeError ∧
  Command.execute sample_env no_args_command (argv_of ["extra"]) =
    ([Serialize "before-command"], Throw TypeError).
Proof. repeat split. Qed.

(** ** The teach plugin *)

(** C10. With no explicit target and in appellative form, the handler
    writes the strict-probability field twice in a row, first from
    [options.probabilityStrict ?? 0], then from
    [options.probabilityAppellative ?? 1]: afterwards [data.probS] is
    [options.probabilityAppellative] when defined and 1 otherwise, and
    [data.probA] is what it was. *)
Theorem appellative_probS_overwritten (flags : Teach.DialogueFlag.t) (options : Teach.Options.t)
    (target : Teach.JsOpt (list Z)) (data : Teach.Dialogue.t) :
  Teach.truthy_object target = false →
  let statements := Teach.before_dialogue_modify flags options target true in
  filter (λ s, Teach.is_prob s = true) statements =
    [ Teach.SetProbS (Teach.nullish_or (Teach.Options.probabilityStrict options) 0%Q);
      Teach.SetProbS (Teach.nullish_or (Teach.Options.probabilityAppellative options) 1%Q) ] ∧
  Teach.Dialogue.probS (Teach.run statements data) =
    Teach.nullish_or (Teach.Options.probabilityAppellative options) 1%Q ∧
  Teach.Dialogue.probA (Teach.run statements data) = Teach.Dialogue.probA data.
Proof.
  intros Htarget statements. subst statements.
  unfold Teach.before_dialogue_modify. rewrite Htarget.
  destruct data.
  destruct (Teach.truthy_string (Teach.Options.answer options)),
           (Teach.truthy_string (Teach.Options.question options)),
           (Teach.is_defined (Teach.Options.keyword options)),
           (Teach.is_defined (Teach.Options.redirect options));
    repeat split.
Qed.

Lemma appellative_probS_overwritten_witness :
  let statements :=
    Teach.before_dialogue_modify Teach.sample_flags Teach.sample_options Teach.undefined true in
  filter (λ s, Teach.is_prob s = true) statements =
    [ Teach.SetProbS (Teach.value (1 # 2)); Teach.SetProbS (Teach.value 1%Q) ] ∧
  Teach.Dialogue.probS (Teach.run statements Teach.sample_data) = Teach.value 1%Q ∧
  Teach.Dialogue.probA (Teach.run statements Teach.sample_data) = Teach.value 0%Q.
Proof.
  apply (appellative_probS_overwritten Teach.sample_flags Teach.sample_options
           Teach.undefined Teach.sample_data).
  reflexivity.
Defined.

(** ** Registration *)

Ltac reg_unfold :=
  unfold mbind, mret, Reg_bind, Reg_ret, reg_bind, reg_lift, reg_get, reg_modify, deref in *.

Lemma registerAlias_throw ref this name app e app' :
  Command._registerAlias ref this name app = (Throw e, app') → app' = app.
Proof.
  unfold Command._registerAlias. reg_unfold.
  repeat case_match; intros; simplify_eq; reflexivity.
Qed.

Lemma constructor_throw parseArguments name declaration context config app e app' :
  Command.constructor parseArguments name declaration context config app = (Throw e, app') →
  app' = app.
Proof.
  unfold Command.constructor. reg_unfold.
  case_match; [intros; simplify_eq; reflexivity|].
  destruct (Command._registerAlias _ _ _ app) as [[this|e'] app1] eqn:Halias.
  - discriminate.
  - intros [= <- <-]. eapply registerAlias_throw, Halias.
Qed.

Lemma segment_name_state parent segment app r app' :
  Context.segment_name parent segment app = (r, app') → app' = app.
Proof.
  unfold Context.segment_name. reg_unfold.
  repeat case_match; intros; simplify_eq; reflexivity.
Qed.

(** With a Subscope to read, [contain] and [intersect] throw on an
    inherited object. *)
Lemma contain_undefined_throws ctx :
  _scope ctx ≠ [] → Context.contain_undefined ctx = Throw TypeError.
Proof.
  unfold Context.contain_undefined, every_index.
  destruct (_scope ctx); [congruence | reflexivity].
Qed.

Lemma intersect_undefined_throws ctx :
  _scope ctx ≠ [] → Context.intersect_undefined ctx = Throw TypeError.
Proof.
  unfold Context.intersect_undefined, map_index.
  destruct (_scope ctx); [congruence | reflexivity].
Qed.

Lemma valid_scope_nonempty ctx : valid ctx = true → _scope ctx ≠ [].
Proof. unfold valid, valid_scope. destruct (_scope ctx); [discriminate | congruence]. Qed.

(** A segment that throws leaves the registry as it found it (under an
    inherited object, for a calling Context with a Subscope to read). *)
Lemma command_segment_throw contain_ids parseArguments this declaration parent segment
    app e app' :
  (∀ key, parent = Some (inherited_object key) → _scope this ≠ []) →
  Context.command_segment contain_ids parseArguments this declaration parent segment app
    = (Throw e, app') →
  app' = app.
Proof.
  intros Hscope. unfold Context.command_segment.
  unfold mbind at 1, Reg_bind at 1, reg_bind at 1.
  destruct (Context.segment_name parent segment app) as [[name|e0] app0] eqn:Hname;
    apply segment_name_state in Hname as ->; [|intros; simplify_eq; reflexivity].
  unfold mbind at 1, Reg_bind at 1, reg_bind at 1, reg_get at 1.
  destruct (look app name) as [[command|key]|].
  - unfold Context.set_parent. reg_unfold.
    repeat case_match; intros; simplify_eq; reflexivity.
  - reg_unfold. repeat case_match; intros; simplify_eq; reflexivity.
  - destruct parent as [[p|key]|].
    + unfold mbind at 1, Reg_bind at 1, reg_bind at 1.
      match goal with |- context [match ?m app with _ => _ end] => set (scoped := m) end.
      assert (Hctx : snd (scoped app) = app).
      { subst scoped. reg_unfold. repeat case_match; simplify_eq; reflexivity. }
      destruct (scoped app) as [[context|e0] app0]; simpl in Hctx; subst app0;
        [|intros; simplify_eq; reflexivity].
      case_match; [unfold reg_lift; intros; simplify_eq; reflexivity|].
      unfold mbind at 1, Reg_bind at 1, reg_bind at 1.
      destruct (Command.constructor _ _ _ _ _ app) as [[command|e0] app0] eqn:Hnew.
      * unfold Context.set_parent. reg_unfold.
        repeat case_match; intros; simplify_eq.
      * intros [= <- <-]. eapply constructor_throw, Hnew.
    + rewrite (intersect_undefined_throws this (Hscope key eq_refl)).
      reg_unfold. intros; simplify_eq; reflexivity.
    + reg_unfold. case_match; [intros; simplify_eq; reflexivity|].
      destruct (Command.constructor _ _ _ _ _ app) as [[command|e0] app0] eqn:Hnew.
      * intros; simplify_eq.
      * intros [= <- <-]. eapply constructor_throw, Hnew.
Qed.

(** What linking a command under a parent changes. *)
Lemma set_parent_spec command parent app c p :
  command ≠ parent →
  _commands app !! command = Some c →
  _commands app !! parent = Some p →
  ∃ app' c' p',
    Context.set_parent command parent app = (Ok (), app') ∧
    _commandMap app' = _commandMap app ∧
    length (_commands app') = length (_commands app) ∧
    _commands app' !! command = Some c' ∧
    parent_of c' = Some parent ∧ context c' = context c ∧ name c' = name c ∧
    _commands app' !! parent = Some p' ∧
    children p' = (children p ++ [command])%list ∧ context p' = context p ∧
    (∀ other, other ≠ command → other ≠ parent →
       _commands app' !! other = _commands app !! other).
Proof.
  intros Hne Hc Hp. unfold Context.set_parent, reg_modify.
  eexists _, _, _. split; [reflexivity|]. cbn [_commands _commandMap].
  split; [reflexivity|]. split; [now rewrite !length_alter|].
  split.
  { rewrite list_lookup_alter_ne by congruence.
    rewrite list_lookup_alter_eq, Hc. reflexivity. }
  split; [reflexivity|]. split; [reflexivity|]. split; [reflexivity|].
  split.
  { rewrite list_lookup_alter_eq, list_lookup_alter_ne, Hp by congruence. reflexivity. }
  split; [reflexivity|]. split; [reflexivity|].
  intros other H1 H2. now rewrite !list_lookup_alter_ne by congruence.
Qed.

Lemma reg_bind_Ok {A B : Type} (m : Reg A) (f : A → Reg B) app a app' :
  m app = (Ok a, app') → (m ≫= f) app = f a app'.
Proof. intros H. unfold mbind, Reg_bind, reg_bind. now rewrite H. Qed.

Lemma reg_bind_Throw {A B : Type} (m : Reg A) (f : A → Reg B) app e app' :
  m app = (Throw e, app') → (m ≫= f) app = (Throw e, app').
Proof. intros H. unfold mbind, Reg_bind, reg_bind. now rewrite H. Qed.

Lemma deref_Some ref app command :
  _commands app !! ref = Some command → deref ref app = (Ok command, app).
Proof. intros H. unfold deref. now rewrite H. Qed.

(** ** The model at work *)

Example noopIdentifier_text : noopIdentifier = "+user:;+group:;+discuss:".
Proof. reflexivity. Qed.

Example stringify_users : ContextScope.stringify (_scope user12_ctx) = Ok (identifier user12_ctx).
Proof. reflexivity. Qed.

Example parse_three_types :
  ContextScope.parse "+user:1,2;-group:3;+discuss:7" =
    Ok [(Some [1%Z; 2%Z], None); (None, Some [3%Z]); (Some [7%Z], None)].
Proof. reflexivity. Qed.

Example parse_one_type :
  ContextScope.parse "-group:3" = Ok [(Some [], None); (None, Some [3%Z]); (Some [], None)].
Proof. reflexivity. Qed.

Example parse_malformed : ContextScope.parse "group:3" = Throw INVALID_IDENTIFIER.
Proof. reflexivity. Qed.

Example split_path_segments : split_path "a.b/c" = ["a"; ".b"; "/c"].
Proof. reflexivity. Qed.

Example register_path :
  let '(result, app) := register user12_ctx "Foo.Bar/baz <x>" None CommandConfig.empty empty_app in
  result = Ok 2 ∧
  (λ c, (name c, declaration c, parent c, children c)) <$> _commands app =
    [("foo", " <x>", None, [1]); ("foo.bar", " <x>", Some 0, [2]); ("baz", " <x>", Some 1, [])].
Proof. vm_compute. split; reflexivity. Qed.

Example execute_insufficient :
  Command.execute sample_env one_arg_command (argv_of []) =
    ([Serialize "before-command"; Send INSUFFICIENT_ARGUMENTS []], Ok ()).
Proof. reflexivity. Qed.

Example execute_redundant :
  Command.execute sample_env one_arg_command (argv_of ["a"; "b"]) =
    ([Serialize "before-command"; Send REDUNANT_ARGUMENTS []], Ok ()).
Proof. reflexivity. Qed.

Example execute_handled :
  Command.execute {| before_command := λ _, true; updateUsage := λ _ _ _ _, None |}
    one_arg_command (argv_of []) = ([Serialize "before-command"], Ok ()).
Proof. reflexivity. Qed.

(** * Further properties *)

(** ** The algebra of Contexts *)

(** X1. For Contexts [a] and [b] and every event identity [x],
    [a.minus(b)] returns a Context that matches [x] exactly when [a]
    matches it and [b] does not. *)
Theorem minus_match (a b : Context) (x : Meta) :
  valid a = true → valid b = true →
  ∃ ma mb,
    Context.match_ a x = Ok ma ∧ Context.match_ b x = Ok mb ∧
    (Context.minus a b ≫= λ c, Context.match_ c x) = Ok (ma && negb mb).
Proof.
  intros Ha Hb. exists (matches (_scope a) x), (matches (_scope b) x).
  rewrite !match_valid by assumption.
  destruct (minus_spec a b Ha Hb) as (c & -> & Hc & M).
  simpl. rewrite match_valid, M by assumption. auto.
Qed.

Lemma minus_match_witness :
  ∃ ma mb,
    Context.match_ user12_ctx user2_meta = Ok ma ∧
    Context.match_ user13_ctx user2_meta = Ok mb ∧
    (Context.minus user12_ctx user13_ctx ≫= λ c, Context.match_ c user2_meta)
      = Ok (ma && negb mb).
Proof. apply (minus_match user12_ctx user13_ctx user2_meta); reflexivity. Defined.

(** X2. The difference is the intersection with the inverse, and the
    inverse of a union is the intersection of the inverses: all four
    Contexts are returned, and they match the same event identities. *)
Theorem algebra_composes (a b : Context) :
  valid a = true → valid b = true →
  ∃ difference through_inverse not_union both_not,
    Context.minus a b = Ok difference ∧
    (Context.inverse b ≫= Context.intersect a) = Ok through_inverse ∧
    (Context.plus a b ≫= Context.inverse) = Ok not_union ∧
    (Context.inverse a ≫= λ na, Context.inverse b ≫= Context.intersect na) = Ok both_not ∧
    ∀ x, Context.match_ difference x = Context.match_ through_inverse x ∧
         Context.match_ not_union x = Context.match_ both_not x.
Proof.
  intros Ha Hb.
  destruct (minus_spec a b Ha Hb) as (d & Hd & Vd & Md).
  destruct (inverse_spec b Hb) as (nb & Hnb & Vnb & Mnb).
  destruct (inverse_spec a Ha) as (na & Hna & Vna & Mna).
  destruct (intersect_spec a nb Ha Vnb) as (t & Ht & Vt & Mt).
  destruct (plus_spec a b Ha Hb) as (u & Hu & Vu & Mu).
  destruct (inverse_spec u Vu) as (nu & Hnu & Vnu & Mnu).
  destruct (intersect_spec na nb Vna Vnb) as (bn & Hbn & Vbn & Mbn).
  exists d, t, nu, bn. rewrite Hd, Hnb, Hu, Hna.
  cbn [mbind Result_bind result_bind].
  repeat (split; [assumption || reflexivity|]).
  intros x. rewrite !match_valid by assumption.
  rewrite Md, Mt, Mnu, Mbn, Mu, Mna, Mnb.
  split; f_equal. apply negb_orb.
Qed.

Lemma algebra_composes_witness :
  ∃ difference through_inverse not_union both_not,
    Context.minus user12_ctx not_user1_ctx = Ok difference ∧
    (Context.inverse not_user1_ctx ≫= Context.intersect user12_ctx) = Ok through_inverse ∧
    (Context.plus user12_ctx not_user1_ctx ≫= Context.inverse) = Ok not_union ∧
    (Context.inverse user12_ctx ≫= λ na,
       Context.inverse not_user1_ctx ≫= Context.intersect na) = Ok both_not ∧
    ∀ x, Context.match_ difference x = Context.match_ through_inverse x ∧
         Context.match_ not_union x = Context.match_ both_not x.
Proof. apply (algebra_composes user12_ctx not_user1_ctx); reflexivity. Defined.

(** What [stringify] writes for an entry depends on the list in use only. *)
Lemma stringify_entry_in_use s index :
  ContextScope.stringify_entry (list_in_use s) index = ContextScope.stringify_entry s index.
Proof. destruct s as [[?|] [?|]]; reflexivity. Qed.

Lemma stringify_in_use scope :
  ContextScope.stringify (list_in_use <$> scope) = ContextScope.stringify scope.
Proof.
  unfold ContextScope.stringify, map_index. f_equal. generalize 0.
  induction scope as [|s scope IH]; intros index; [reflexivity|].
  rewrite fmap_cons. cbn [map_from].
  rewrite stringify_entry_in_use, IH. reflexivity.
Qed.

Lemma inverse_twice_in_use s index r r' :
  Context.inverse_entry s index = Ok r → Context.inverse_entry r index = Ok r' →
  list_in_use r' = list_in_use s.
Proof.
  destruct s as [[?|] [?|]]; simpl; intros [= <-]; simpl; intros [= <-]; reflexivity.
Qed.

(** X3. Inverting a Context twice returns a Context with the identifier
    of the scope it started from, matching the same event identities. *)
Theorem inverse_inverse (a : Context) :
  valid a = true →
  ∃ c d,
    Context.inverse a = Ok c ∧ Context.inverse c = Ok d ∧
    ContextScope.stringify (_scope a) = Ok (identifier d) ∧
    ∀ x, Context.match_ d x = Context.match_ a x.
Proof.
  intros Ha.
  destruct (inverse_spec a Ha) as (c & Hc & Vc & Mc).
  destruct (inverse_spec c Vc) as (d & Hd & Vd & Md).
  exists c, d. split; [assumption|]. split; [assumption|]. split.
  - pose proof Hc as Hc'. pose proof Hd as Hd'.
    apply bind_Ok_inv in Hc' as (sc & Hsc & Hcc).
    apply bind_Ok_inv in Hd' as (sd & Hsd & Hcd).
    pose proof (createContext_scope _ _ Hcc) as Ec.
    apply bind_Ok_inv in Hcd as (id & Hid & [= <-]). simpl.
    rewrite <- Hid, <- (stringify_in_use sd), <- (stringify_in_use (_scope a)). f_equal.
    rewrite Ec in Hsd. clear -Hsc Hsd. unfold map_index in *. revert Hsc Hsd.
    generalize 0. revert sc sd.
    induction (_scope a) as [|s scope IH]; intros sc sd index Hsc Hsd.
    + injection Hsc as <-. injection Hsd as <-. reflexivity.
    + cbn [map_from] in Hsc.
      apply bind_Ok_inv in Hsc as (r & Hr & Hsc).
      apply bind_Ok_inv in Hsc as (rs & Hrs & [= <-]).
      cbn [map_from] in Hsd.
      apply bind_Ok_inv in Hsd as (r' & Hr' & Hsd).
      apply bind_Ok_inv in Hsd as (rs' & Hrs' & [= <-]).
      rewrite !fmap_cons. f_equal; [symmetry; eapply inverse_twice_in_use; eassumption|].
      eapply IH; eassumption.
  - intros x. rewrite !match_valid by assumption. f_equal.
    rewrite Md, Mc. apply negb_involutive.
Qed.

Lemma inverse_inverse_witness :
  ∃ c d,
    Context.inverse not_user1_ctx = Ok c ∧ Context.inverse c = Ok d ∧
    ContextScope.stringify (_scope not_user1_ctx) = Ok (identifier d) ∧
    ∀ x, Context.match_ d x = Context.match_ not_user1_ctx x.
Proof. apply (inverse_inverse not_user1_ctx); reflexivity. Defined.

(** X4. Whatever the two Contexts, a Context returned by [plus], [minus]
    or [intersect] has exactly one of include and exclude for every
    identity type. *)
Theorem binary_result_one_list (a b c : Context) :
  Context.plus a b = Ok c ∨ Context.minus a b = Ok c ∨ Context.intersect a b = Ok c →
  Forall (λ s, exactly_one s = true) (_scope c).
Proof.
  intros [H | [H | H]]; apply bind_Ok_inv in H as (scope & Hm & Hc);
    rewrite (createContext_scope _ _ Hc);
    eapply map_from_Forall; try apply Hm; simpl;
    eauto using plus_entry_exactly_one, minus_entry_exactly_one, intersect_entry_exactly_one.
Qed.

Lemma binary_result_one_list_witness :
  ∃ c, Context.minus user12_ctx not_user1_ctx = Ok c ∧
       Forall (λ s, exactly_one s = true) (_scope c).
Proof.
  eexists. split; [reflexivity|].
  apply (binary_result_one_list user12_ctx not_user1_ctx). right. left. reflexivity.
Defined.

(** ** Containment, exactly *)

(** No two id lists cover every id. *)
Lemma id_outside (l1 l2 : list Z) : ∃ id : Z, ¬ (id ∈ l1) ∧ ¬ (id ∈ l2).
Proof.
  exists (fresh (l1 ++ l2)%list).
  pose proof (infinite_is_fresh (l1 ++ l2)%list) as H.
  rewrite elem_of_app in H. tauto.
Qed.

Section ContainComplete.
Variable contain_ids : list Z → list Z → bool.
Hypothesis contain_ids_spec :
  ∀ a b, contain_ids a b = true ↔ ∀ id, id ∈ b → id ∈ a.

Lemma contain_entry_complete ctx s t index :
  entry_at ctx index = Ok t → valid_subscope s = true → valid_subscope t = true →
  (∀ id, entry_matches t id = true → entry_matches s id = true) →
  Context.contain_entry contain_ids ctx s index = Ok true.
Proof using contain_ids_spec.
  intros Ht Hs Hv Hsub. unfold Context.contain_entry. rewrite Ht.
  assert (Hinc : ∀ l id, Utils.includes l id = true ↔ id ∈ l) by apply includes_true.
  assert (Hexc : ∀ l id, negb (Utils.includes l id) = true ↔ id ∉ l).
  { intros l id. rewrite negb_true_iff, <- not_true_iff_false, Hinc. reflexivity. }
  destruct s as [[include1|] [exclude1|]]; try discriminate;
    destruct t as [[include2|] [exclude2|]]; try discriminate; simpl in *; f_equal.
  1,2,4,5: apply contain_ids_spec; intros id Hid; apply Hinc, Hsub, Hinc, Hid.
  1,2: destruct (id_outside exclude2 include1) as (id & H2 & H1);
       apply Hexc, Hsub, Hinc in H2; contradiction.
  1,2: apply Nat.eqb_eq;
       destruct (Utils.intersection include2 exclude1) as [|id rest] eqn:E; [reflexivity|];
       assert (Hid : id ∈ Utils.intersection include2 exclude1)
         by (rewrite E; apply list_elem_of_here);
       apply list_elem_of_intersection in Hid as [Hi He];
       apply Hinc, Hsub, Hexc in Hi; contradiction.
  apply contain_ids_spec. intros id Hid.
  destruct (decide (id ∈ exclude2)) as [|Hn]; [assumption|].
  apply Hexc, Hsub, Hexc in Hn. contradiction.
Qed.

Lemma contain_complete a b :
  valid a = true → valid b = true →
  (∀ meta, matches (_scope b) meta = true → matches (_scope a) meta = true) →
  Context.contain contain_ids a b = Ok true.
Proof using contain_ids_spec.
  unfold valid. intros Ha Hb Hsub.
  apply valid_scope_inv in Ha as (s0 & s1 & s2 & Hsa & Hs0 & Hs1 & Hs2).
  apply valid_scope_inv in Hb as (t0 & t1 & t2 & Hsb & Ht0 & Ht1 & Ht2).
  assert (E0 : entry_at b 0 = Ok t0) by (unfold entry_at; now rewrite Hsb).
  assert (E1 : entry_at b 1 = Ok t1) by (unfold entry_at; now rewrite Hsb).
  assert (E2 : entry_at b 2 = Ok t2) by (unfold entry_at; now rewrite Hsb).
  rewrite Hsa, Hsb in Hsub.
  unfold Context.contain, every_index. rewrite Hsa. cbn [every_from].
  rewrite (contain_entry_complete b s0 t0 0 E0 Hs0 Ht0)
    by (intros id; apply (Hsub {| ctxType := user; ctxId := id |})).
  cbn [mbind Result_bind result_bind].
  rewrite (contain_entry_complete b s1 t1 1 E1 Hs1 Ht1)
    by (intros id; apply (Hsub {| ctxType := group; ctxId := id |})).
  cbn [mbind Result_bind result_bind].
  rewrite (contain_entry_complete b s2 t2 2 E2 Hs2 Ht2)
    by (intros id; apply (Hsub {| ctxType := discuss; ctxId := id |})).
  reflexivity.
Qed.
End ContainComplete.

(** X5. When the helper [contain(l1, l2)] holds iff every id of [l2] is in
    [l1], [a.contain(b)] returns true exactly when every event identity
    matched by [b] is matched by [a] (ids range over the integers, which
    no id list exhausts). *)
Theorem contain_exact (contain_ids : list Z → list Z → bool) (a b : Context) :
  (∀ l1 l2, contain_ids l1 l2 = true ↔ ∀ id, id ∈ l2 → id ∈ l1) →
  valid a = true → valid b = true →
  (Context.contain contain_ids a b = Ok true ↔
   ∀ x, Context.match_ b x = Ok true → Context.match_ a x = Ok true).
Proof.
  intros Hspec Ha Hb. split.
  - intros Hc x. rewrite !match_valid by assumption.
    intros [= Hm]. f_equal. eapply contain_sound; eauto.
  - intros Hsub. apply contain_complete; try assumption.
    intros meta Hm. specialize (Hsub meta).
    rewrite !match_valid in Hsub by assumption.
    rewrite Hm in Hsub. specialize (Hsub eq_refl). congruence.
Qed.

Lemma contain_exact_witness :
  Context.contain Utils.contain_rev user12_ctx user1_ctx = Ok true ↔
  ∀ x, Context.match_ user1_ctx x = Ok true → Context.match_ user12_ctx x = Ok true.
Proof.
  apply (contain_exact Utils.contain_rev user12_ctx user1_ctx).
  - apply contain_rev_spec.
  - reflexivity.
  - reflexivity.
Defined.

(** ** Identifiers *)

Lemma printed_inj l l' : printed l = printed l' → l = l'.
Proof.
  intros H.
  destruct l as [|n l], l' as [|n' l']; [reflexivity| | |].
  - destruct (printed_nonempty (n' :: l')) as (c & s & E); [discriminate|].
    rewrite <- H in E. change (printed []) with "" in E. discriminate.
  - destruct (printed_nonempty (n :: l)) as (c & s & E); [discriminate|].
    rewrite H in E. change (printed []) with "" in E. discriminate.
  - assert (Hs : number_to_string <$> n :: l = number_to_string <$> n' :: l').
    { rewrite <- !split_printed by discriminate. now rewrite H. }
    assert (Hn : ContextScope.to_numbers (number_to_string <$> n :: l)
                 = ContextScope.to_numbers (number_to_string <$> n' :: l'))
      by now rewrite Hs.
    rewrite !to_numbers_printed in Hn. congruence.
Qed.

Lemma segment_of_inj sign sign' type l l' :
  segment_of sign type l = segment_of sign' type l' → sign = sign' ∧ l = l'.
Proof.
  unfold segment_of.
  destruct sign, sign', type; cbv -[printed]; intros [= H];
    (split; [reflexivity | now apply printed_inj]).
Qed.

Lemma stringify_entry_valid s type :
  valid_subscope s = true →
  ∃ sign l,
    list_in_use s = (if sign : bool then (Some l, None) else (None, Some l)) ∧
    ContextScope.stringify_entry s (contextTypes_index type) = Ok (segment_of sign type l).
Proof.
  destruct s as [[include|] [exclude|]]; simpl; try discriminate; intros _.
  1,2: exists true, include; split; reflexivity.
  exists false, exclude; split; reflexivity.
Qed.

Lemma stringify_valid scope :
  valid_scope scope = true →
  ∃ sg0 l0 sg1 l1 sg2 l2,
    list_in_use <$> scope =
      [ if sg0 : bool then (Some l0, None) else (None, Some l0);
        if sg1 : bool then (Some l1, None) else (None, Some l1);
        if sg2 : bool then (Some l2, None) else (None, Some l2) ] ∧
    ContextScope.stringify scope =
      Ok (join ";" [segment_of sg0 user l0; segment_of sg1 group l1; segment_of sg2 discuss l2]).
Proof.
  intros H. apply valid_scope_inv in H as (s0 & s1 & s2 & -> & H0 & H1 & H2).
  destruct (stringify_entry_valid s0 user H0) as (sg0 & l0 & U0 & E0).
  destruct (stringify_entry_valid s1 group H1) as (sg1 & l1 & U1 & E1).
  destruct (stringify_entry_valid s2 discuss H2) as (sg2 & l2 & U2 & E2).
  exists sg0, l0, sg1, l1, sg2, l2. split.
  - rewrite !fmap_cons, U0, U1, U2. reflexivity.
  - apply stringify_three; assumption.
Qed.

(** Scopes with one identifier have the same lists in use. *)
Lemma stringify_inj scope scope' :
  valid_scope scope = true → valid_scope scope' = true →
  ContextScope.stringify scope = ContextScope.stringify scope' →
  list_in_use <$> scope = list_in_use <$> scope'.
Proof.
  intros H H' E.
  destruct (stringify_valid scope H) as (a0 & l0 & a1 & l1 & a2 & l2 & -> & Hs).
  destruct (stringify_valid scope' H') as (b0 & k0 & b1 & k1 & b2 & k2 & -> & Hs').
  rewrite Hs, Hs' in E.
  assert (Hsplit : split ";" (join ";" [segment_of a0 user l0; segment_of a1 group l1;
                                       segment_of a2 discuss l2])
                   = split ";" (join ";" [segment_of b0 user k0; segment_of b1 group k1;
                                         segment_of b2 discuss k2])) by congruence.
  rewrite !split_identifier in Hsplit by apply segment_of_no_semicolon.
  injection Hsplit as E0 E1 E2.
  apply segment_of_inj in E0 as [-> ->].
  apply segment_of_inj in E1 as [-> ->].
  apply segment_of_inj in E2 as [-> ->].
  reflexivity.
Qed.

Lemma entry_matches_in_use s id : entry_matches (list_in_use s) id = entry_matches s id.
Proof. destruct s as [[?|] [?|]]; reflexivity. Qed.

Lemma matches_in_use scope meta : matches (list_in_use <$> scope) meta = matches scope meta.
Proof.
  unfold matches, ContextScope in *. rewrite list_lookup_fmap.
  destruct (scope !! contextTypes_index (ctxType meta)); simpl; [|reflexivity].
  apply entry_matches_in_use.
Qed.

Lemma createContext_inv scope c :
  _createContext scope = Ok c →
  _scope c = scope ∧ ContextScope.stringify scope = Ok (identifier c).
Proof.
  unfold _createContext. intros H.
  apply bind_Ok_inv in H as (id & Hid & [= <-]). split; [reflexivity | exact Hid].
Qed.

(** X6. Two Contexts made from readable scopes that have the same
    identifier match the same event identities. *)
Theorem same_identifier_same_match (scope scope' : ContextScope) (a b : Context) :
  valid_scope scope = true → valid_scope scope' = true →
  _createContext scope = Ok a → _createContext scope' = Ok b →
  identifier a = identifier b →
  ∀ x, Context.match_ a x = Context.match_ b x.
Proof.
  intros H H' Ha Hb Hid x.
  apply createContext_inv in Ha as [Sa Ia]. apply createContext_inv in Hb as [Sb Ib].
  rewrite !match_valid by (unfold valid; congruence).
  rewrite Sa, Sb. f_equal.
  rewrite <- (matches_in_use scope), <- (matches_in_use scope').
  f_equal. apply stringify_inj; congruence.
Qed.

Lemma same_identifier_same_match_witness :
  Context.match_ user1_ctx user1_meta =
  Context.match_ {| identifier := "+user:1;+group:;+discuss:";
                    _scope := [(Some [1%Z], Some []); (Some [], None); (Some [], None)] |}
    user1_meta.
Proof.
  apply (same_identifier_same_match
           [(Some [1%Z], None); (Some [], None); (Some [], None)]
           [(Some [1%Z], Some []); (Some [], None); (Some [], None)]);
    reflexivity.
Defined.

Lemma matches_nothing_in_use s :
  valid_subscope s = true → (∀ id, entry_matches s id = false) →
  list_in_use s = (Some [], None).
Proof.
  destruct s as [[include|] [exclude|]]; simpl; try discriminate; intros _ H.
  1,2: destruct include as [|id include]; [reflexivity|];
       specialize (H id); apply not_true_iff_false in H; destruct H;
       apply includes_true, list_elem_of_here.
  destruct (id_outside exclude []) as (id & Hid & _).
  specialize (H id). apply negb_false_iff, includes_true in H. contradiction.
Qed.

(** X7. The test [context.identifier === noopIdentifier] of [command] is
    exact: a Context made from a readable scope has the noop identifier
    exactly when it matches no event identity. *)
Theorem noop_identifier_exact (scope : ContextScope) (c : Context) :
  valid_scope scope = true → _createContext scope = Ok c →
  (identifier c = noopIdentifier ↔ ∀ x, Context.match_ c x = Ok false).
Proof.
  intros H Hc. apply createContext_inv in Hc as [Sc Ic].
  assert (Hv : valid c = true) by (unfold valid; congruence).
  split.
  - intros Hid x. rewrite match_valid, Sc by assumption. f_equal.
    rewrite <- matches_in_use.
    rewrite (stringify_inj scope noopScope H eq_refl).
    + destruct x as [[] id]; reflexivity.
    + rewrite Ic, Hid. reflexivity.
  - intros Hnone.
    assert (Hm : ∀ x, matches scope x = false).
    { intros x. specialize (Hnone x). rewrite match_valid, Sc in Hnone by assumption.
      congruence. }
    apply valid_scope_inv in H as (s0 & s1 & s2 & -> & H0 & H1 & H2).
    assert (E0 : list_in_use s0 = (Some [], None)).
    { apply matches_nothing_in_use; [assumption|].
      intros id. apply (Hm {| ctxType := user; ctxId := id |}). }
    assert (E1 : list_in_use s1 = (Some [], None)).
    { apply matches_nothing_in_use; [assumption|].
      intros id. apply (Hm {| ctxType := group; ctxId := id |}). }
    assert (E2 : list_in_use s2 = (Some [], None)).
    { apply matches_nothing_in_use; [assumption|].
      intros id. apply (Hm {| ctxType := discuss; ctxId := id |}). }
    rewrite <- stringify_in_use, !fmap_cons, E0, E1, E2 in Ic.
    injection Ic as <-. reflexivity.
Qed.

Lemma noop_identifier_exact_witness :
  identifier noop_ctx = noopIdentifier ↔ ∀ x, Context.match_ noop_ctx x = Ok false.
Proof. apply (noop_identifier_exact noopScope noop_ctx); reflexivity. Defined.

(** ** What [parse] returns *)

Lemma parse_segment_shape scope segment scope' :
  ContextScope.parse_segment scope segment = Ok scope' →
  length scope' = length scope ∧
  (Forall (λ s, exactly_one s = true) scope → Forall (λ s, exactly_one s = true) scope').
Proof.
  unfold ContextScope.parse_segment.
  destruct (ContextScope.exec_segment segment) as [[[sign type] list]|]; [|discriminate].
  intros H. apply bind_Ok_inv in H as (idList & _ & [= <-]).
  split; [apply length_insert|].
  intros Hall. apply Forall_insert; [assumption|]. destruct sign; reflexivity.
Qed.

(** X8. A scope that [parse] returns has one Subscope for each of the
    three identity types, each with exactly one of include and exclude. *)
Theorem parse_well_formed (identifier : string) (scope : ContextScope) :
  ContextScope.parse identifier = Ok scope →
  length scope = 3 ∧ Forall (λ s, exactly_one s = true) scope.
Proof.
  unfold ContextScope.parse.
  assert (Hgen : ∀ segments start,
            ContextScope.parse_segments start segments = Ok scope →
            length scope = length start ∧
            (Forall (λ s, exactly_one s = true) start →
             Forall (λ s, exactly_one s = true) scope)).
  { induction segments as [|segment segments IH]; intros start; cbn.
    - intros [= <-]. auto.
    - intros H. apply bind_Ok_inv in H as (next & Hseg & Hrest).
      apply parse_segment_shape in Hseg as [Hlen Hone].
      apply IH in Hrest as [Hlen' Hone']. split; [congruence | auto]. }
  intros H. apply Hgen in H as [Hlen Hone]. split; [exact Hlen|].
  apply Hone. repeat constructor.
Qed.

Lemma parse_well_formed_witness :
  length ([(Some [], None); (None, Some [3%Z]); (Some [], None)] : ContextScope) = 3 ∧
  Forall (λ s, exactly_one s = true)
    ([(Some [], None); (None, Some [3%Z]); (Some [], None)] : ContextScope).
Proof. apply (parse_well_formed "-group:3"). reflexivity. Defined.

(** ** The execution pipeline, further *)

(** X9. Counting the arguments throws in one case only: counting is on,
    the command declares no argument, and an argument was supplied. *)
Theorem check_arg_count_throws (this : Command) (args : list string) :
  (∃ e, Command.check_arg_count this args = Throw e) ↔
  truthy (CommandConfig.checkArgCount (config this)) = true ∧
  _argsDef this = [] ∧ args ≠ [].
Proof.
  unfold Command.check_arg_count.
  destruct (truthy (CommandConfig.checkArgCount (config this))).
  - destruct (_argsDef this) as [|first more] eqn:Hdef.
    + destruct args as [|arg args]; simpl.
      * split; [intros [e H]; discriminate | intros (_ & _ & H); congruence].
      * split; [intros _; repeat split; discriminate | intros _; eauto].
    + split; [|intros (_ & H & _); discriminate].
      intros [e H]. exfalso.
      destruct (last_is_Some (first :: more)) as [_ Hlast].
      destruct Hlast as [final Hfinal]; [discriminate|]. rewrite Hfinal in H.
      repeat case_match; discriminate.
  - split; [intros [e H]; discriminate | intros (H & _); discriminate].
Qed.



(** ** The user fields to fetch, further *)

(** X11. [attachUserFields] only adds to the fields requested so far, and
    attaching the fields of the same invocation a second time changes
    nothing. *)
Theorem attachUserFields_idempotent (command : option Command)
    (options : option (gmap string string)) (userFields : gset string) :
  userFields ⊆ Command.attachUserFields command options userFields ∧
  Command.attachUserFields command options
      (Command.attachUserFields command options userFields)
    = Command.attachUserFields command options userFields.
Proof.
  destruct command as [command|]; [|split; reflexivity].
  rewrite !attachUserFields_union.
  split; [|apply set_eq; intros field]; set_unfold; intuition.
Qed.

(** ** The command tree stays well formed *)

Lemma constructor_Ok_inv parseArguments resolved declared ctx config app ref app1 :
  Command.constructor parseArguments resolved declared ctx config app = (Ok ref, app1) →
  ref = length (_commands app) ∧
  ∃ c0, context c0 = ctx ∧ parent_of c0 = None ∧ name_of c0 = resolved ∧
        _commands app1 = (_commands app ++ [c0])%list ∧
        _commandMap app1 = <[toLowerCase resolved := ref]> (_commandMap app).
Proof.
  unfold Command.constructor, Command._registerAlias, look. reg_unfold.
  case_bool_decide; [discriminate|].
  destruct (_commandMap app !! toLowerCase resolved) as [previous|] eqn:Hprev.
  - destruct (Nat.eqb_spec previous (length (_commands app))) as [->|]; [|discriminate].
    intros [= <- <-]. split; [reflexivity|].
    eexists. split; [|split; [|split; [|split; [reflexivity|]]]]; try reflexivity.
    cbn [_commandMap]. symmetry. apply insert_id. exact Hprev.
  - destruct (inherited (toLowerCase resolved)); [discriminate|].
    intros [= <- <-]. split; [reflexivity|].
    eexists. split; [|split; [|split; [|split; [reflexivity|]]]]; reflexivity.
Qed.

Lemma command_segment_Ok_inv contain_ids parseArguments this declared above segment
    app found app' :
  Context.command_segment contain_ids parseArguments this declared above segment app
    = (Ok found, app') →
  (app' = app ∧ ∀ ref, found = node ref → ∃ key, _commandMap app !! key = Some ref)
  ∨ (∃ ref p c pc,
       found = node ref ∧ above = Some (node p) ∧
       _commands app !! ref = Some c ∧ _commands app !! p = Some pc ∧
       Context.contain contain_ids (context pc) (context c) = Ok true ∧
       app' = snd (Context.set_parent ref p app))
  ∨ (∃ ref resolved ctx app1,
       found = node ref ∧
       Command.constructor parseArguments resolved declared ctx CommandConfig.empty app
         = (Ok ref, app1) ∧
       ((above = None ∧ ctx = this ∧ app' = app1)
        ∨ (∃ p pc, above = Some (node p) ∧ _commands app !! p = Some pc ∧
                   Context.intersect this (context pc) = Ok ctx ∧
                   app' = snd (Context.set_parent ref p app1)))).
Proof.
  unfold Context.command_segment.
  unfold mbind at 1, Reg_bind at 1, reg_bind at 1.
  destruct (Context.segment_name above segment app) as [[resolved|e0] app0] eqn:Hname;
    apply segment_name_state in Hname as ->; [|discriminate].
  unfold mbind at 1, Reg_bind at 1, reg_bind at 1, reg_get at 1.
  destruct (look app resolved) as [[command|key]|] eqn:Hlook.
  - assert (Hmap : _commandMap app !! resolved = Some command).
    { unfold look in Hlook. destruct (_commandMap app !! resolved);
        [congruence | destruct (inherited resolved); discriminate]. }
    destruct above as [[p|key]|].
    + unfold Context.set_parent. reg_unfold.
      repeat case_match; intros; simplify_eq.
      * left. split; [reflexivity|]. intros ? [= <-]. eauto.
      * right. left. eexists _, _, _, _. repeat split; eauto.
    + reg_unfold. repeat case_match; intros; simplify_eq.
    + reg_unfold. intros [= <- <-]. left. split; [reflexivity|]. intros ? [= <-]. eauto.
  - destruct above as [[p|key']|].
    + reg_unfold. repeat case_match; intros; simplify_eq.
      left. split; [reflexivity | discriminate].
    + reg_unfold. repeat case_match; intros; simplify_eq.
    + reg_unfold. intros [= <- <-]. left. split; [reflexivity | discriminate].
  - destruct above as [[p|key]|].
    + reg_unfold.
      destruct (_commands app !! p) as [pc|] eqn:Hp; [|discriminate].
      destruct (Context.intersect this (context pc)) as [ctx|e0] eqn:Hctx; [|discriminate].
      case_bool_decide; [discriminate|].
      destruct (Command.constructor _ _ _ _ _ app) as [[command|e0] app1] eqn:Hnew;
        [|discriminate].
      unfold Context.set_parent. intros [= <- <-].
      right. right. eexists _, _, _, _. split; [reflexivity|]. split; [exact Hnew|]. right.
      eexists _, _. repeat split; eauto.
    + reg_unfold.
      destruct (Context.intersect_undefined this) as [ctx|e0]; [|discriminate].
      case_bool_decide; [discriminate|].
      destruct (Command.constructor _ _ _ _ _ app) as [[command|e0] app1]; discriminate.
    + reg_unfold. case_bool_decide; [discriminate|].
      destruct (Command.constructor _ _ _ _ _ app) as [[command|e0] app1] eqn:Hnew;
        [|discriminate].
      intros [= <- <-].
      right. right. eexists _, _, _, _. split; [reflexivity|]. split; [exact Hnew|].
      left. auto.
Qed.

(** Linking a command under a parent that matches at least as much. *)
Lemma tree_ok_set_parent app command above c p :
  tree_ok app →
  _commands app !! command = Some c → _commands app !! above = Some p →
  (∀ meta, matches (_scope (context c)) meta = true →
           matches (_scope (context p)) meta = true) →
  tree_ok (snd (Context.set_parent command above app)).
Proof.
  intros [Hmap Htree] Hc Hp Hsub. unfold Context.set_parent, reg_modify. cbn [snd].
  set (f := λ p0 : Command, _). set (g := λ c0 : Command, _).
  assert (Hctx : ∀ ref x, _commands app !! ref = Some x →
            ∃ x', alter f above (alter g command (_commands app)) !! ref = Some x' ∧
                  context x' = context x).
  { intros ref x Hx. rewrite !list_lookup_alter.
    repeat case_decide; subst; rewrite ?Hx, ?Hp, ?Hc in *; simplify_eq; simpl; eauto. }
  assert (Hback : ∀ ref x', alter f above (alter g command (_commands app)) !! ref = Some x' →
            ∃ x, _commands app !! ref = Some x ∧ context x' = context x ∧
                 (parent x' = parent x ∨ (ref = command ∧ parent x' = Some above))).
  { intros ref x'. rewrite !list_lookup_alter.
    repeat case_decide; subst; rewrite ?Hp, ?Hc;
      try destruct (_commands app !! ref) as [x|] eqn:Hx;
      simpl; intros; simplify_eq; eexists; (split; [reflexivity|]); simpl; auto. }
  split; cbn [_commands _commandMap].
  - intros key ref Hk. apply Hmap in Hk. apply lookup_lt_is_Some in Hk.
    apply lookup_lt_is_Some. now rewrite !length_alter.
  - intros ref x' Hx'. destruct (Hback ref x' Hx') as (x & Hx & Ex & Hpar).
    destruct (Htree ref x Hx) as [Hvalid Hup]. rewrite Ex. split; [assumption|].
    intros q Hq. destruct Hpar as [Hpar | [-> Hpar]].
    + rewrite Hpar in Hq. destruct (Hup q Hq) as (pq & Hpq & Hsubq).
      destruct (Hctx q pq Hpq) as (pq' & Hpq' & Epq). exists pq'. split; [assumption|].
      now rewrite Epq.
    + rewrite Hpar in Hq. injection Hq as <-.
      destruct (Hctx above p Hp) as (p' & Hp' & Ep). exists p'. split; [assumption|].
      rewrite Ep. rewrite Hc in Hx. injection Hx as <-. assumption.
Qed.

(** Adding a new command without a parent. *)
Lemma tree_ok_extend app app1 c0 key :
  tree_ok app → valid (context c0) = true → parent_of c0 = None →
  _commands app1 = (_commands app ++ [c0])%list →
  _commandMap app1 = <[key := length (_commands app)]> (_commandMap app) →
  tree_ok app1.
Proof.
  intros [Hmap Htree] Hvalid Hnone Hcmds Hm. split.
  - intros k ref. rewrite Hm, Hcmds, lookup_insert. case_decide.
    + intros [= <-]. rewrite list_lookup_middle by reflexivity. eauto.
    + intros Hk. apply Hmap in Hk. apply lookup_lt_is_Some in Hk.
      apply lookup_lt_is_Some. rewrite length_app. lia.
  - intros ref c. rewrite Hcmds. intros Hlook.
    destruct (decide (ref < length (_commands app))) as [Hlt|Hge].
    + rewrite lookup_app_l in Hlook by assumption.
      destruct (Htree ref c Hlook) as [Hv Hup]. split; [assumption|].
      intros q Hq. destruct (Hup q Hq) as (pq & Hpq & Hsub). exists pq.
      split; [|assumption].
      rewrite lookup_app_l; [assumption|]. eapply lookup_lt_Some, Hpq.
    + rewrite lookup_app_r in Hlook by lia.
      destruct (ref - length (_commands app)) as [|k]; [|destruct k; discriminate].
      injection Hlook as <-. split; [assumption|].
      unfold parent_of in Hnone. intros q Hq. congruence.
Qed.

(** Changing the configuration of a command. *)
Lemma tree_ok_assign_config app command source :
  tree_ok app → tree_ok (snd (Context.assign_config command source app)).
Proof.
  intros [Hmap Htree]. unfold Context.assign_config, reg_modify. cbn [snd].
  set (f := λ c0 : Command, _).
  assert (Hback : ∀ ref x', alter f command (_commands app) !! ref = Some x' →
            ∃ x, _commands app !! ref = Some x ∧ context x' = context x ∧ parent x' = parent x).
  { intros ref x'. rewrite list_lookup_alter.
    case_decide; subst; destruct (_commands app !! ref) as [x|];
      simpl; intros; simplify_eq; eauto. }
  assert (Hctx : ∀ ref x, _commands app !! ref = Some x →
            ∃ x', alter f command (_commands app) !! ref = Some x' ∧ context x' = context x).
  { intros ref x Hx. rewrite list_lookup_alter.
    case_decide; subst; rewrite Hx; simpl; eauto. }
  split; cbn [_commands _commandMap].
  - intros key ref Hk. apply Hmap in Hk. apply lookup_lt_is_Some in Hk.
    apply lookup_lt_is_Some. now rewrite length_alter.
  - intros ref x' Hx'. destruct (Hback ref x' Hx') as (x & Hx & Ex & Hpar).
    destruct (Htree ref x Hx) as [Hvalid Hup]. rewrite Ex. split; [assumption|].
    intros q Hq. rewrite Hpar in Hq. destruct (Hup q Hq) as (pq & Hpq & Hsubq).
    destruct (Hctx q pq Hpq) as (pq' & Hpq' & Epq). exists pq'. split; [assumption|].
    now rewrite Epq.
Qed.

Section Tree.
Variable contain_ids : list Z → list Z → bool.
Variable parseArguments : string → list CommandArgument.t.
Hypothesis contain_ids_spec :
  ∀ a b, contain_ids a b = true ↔ ∀ id, id ∈ b → id ∈ a.
Variable this : Context.
Hypothesis this_valid : valid this = true.

Lemma command_segment_tree_ok declared above segment app r app' :
  tree_ok app →
  Context.command_segment contain_ids parseArguments this declared above segment app
    = (r, app') →
  tree_ok app' ∧ ∀ ref, r = Ok (node ref) → is_Some (_commands app' !! ref).
Proof using contain_ids_spec this_valid.
  intros Hok Hstep. destruct r as [found|e].
  2: { apply command_segment_throw in Hstep as ->; [split; [assumption | discriminate]|].
       intros _ _. now apply valid_scope_nonempty. }
  pose proof Hok as [Hmap Htree].
  apply command_segment_Ok_inv in Hstep
    as [[-> Hkey] | [(ref & p & c & pc & -> & -> & Hc & Hp & Hcontain & ->)
        | (ref & resolved & ctx & app1 & -> & Hnew & Hcase)]].
  - split; [assumption|]. intros ref [= ->]. destruct (Hkey ref eq_refl) as [key Hk].
    eapply Hmap, Hk.
  - destruct (Htree ref c Hc) as [Vc _]. destruct (Htree p pc Hp) as [Vp _].
    split.
    + apply (tree_ok_set_parent app ref p c pc Hok Hc Hp).
      eapply contain_sound; eauto.
    + intros ? [= <-]. apply lookup_lt_is_Some.
      unfold Context.set_parent, reg_modify. cbn [snd _commands].
      rewrite !length_alter. eapply lookup_lt_Some, Hc.
  - apply constructor_Ok_inv in Hnew as (-> & c0 & Ec & Hnone & _ & Hcmds & Hm).
    assert (Hat : _commands app1 !! length (_commands app) = Some c0)
      by (rewrite Hcmds; now apply list_lookup_middle).
    destruct Hcase as [(-> & Ethis & ->) | (p & pc & -> & Hp & Hctx & ->)].
    + assert (Vc0 : valid (context c0) = true) by congruence.
      split; [|intros ? [= <-]; eauto].
      eapply tree_ok_extend; eauto.
    + destruct (Htree p pc Hp) as [Vp _].
      destruct (intersect_spec this (context pc)) as (ctx' & Hctx' & Vctx & Mctx);
        [assumption..|].
      assert (ctx' = context c0) as -> by congruence.
      assert (Hok1 : tree_ok app1) by (eapply tree_ok_extend; eauto).
      split.
      * apply (tree_ok_set_parent app1 (length (_commands app)) p c0 pc Hok1 Hat).
        { rewrite Hcmds, lookup_app_l; [exact Hp|]. eapply lookup_lt_Some, Hp. }
        intros meta. rewrite Mctx. intros H. now apply andb_true_iff in H.
      * intros ? [= <-]. apply lookup_lt_is_Some.
        unfold Context.set_parent, reg_modify. cbn [snd _commands].
        rewrite !length_alter. eapply lookup_lt_Some, Hat.
Qed.

Lemma walk_tree_ok declared segments :
  ∀ above app r app',
  tree_ok app →
  Context.walk contain_ids parseArguments this declared above segments app = (r, app') →
  tree_ok app'.
Proof using contain_ids_spec this_valid.
  induction segments as [|segment segments IH]; intros above app r app' Hok.
  - cbn. unfold mret, Reg_ret. intros [= <- <-]. assumption.
  - cbn [Context.walk].
    destruct (Context.command_segment contain_ids parseArguments this declared
                above segment app) as [[found|e] app0] eqn:Hseg.
    + rewrite (reg_bind_Ok _ _ _ _ _ Hseg).
      apply command_segment_tree_ok in Hseg as [Hok0 _]; [|assumption].
      now apply IH.
    + rewrite (reg_bind_Throw _ _ _ _ _ Hseg). intros [= <- <-].
      now apply command_segment_tree_ok in Hseg as [Hok0 _].
Qed.

Lemma command_tree_ok rawName description config app r app' :
  tree_ok app →
  Context.command contain_ids parseArguments this rawName description config app = (r, app') →
  tree_ok app'.
Proof using contain_ids_spec this_valid.
  intros Hok. unfold Context.command.
  destruct (split_declaration rawName) as [path declared].
  destruct (Context.walk contain_ids parseArguments this declared None
              (split_path (toLowerCase path)) app) as [[[[command|key]|]|e] app0] eqn:Hwalk.
  - rewrite (reg_bind_Ok _ _ _ _ _ Hwalk).
    apply walk_tree_ok in Hwalk; [|assumption].
    unfold mbind, Reg_bind, reg_bind, mret, Reg_ret.
    pose proof (tree_ok_assign_config app0 command
      (CommandConfig.assign
         {| CommandConfig.checkUnknown := None; CommandConfig.checkRequired := None;
            CommandConfig.checkArgCount := None; CommandConfig.usageName := None;
            CommandConfig.description := description; CommandConfig.authority := None;
            CommandConfig.disable := None; CommandConfig.maxUsage := None;
            CommandConfig.minInterval := None; CommandConfig.showWarning := None |}
         config) Hwalk) as Hassign.
    destruct (Context.assign_config _ _ app0) as [[[]|e] app1] eqn:Ha;
      intros [= <- <-]; exact Hassign.
  - rewrite (reg_bind_Ok _ _ _ _ _ Hwalk). unfold reg_lift. intros [= <- <-].
    eapply walk_tree_ok; eauto.
  - rewrite (reg_bind_Ok _ _ _ _ _ Hwalk). unfold reg_lift. intros [= <- <-].
    eapply walk_tree_ok; eauto.
  - rewrite (reg_bind_Throw _ _ _ _ _ Hwalk). intros [= <- <-].
    eapply walk_tree_ok; eauto.
Qed.
End Tree.

Lemma tree_ok_empty : tree_ok empty_app.
Proof. split; intros ? ? H; discriminate. Qed.

(** X12. Registration keeps the command tree well formed, whether it
    returns or throws: afterwards every name is still bound to a command
    that is there, and every command with a parent (adopted or created on
    the intersection) matches only event identities that its parent
    matches.  The helper [contain(l1, l2)] is taken to hold iff every id
    of [l2] is in [l1]. *)
Theorem command_keeps_tree (contain_ids : list Z → list Z → bool)
    (parseArguments : string → list CommandArgument.t) (this : Context)
    (rawName : string) (description : option string) (config : CommandConfig.t)
    (app : App) :
  (∀ l1 l2, contain_ids l1 l2 = true ↔ ∀ id, id ∈ l2 → id ∈ l1) →
  valid this = true → tree_ok app →
  tree_ok (snd (Context.command contain_ids parseArguments this rawName description config app)).
Proof.
  intros Hspec Hthis Hok.
  destruct (Context.command contain_ids parseArguments this rawName description config app)
    as [r app'] eqn:Hcommand.
  eapply command_tree_ok; eauto.
Qed.

Lemma command_keeps_tree_witness :
  tree_ok (snd (register_rev user12_ctx "foo/bar" None CommandConfig.empty
                  (snd (register_rev user13_ctx "foo" None CommandConfig.empty empty_app)))).
Proof.
  apply (command_keeps_tree Utils.contain_rev no_arguments user12_ctx "foo/bar" None
           CommandConfig.empty).
  - apply contain_rev_spec.
  - reflexivity.
  - apply (command_keeps_tree Utils.contain_rev no_arguments user13_ctx "foo" None
             CommandConfig.empty).
    + apply contain_rev_spec.
    + reflexivity.
    + apply tree_ok_empty.
Defined.

(** ** Aliases *)

Lemma registerAlias_cases this name app :
  let key := toLowerCase name in
  ∃ cmds,
    length cmds = length (_commands app) ∧
    CommandMethods._registerAlias this name app =
      match _commandMap app !! key with
      | None =>
          if inherited key
          then (Throw DUPLICATE_COMMAND,
                {| _commands := cmds; _commandMap := _commandMap app;
                   new_commands := new_commands app |})
          else (Ok (), {| _commands := cmds; _commandMap := <[key := this]> (_commandMap app);
                          new_commands := new_commands app |})
      | Some previous =>
          (if Nat.eqb previous this then Ok () else Throw DUPLICATE_COMMAND,
           {| _commands := cmds; _commandMap := _commandMap app;
              new_commands := new_commands app |})
      end.
Proof.
  intros key. unfold CommandMethods._registerAlias, CommandMethods.push_alias, look.
  reg_unfold.
  eexists. split; [|cbn [_commandMap]; fold key;
                    destruct (_commandMap app !! key) as [previous|];
                    [destruct (Nat.eqb previous this)|destruct (inherited key)];
                    reflexivity].
  cbn. apply length_alter.
Qed.

Lemma free_or_own_insert app cmds news this key name :
  CommandMethods.free_or_own app this key = true →
  CommandMethods.free_or_own
    {| _commands := cmds; _commandMap := <[toLowerCase key := this]> (_commandMap app);
       new_commands := news |} this name
  = CommandMethods.free_or_own app this name.
Proof.
  unfold CommandMethods.free_or_own. cbn [_commandMap]. intros Hkey.
  rewrite lookup_insert. case_decide as E; [|reflexivity].
  rewrite <- E, Nat.eqb_refl. symmetry. exact Hkey.
Qed.

Lemma alias_run this names :
  ∀ app, ∃ app',
    CommandMethods.alias this names app =
      (if forallb (CommandMethods.free_or_own app this) names
       then Ok this else Throw DUPLICATE_COMMAND, app') ∧
    (∀ key ref, _commandMap app !! key = Some ref → _commandMap app' !! key = Some ref) ∧
    (forallb (CommandMethods.free_or_own app this) names = true →
     ∀ name, name ∈ names → _commandMap app' !! toLowerCase name = Some this).
Proof.
  induction names as [|name names IH]; intros app.
  - exists app. cbn. repeat split; auto. intros _ name H. inversion H.
  - cbn [CommandMethods.alias forallb].
    destruct (registerAlias_cases this name app) as (cmds & Hlen & Hreg).
    cbn zeta in Hreg.
    change (CommandMethods.free_or_own app this name)
      with (match _commandMap app !! toLowerCase name with
            | None => negb (inherited (toLowerCase name))
            | Some previous => Nat.eqb previous this
            end).
    destruct (_commandMap app !! toLowerCase name) as [previous|] eqn:Hprev.
    + destruct (Nat.eqb_spec previous this) as [->|Hne].
      * rewrite ?Nat.eqb_refl in *. rewrite (reg_bind_Ok _ _ _ _ _ Hreg).
        destruct (IH {| _commands := cmds; _commandMap := _commandMap app;
                        new_commands := new_commands app |}) as (app' & Hrun & Hkeep & Hbind).
        exists app'. cbn [andb]. split; [exact Hrun|]. split; [exact Hkeep|].
        intros Hall n Hn. apply elem_of_cons in Hn as [->|Hn];
          [|apply Hbind; [exact Hall | exact Hn]].
        apply Hkeep. exact Hprev.
      * rewrite (reg_bind_Throw _ _ _ _ _ Hreg). eexists. cbn [andb].
        split; [reflexivity|]. split; [auto | discriminate].
    + destruct (inherited (toLowerCase name)) eqn:Hinh.
      { rewrite (reg_bind_Throw _ _ _ _ _ Hreg). eexists. cbn [andb negb].
        split; [reflexivity|]. split; [auto | discriminate]. }
      rewrite (reg_bind_Ok _ _ _ _ _ Hreg).
      assert (Hfree : CommandMethods.free_or_own app this name = true).
      { unfold CommandMethods.free_or_own. rewrite Hprev.
        change (negb (inherited (toLowerCase name)) = true). now rewrite Hinh. }
      destruct (IH {| _commands := cmds;
                      _commandMap := <[toLowerCase name := this]> (_commandMap app);
                      new_commands := new_commands app |}) as (app' & Hrun & Hkeep & Hbind).
      assert (Hsame : forallb (CommandMethods.free_or_own
                 {| _commands := cmds;
                    _commandMap := <[toLowerCase name := this]> (_commandMap app);
                    new_commands := new_commands app |} this) names
               = forallb (CommandMethods.free_or_own app this) names).
      { clear -Hfree. induction names as [|n names IHn]; [reflexivity|]. cbn [forallb].
        rewrite IHn. f_equal. now apply free_or_own_insert. }
      rewrite Hsame in Hrun, Hbind. cbn [_commandMap negb andb] in *.
      exists app'. split; [exact Hrun|]. split.
      * intros key ref Hk. apply Hkeep. rewrite lookup_insert_ne; [exact Hk|].
        intros <-. congruence.
      * intros Hall n Hn. apply elem_of_cons in Hn as [->|Hn];
          [|apply Hbind; [exact Hall | exact Hn]].
        apply Hkeep. apply lookup_insert_eq.
Qed.

(** X13. When each name, in lower case, is already bound to the command
    itself, or is bound to no command and is not a name that every object
    inherits ([constructor], [__proto__], ...), [alias] returns the
    command and binds every name to it. *)
Theorem alias_binds (this : nat) (names : list string) (app : App) :
  forallb (CommandMethods.free_or_own app this) names = true →
  ∃ app',
    CommandMethods.alias this names app = (Ok this, app') ∧
    ∀ name, name ∈ names → _commandMap app' !! toLowerCase name = Some this.
Proof.
  intros Hall. destruct (alias_run this names app) as (app' & Hrun & _ & Hbind).
  rewrite Hall in Hrun. exists app'. split; [exact Hrun | exact (Hbind Hall)].
Qed.

Lemma alias_binds_witness :
  ∃ app',
    CommandMethods.alias 0 ["F"; "foo"; "Fo"] app_foo_bar = (Ok 0, app') ∧
    ∀ name, name ∈ ["F"; "foo"; "Fo"] → _commandMap app' !! toLowerCase name = Some 0.
Proof. apply (alias_binds 0 ["F"; "foo"; "Fo"] app_foo_bar). reflexivity. Defined.

(** X14. [alias] never takes a name from the command it is bound to: a
    binding of the registry is still there afterwards, whether [alias]
    returned or threw; and it throws, with the duplicate-command error,
    exactly when one of the names, in lower case, is bound to another
    command, or is bound to no command and is a name that every object
    inherits ([constructor], [__proto__], ...), for which the lookup in
    the map gives the inherited object. *)
Theorem alias_keeps_bindings (this : nat) (names : list string) (app : App)
    (key : string) (ref : nat) :
  _commandMap app !! key = Some ref →
  _commandMap (snd (CommandMethods.alias this names app)) !! key = Some ref ∧
  fst (CommandMethods.alias this names app) =
    if forallb (CommandMethods.free_or_own app this) names
    then Ok this else Throw DUPLICATE_COMMAND.
Proof.
  intros Hkey. destruct (alias_run this names app) as (app' & Hrun & Hkeep & _).
  rewrite Hrun. split; [now apply Hkeep | reflexivity].
Qed.

Lemma alias_keeps_bindings_witness :
  _commandMap (snd (CommandMethods.alias 0 ["f"; "Constructor"; "g"] app_foo_bar)) !! "bar"
    = Some 1 ∧
  fst (CommandMethods.alias 0 ["f"; "Constructor"; "g"] app_foo_bar) = Throw DUPLICATE_COMMAND.
Proof.
  apply (alias_keeps_bindings 0 ["f"; "Constructor"; "g"] app_foo_bar "bar" 1). reflexivity.
Defined.

(** ** Middlewares *)

Lemma findIndex_None this m l :
  ContextMethods.findIndex this m l = None ↔ (this, m) ∉ l.
Proof.
  induction l as [|[c m'] l IH]; simpl.
  - split; [intros _ H; inversion H | reflexivity].
  - destruct (Nat.eqb_spec c this) as [->|Hc]; simpl.
    + destruct (Nat.eqb_spec m' m) as [->|Hm]; simpl.
      * split; [discriminate | intros H; destruct H; apply list_elem_of_here].
      * rewrite fmap_None, IH, not_elem_of_cons.
        split; [intros; split; [congruence | assumption] | tauto].
    + rewrite fmap_None, IH, not_elem_of_cons.
        split; [intros; split; [congruence | assumption] | tauto].
Qed.

Lemma findIndex_Some this m l index :
  ContextMethods.findIndex this m l = Some index →
  l !! index = Some (this, m) ∧ (this, m) ∉ take index l.
Proof.
  revert index. induction l as [|[c m'] l IH]; intros index; simpl; [discriminate|].
  destruct (Nat.eqb_spec c this) as [->|Hc]; simpl.
  - destruct (Nat.eqb_spec m' m) as [->|Hm]; simpl.
    + intros [= <-]. split; [reflexivity | apply not_elem_of_nil].
    + intros H. apply fmap_Some in H as (i & Hi & ->). apply IH in Hi as [Hl Ht].
      split; [exact Hl|]. simpl. apply not_elem_of_cons. split; [congruence | exact Ht].
  - intros H. apply fmap_Some in H as (i & Hi & ->). apply IH in Hi as [Hl Ht].
    split; [exact Hl|]. simpl. apply not_elem_of_cons. split; [congruence | exact Ht].
Qed.

(** X15. [removeMiddleware] answers [true] exactly when the pair of this
    Context and the middleware is registered; it then takes out the first
    registration of the pair and nothing else, and otherwise leaves the
    list alone. *)
Theorem removeMiddleware_first (this m : nat) (l : list ContextMethods.Entry) :
  let '(removed, l') := ContextMethods.removeMiddleware this m l in
  (removed = true ↔ (this, m) ∈ l) ∧
  if removed
  then ∃ before after,
         l = (before ++ (this, m) :: after)%list ∧ l' = (before ++ after)%list ∧
         (this, m) ∉ before
  else l' = l.
Proof.
  unfold ContextMethods.removeMiddleware.
  destruct (ContextMethods.findIndex this m l) as [index|] eqn:Hfind.
  - apply findIndex_Some in Hfind as [Hl Ht]. split.
    + split; [intros _ | reflexivity]. eapply list_elem_of_lookup_2, Hl.
    + exists (take index l), (drop (S index) l). split; [|split; [|exact Ht]].
      * now rewrite take_drop_middle.
      * apply delete_take_drop.
  - apply findIndex_None in Hfind. split; [|reflexivity].
    split; [discriminate | contradiction].
Qed.

(** X16. [removeMiddleware] undoes [prependMiddleware], and it undoes
    [middleware] when the pair was not registered before. *)
Theorem removeMiddleware_undoes (this m : nat) (l : list ContextMethods.Entry) :
  ContextMethods.removeMiddleware this m (ContextMethods.prependMiddleware this m l)
    = (true, l) ∧
  ((this, m) ∉ l →
   ContextMethods.removeMiddleware this m (ContextMethods.middleware this m l) = (true, l)).
Proof.
  split.
  - unfold ContextMethods.removeMiddleware, ContextMethods.prependMiddleware. simpl.
    now rewrite !Nat.eqb_refl.
  - intros Hnot. unfold ContextMethods.removeMiddleware, ContextMethods.middleware.
    assert (Hfind : ContextMethods.findIndex this m (l ++ [(this, m)]) = Some (length l)).
    { clear -Hnot. induction l as [|[c m'] l IH]; simpl.
      - now rewrite !Nat.eqb_refl.
      - apply not_elem_of_cons in Hnot as [Hne Hnot].
        destruct (Nat.eqb_spec c this) as [->|]; simpl;
          [destruct (Nat.eqb_spec m' m) as [->|]; [congruence|]; simpl|];
          now rewrite IH. }
    rewrite Hfind. f_equal.
    rewrite delete_take_drop, take_app_length.
    rewrite drop_ge by (rewrite length_app; simpl; lia). apply app_nil_r.
Qed.

(** ** The local assets server *)

Lemma accounted_refl st : LocalAssets.accounted st st.
Proof. exists []. simpl. rewrite !Z.add_0_r. auto. Qed.

Lemma accounted_write since st buffer filename :
  LocalAssets.accounted since st →
  LocalAssets.accounted since (LocalAssets.write buffer filename st).
Proof.
  intros (newer & Hw & Hc & Hs). exists ((filename, buffer) :: newer).
  unfold LocalAssets.write. cbn [LocalAssets.written LocalAssets._stats
    LocalAssets.assetCount LocalAssets.assetSize].
  rewrite Hw, Hc, Hs. split; [reflexivity|].
  rewrite fmap_cons. cbn [length snd]. unfold list_sum. cbn [foldr]. split; lia.
Qed.

Lemma upload_accounted imports config url file since st :
  LocalAssets.accounted since st →
  LocalAssets.accounted since (snd (LocalAssets.upload imports config url file st)).
Proof.
  intros H. unfold LocalAssets.upload.
  destruct url as [|u|]; [assumption| |assumption].
  destruct (String.prefix _ u); [assumption|].
  destruct (LocalAssets.analyze imports u file) as [buffer filename].
  now apply accounted_write.
Qed.

Lemma prefix_append p s : String.prefix p (p +:+ s) = true.
Proof.
  induction p as [|c p IH]; simpl.
  - now destruct s.
  - destruct (ascii_dec c c) as [_|Hne]; [exact IH | congruence].
Qed.

(** X17. The url that [upload] returns is one the server takes for its
    own: uploading it again returns it as it is and writes nothing.  An
    upload writes at most one file, and the statistics count what was
    written. *)
Theorem upload_again (imports : LocalAssets.Imports) (config : LocalAssets.Config)
    (url file file' : LocalAssets.QueryValue) (st st' : LocalAssets.State) (result : string) :
  LocalAssets.upload imports config url file st = (Ok result, st') →
  LocalAssets.upload imports config (LocalAssets.one result) file' st' = (Ok result, st') ∧
  LocalAssets.accounted st st' ∧
  (length (LocalAssets.written st') ≤ S (length (LocalAssets.written st)))%nat.
Proof.
  intros Hup.
  assert (Hacc : LocalAssets.accounted st st').
  { pose proof (upload_accounted imports config url file st st (accounted_refl st)) as H.
    now rewrite Hup in H. }
  unfold LocalAssets.upload in Hup.
  destruct url as [|u|]; try discriminate.
  destruct (String.prefix (LocalAssets.selfUrl config) u) eqn:Hown.
  - injection Hup as <- <-. split; [|split; [assumption | lia]].
    unfold LocalAssets.upload. now rewrite Hown.
  - destruct (LocalAssets.analyze imports u file) as [buffer filename].
    injection Hup as <- <-. split; [|split; [assumption | simpl; lia]].
    unfold LocalAssets.upload.
    now rewrite prefix_append.
Qed.

Lemma upload_again_witness :
  LocalAssets.upload LocalAssets.sample_imports LocalAssets.sample_config
    (LocalAssets.one "https://bot.example/assets/picture.png") LocalAssets.absent
    (LocalAssets.write "content" "/srv/public/picture.png" LocalAssets.empty_state)
  = (Ok "https://bot.example/assets/picture.png",
     LocalAssets.write "content" "/srv/public/picture.png" LocalAssets.empty_state) ∧
  LocalAssets.accounted LocalAssets.empty_state
    (LocalAssets.write "content" "/srv/public/picture.png" LocalAssets.empty_state) ∧
  (length (LocalAssets.written
             (LocalAssets.write "content" "/srv/public/picture.png" LocalAssets.empty_state))
   ≤ S (length (LocalAssets.written LocalAssets.empty_state)))%nat.
Proof.
  apply (upload_again LocalAssets.sample_imports LocalAssets.sample_config
           (LocalAssets.one "https://elsewhere.example/a.png") LocalAssets.absent
           LocalAssets.absent LocalAssets.empty_state).
  reflexivity.
Defined.

(** X18. With a secret configured, the POST handler goes as far as the
    upload (answering 200, failing in the upload, or writing a file) only
    for a request whose salt is given and whose sign is the HMAC, under
    the secret, of the file parameter followed by the salt; every other
    request is answered 400 or 403 and changes nothing. *)
Theorem post_requires_signature (imports : LocalAssets.Imports) (config : LocalAssets.Config)
    (query : LocalAssets.Query) (st : LocalAssets.State) (c : ascii) (s : string) :
  LocalAssets.secret config = Some (String c s) →
  let '(result, st') := LocalAssets.post imports config query st in
  (LocalAssets.truthy_value (LocalAssets.salt query) = true ∧
   LocalAssets.sign query =
     LocalAssets.one (LocalAssets.hmac imports (String c s)
                        (LocalAssets.to_string (LocalAssets.file query)
                         +:+ LocalAssets.to_string (LocalAssets.salt query))))
  ∨ ((result = Ok 400%Z ∨ result = Ok 403%Z) ∧ st' = st).
Proof.
  intros Hsecret. unfold LocalAssets.post. rewrite Hsecret.
  destruct (LocalAssets.is_array _ || LocalAssets.is_array _); [right; auto|].
  destruct (LocalAssets.truthy_value (LocalAssets.salt query)); simpl; [|right; auto].
  destruct (LocalAssets.truthy_value (LocalAssets.sign query)); simpl; [|right; auto].
  destruct (LocalAssets.sign query) as [|sg|]; [right; auto| |right; auto].
  case_bool_decide as Hhash; [|right; auto].
  destruct (LocalAssets.upload _ _ _ _ _) as [[]]; left; split; congruence.
Qed.

Lemma post_requires_signature_witness :
  let '(result, st') :=
    LocalAssets.post LocalAssets.sample_imports LocalAssets.sample_config
      {| LocalAssets.salt := LocalAssets.one "pepper"; LocalAssets.sign := LocalAssets.one "forged";
         LocalAssets.url := LocalAssets.one "https://elsewhere.example/a.png";
         LocalAssets.file := LocalAssets.one "a.png" |} LocalAssets.empty_state in
  (LocalAssets.truthy_value (LocalAssets.one "pepper") = true ∧
   LocalAssets.one "forged" =
     LocalAssets.one (LocalAssets.hmac LocalAssets.sample_imports "s3cret"
                        (LocalAssets.to_string (LocalAssets.one "a.png")
                         +:+ LocalAssets.to_string (LocalAssets.one "pepper"))))
  ∨ ((result = Ok 400%Z ∨ result = Ok 403%Z) ∧ st' = LocalAssets.empty_state).
Proof.
  apply (post_requires_signature LocalAssets.sample_imports LocalAssets.sample_config
           {| LocalAssets.salt := LocalAssets.one "pepper";
              LocalAssets.sign := LocalAssets.one "forged";
              LocalAssets.url := LocalAssets.one "https://elsewhere.example/a.png";
              LocalAssets.file := LocalAssets.one "a.png" |}
           LocalAssets.empty_state "s"%char "3cret").
  reflexivity.
Defined.

(** ** The teach plugin, further *)

(** X19. With an explicit target, or outside the appellative form, the
    handler sets the two probability fields independently: [data.probS]
    from [options.probabilityStrict] and [data.probA] from
    [options.probabilityAppellative], each only when the option is not
    [undefined], and each left as it was otherwise. *)
Theorem probabilities_independent (flags : Teach.DialogueFlag.t) (options : Teach.Options.t)
    (target : Teach.JsOpt (list Z)) (appellative : bool) (data : Teach.Dialogue.t) :
  negb (Teach.truthy_object target) && appellative = false →
  let statements := Teach.before_dialogue_modify flags options target appellative in
  Teach.Dialogue.probS (Teach.run statements data) =
    (if Teach.is_defined (Teach.Options.probabilityStrict options)
     then Teach.Options.probabilityStrict options else Teach.Dialogue.probS data) ∧
  Teach.Dialogue.probA (Teach.run statements data) =
    (if Teach.is_defined (Teach.Options.probabilityAppellative options)
     then Teach.Options.probabilityAppellative options else Teach.Dialogue.probA data).
Proof.
  intros Hbranch statements. subst statements.
  unfold Teach.before_dialogue_modify. rewrite Hbranch.
  destruct data.
  destruct (Teach.truthy_string (Teach.Options.answer options)),
           (Teach.truthy_string (Teach.Options.question options)),
           (Teach.Options.probabilityStrict options),
           (Teach.Options.probabilityAppellative options),
           (Teach.is_defined (Teach.Options.keyword options)),
           (Teach.is_defined (Teach.Options.redirect options));
    split; reflexivity.
Qed.

Lemma probabilities_independent_witness :
  let statements :=
    Teach.before_dialogue_modify Teach.sample_flags Teach.sample_options
      (Teach.value [7%Z]) true in
  Teach.Dialogue.probS (Teach.run statements Teach.sample_data) = Teach.value (1 # 2) ∧
  Teach.Dialogue.probA (Teach.run statements Teach.sample_data) = Teach.value 0%Q.
Proof.
  apply (probabilities_independent Teach.sample_flags Teach.sample_options
           (Teach.value [7%Z]) true Teach.sample_data).
  reflexivity.
Defined.

Lemma to_int32_testbit z n :
  (0 ≤ n < 32)%Z → Z.testbit (Teach.to_int32 z) n = Z.testbit z n.
Proof.
  intros Hn. unfold Teach.to_int32.
  rewrite <- (Z.mod_pow2_bits_low _ 32 n) by lia.
  rewrite <- (Z.mod_pow2_bits_low z 32 n) by lia.
  f_equal. rewrite Zminus_mod_idemp_l.
  replace (z + 2 ^ 31 - 2 ^ 31)%Z with z by lia. reflexivity.
Qed.

Lemma exec_flag data s :
  Teach.Dialogue.flag (Teach.exec data s) =
    match s with
    | Teach.FlagAnd mask =>
        Teach.to_int32 (Z.land (Teach.to_int32 (Teach.Dialogue.flag data)) (Teach.to_int32 mask))
    | Teach.FlagOr bits =>
        Teach.to_int32 (Z.lor (Teach.to_int32 (Teach.Dialogue.flag data)) (Teach.to_int32 bits))
    | _ => Teach.Dialogue.flag data
    end.
Proof. destruct data, s; reflexivity. Qed.

Lemma run_keeps_flag statements data :
  forallb (λ s, negb (is_flag s)) statements = true →
  Teach.Dialogue.flag (Teach.run statements data) = Teach.Dialogue.flag data.
Proof.
  revert data. induction statements as [|s statements IH]; intros data; [reflexivity|].
  cbn [forallb]. rewrite andb_true_iff, negb_true_iff. intros [Hs Hall].
  unfold Teach.run in *. cbn [fold_left]. rewrite (IH _ Hall), exec_flag.
  destruct s; try reflexivity; discriminate.
Qed.

Lemma run_app s1 s2 data : Teach.run (s1 ++ s2) data = Teach.run s2 (Teach.run s1 data).
Proof. unfold Teach.run. apply fold_left_app. Qed.

(** One option handled: [data.flag &= ~mask; data.flag |= +option * mask]. *)
Lemma flag_update_bit option mask data n :
  (0 ≤ n < 32)%Z →
  Z.testbit (Teach.Dialogue.flag
    (Teach.run (if Teach.is_defined option
                then [Teach.FlagAnd (Z.lnot mask); Teach.FlagOr (Teach.to_number option * mask)]
                else []) data)) n
  = flag_bit option mask n (Z.testbit (Teach.Dialogue.flag data) n).
Proof.
  intros Hn. unfold flag_bit.
  destruct (Teach.is_defined option); [|reflexivity].
  unfold Teach.run. cbn [fold_left andb]. rewrite !exec_flag.
  rewrite !to_int32_testbit, Z.lor_spec, !to_int32_testbit, Z.land_spec,
    !to_int32_testbit, Z.lnot_spec by lia.
  destruct (Z.testbit mask n) eqn:Hmask; cbn [negb].
  - rewrite andb_false_r. cbn [orb].
    destruct option as [| |[]]; cbn [Teach.to_number].
    + now rewrite Z.mul_0_l, Z.testbit_0_l.
    + now rewrite Z.mul_0_l, Z.testbit_0_l.
    + now rewrite Z.mul_1_l, Hmask.
    + now rewrite Z.mul_0_l, Z.testbit_0_l.
  - rewrite andb_true_r.
    destruct option as [| |[]]; cbn [Teach.to_number];
      rewrite ?Z.mul_0_l, ?Z.mul_1_l, ?Z.testbit_0_l, ?Hmask; apply orb_false_r.
Qed.

(** X20. Among the 32 bits of [data.flag], the handler sets the bits of
    [DialogueFlag.keyword] to [options.keyword] and then the bits of
    [DialogueFlag.redirect] to [options.redirect], for each option that is
    not [undefined], and changes no other bit. *)
Theorem flag_bits (flags : Teach.DialogueFlag.t) (options : Teach.Options.t)
    (target : Teach.JsOpt (list Z)) (appellative : bool) (data : Teach.Dialogue.t) (n : Z) :
  (0 ≤ n < 32)%Z →
  Z.testbit (Teach.Dialogue.flag
    (Teach.run (Teach.before_dialogue_modify flags options target appellative) data)) n
  = flag_bit (Teach.Options.redirect options) (Teach.DialogueFlag.redirect flags) n
      (flag_bit (Teach.Options.keyword options) (Teach.DialogueFlag.keyword flags) n
         (Z.testbit (Teach.Dialogue.flag data) n)).
Proof.
  intros Hn. unfold Teach.before_dialogue_modify.
  rewrite !run_app, !flag_update_bit by assumption.
  do 2 f_equal.
  rewrite !run_keeps_flag; [reflexivity| | |].
  - destruct (Teach.truthy_string _); reflexivity.
  - destruct (Teach.truthy_string _); reflexivity.
  - destruct (negb _ && _); [reflexivity|].
    destruct (Teach.is_defined _), (Teach.is_defined _); reflexivity.
Qed.

Lemma flag_bits_witness :
  Z.testbit (Teach.Dialogue.flag
    (Teach.run (Teach.before_dialogue_modify Teach.sample_flags Teach.sample_options
                  Teach.undefined true) Teach.sample_data)) 0
  = flag_bit (Teach.Options.redirect Teach.sample_options)
      (Teach.DialogueFlag.redirect Teach.sample_flags) 0
      (flag_bit (Teach.Options.keyword Teach.sample_options)
         (Teach.DialogueFlag.keyword Teach.sample_flags) 0
         (Z.testbit (Teach.Dialogue.flag Teach.sample_data) 0)).
Proof.
  apply (flag_bits Teach.sample_flags Teach.sample_options Teach.undefined true
           Teach.sample_data 0).
  lia.
Defined.

(** ** Finding a registered command by its raw name *)

Lemma lastIndexOf_None s :
  ContextMethods.lastIndexOf "/" s = None ↔ all_chars not_slash s = true.
Proof.
  induction s as [|a s IH]; simpl; [tauto|].
  unfold not_slash at 1. rewrite andb_true_iff, negb_true_iff, <- IH.
  destruct (ContextMethods.lastIndexOf "/" s); [split; [discriminate | intros [_ H]; discriminate]|].
  destruct (Ascii.eqb a "/"); split; try discriminate; try tauto. intros [H _]; discriminate.
Qed.

Lemma after_last_slash_cons a s :
  after_last_slash (String a s) =
    match ContextMethods.lastIndexOf "/" s with
    | Some _ => after_last_slash s
    | None => if Ascii.eqb a "/" then s else String a s
    end.
Proof.
  unfold after_last_slash. simpl.
  destruct (ContextMethods.lastIndexOf "/" s); [reflexivity|].
  destruct (Ascii.eqb a "/"); reflexivity.
Qed.

Lemma after_last_slash_none y : all_chars not_slash y = true → after_last_slash y = y.
Proof.
  intros H. apply lastIndexOf_None in H. unfold after_last_slash. now rewrite H.
Qed.

Lemma lastIndexOf_app_none x y :
  all_chars not_slash y = true →
  ContextMethods.lastIndexOf "/" (x +:+ y) = ContextMethods.lastIndexOf "/" x.
Proof.
  intros Hy. induction x as [|a x IH]; simpl.
  - now apply lastIndexOf_None.
  - now rewrite IH.
Qed.

Lemma after_last_slash_app x y :
  all_chars not_slash y = true → after_last_slash (x +:+ y) = after_last_slash x +:+ y.
Proof.
  intros Hy. induction x as [|a x IH].
  - simpl. rewrite after_last_slash_none by assumption. reflexivity.
  - change (String a x +:+ y) with (String a (x +:+ y)).
    rewrite (after_last_slash_cons a (x +:+ y)), (after_last_slash_cons a x).
    rewrite lastIndexOf_app_none by assumption.
    destruct (ContextMethods.lastIndexOf "/" x); [exact IH|].
    destruct (Ascii.eqb a "/"); reflexivity.
Qed.

Lemma after_last_slash_slash x r :
  all_chars not_slash r = true → after_last_slash (x +:+ String "/" r) = r.
Proof.
  intros Hr. induction x as [|a x IH].
  - change ("" +:+ String "/" r) with (String "/" r). rewrite after_last_slash_cons.
    apply lastIndexOf_None in Hr. now rewrite Hr.
  - change (String a x +:+ String "/" r) with (String a (x +:+ String "/" r)).
    rewrite after_last_slash_cons.
    destruct (ContextMethods.lastIndexOf "/" (x +:+ String "/" r)) eqn:E; [exact IH|].
    apply lastIndexOf_None in E. rewrite all_chars_app in E.
    apply andb_true_iff in E as [_ E]. discriminate.
Qed.

Lemma split_before_shape (P : ascii → bool) s :
  all_chars P s = true →
  let '(w, ws) := split_before s in
  all_chars not_separator w = true ∧ all_chars P w = true ∧
  Forall later_segment ws ∧ Forall (λ segment, all_chars P segment = true) ws.
Proof.
  induction s as [|c s IH]; simpl; [repeat split; constructor|].
  rewrite andb_true_iff. intros [Hc Hs]. specialize (IH Hs).
  destruct (split_before s) as [w ws]. destruct IH as (Hw & Pw & Hws & Pws).
  destruct (is_separator c) eqn:Hsep.
  - repeat split; try constructor; auto.
    + exists c, w. auto.
    + simpl. now rewrite Hc, Pw.
  - repeat split; auto; simpl.
    + unfold not_separator at 1. now rewrite Hsep, Hw.
    + now rewrite Hc, Pw.
Qed.

Lemma not_separator_not_slash s :
  all_chars not_separator s = true → all_chars not_slash s = true.
Proof.
  apply all_chars_impl. intros c. unfold not_separator, not_slash, is_separator.
  destruct (Ascii.eqb c "/"); [now rewrite orb_true_r | reflexivity].
Qed.

Lemma append_nil_r x : x +:+ "" = x.
Proof. induction x as [|a x IH]; [reflexivity | exact (f_equal (String a) IH)]. Qed.

Lemma append_assoc x y z : (x +:+ y) +:+ z = x +:+ (y +:+ z).
Proof. induction x as [|a x IH]; [reflexivity | exact (f_equal (String a) IH)]. Qed.

Lemma resolve_later ws :
  Forall later_segment ws →
  Forall (λ segment, all_chars not_backslash segment = true) ws →
  ∀ x m, resolve (Some (after_last_slash x)) ws = Some (Some m) →
         m = after_last_slash (x +:+ fold_right String.append "" ws).
Proof.
  induction 1 as [|segment ws (c & r & -> & Hsep & Hr) Hws IH]; intros Hback x m.
  - cbn [resolve fold_right]. intros [= <-]. now rewrite append_nil_r.
  - apply Forall_cons in Hback as [Hc Hback].
    cbn [resolve step_name fold_right].
    simpl in Hc. apply andb_true_iff in Hc as [Hc _].
    unfold not_backslash in Hc. apply negb_true_iff in Hc.
    unfold is_separator in Hsep. rewrite Hc in Hsep. simpl in Hsep.
    pose proof (not_separator_not_slash r Hr) as Hr'.
    rewrite <- append_assoc.
    destruct (Ascii.eqb_spec c ".") as [->|Hdot].
    + cbn [fmap option_fmap option_map].
      rewrite <- (after_last_slash_app x (String "." r)) by exact Hr'.
      apply IH, Hback.
    + destruct (Ascii.eqb_spec c "/") as [->|]; [|discriminate].
      rewrite <- (after_last_slash_slash x r) at 1 by exact Hr'.
      apply IH, Hback.
Qed.

Lemma split_before_concat s :
  let '(w, ws) := split_before s in w +:+ fold_right String.append "" ws = s.
Proof.
  induction s as [|c s IH]; [reflexivity|].
  cbn [split_before]. destruct (split_before s) as [w ws].
  destruct (is_separator c); cbn [fold_right]; [|exact (f_equal (String c) IH)].
  change ("" +:+ ?t) with t.
  change (String c w +:+ ?t) with (String c (w +:+ t)). now rewrite IH.
Qed.

(** The name the last segment stands for is what follows the last slash
    of a path without backslash. *)
Lemma resolve_top q m :
  all_chars not_backslash q = true →
  resolve None (split_path q) = Some (Some m) → m = after_last_slash q.
Proof.
  destruct q as [|c s]; [intros _ [= <-]; reflexivity|].
  cbn [all_chars split_path]. rewrite andb_true_iff. intros [Hc Hs].
  pose proof (split_before_shape not_backslash s Hs) as Hshape.
  pose proof (split_before_concat s) as Hcat.
  destruct (split_before s) as [w ws]. destruct Hshape as (Hw & _ & Hws & Hback).
  pose proof (not_separator_not_slash w Hw) as Hw'.
  cbn [resolve step_name].
  destruct (Ascii.eqb_spec c ".") as [->|Hdot]; [discriminate|].
  destruct (Ascii.eqb_spec c "/") as [->|Hslash].
  - rewrite <- (after_last_slash_slash "" w) at 1 by exact Hw'.
    intros Hres. apply resolve_later in Hres; [|assumption..].
    rewrite Hres. change ("" +:+ ?t) with t.
    change (String "/" w +:+ ?t) with (String "/" (w +:+ t)). now rewrite Hcat.
  - assert (Hself : after_last_slash (String c w) = String c w).
    { apply after_last_slash_none. simpl. rewrite Hw'. unfold not_slash.
      destruct (Ascii.eqb_spec c "/"); [contradiction | reflexivity]. }
    rewrite <- Hself at 1.
    intros Hres. apply resolve_later in Hres; [|assumption..].
    rewrite Hres.
    change (String c w +:+ ?t) with (String c (w +:+ t)). now rewrite Hcat.
Qed.

Lemma lower_slash c : Ascii.eqb (lower c) "/" = Ascii.eqb c "/".
Proof. destruct c as [[] [] [] [] [] [] [] []]; reflexivity. Qed.

Lemma lower_backslash c : Ascii.eqb (lower c) "\" = Ascii.eqb c "\".
Proof. destruct c as [[] [] [] [] [] [] [] []]; reflexivity. Qed.

Lemma lower_idem c : lower (lower c) = lower c.
Proof. destruct c as [[] [] [] [] [] [] [] []]; reflexivity. Qed.

Lemma toLowerCase_idem s : toLowerCase (toLowerCase s) = toLowerCase s.
Proof.
  induction s as [|c s IH]; [reflexivity|].
  cbn [toLowerCase]. now rewrite lower_idem, IH.
Qed.

Lemma toLowerCase_app s t : toLowerCase (s +:+ t) = toLowerCase s +:+ toLowerCase t.
Proof.
  induction s as [|c s IH]; [reflexivity|].
  exact (f_equal (String (lower c)) IH).
Qed.

Lemma lowered_iff s : all_chars is_lowered s = true ↔ toLowerCase s = s.
Proof.
  induction s as [|c s IH]; cbn [all_chars toLowerCase]; [tauto|].
  rewrite andb_true_iff, IH. unfold is_lowered. split.
  - intros [Hc ->]. apply Ascii.eqb_eq in Hc. now rewrite Hc.
  - intros [= Hc Hs]. split; [now apply Ascii.eqb_eq | assumption].
Qed.

Lemma toLowerCase_not_backslash s :
  all_chars not_backslash s = true → all_chars not_backslash (toLowerCase s) = true.
Proof.
  induction s as [|c s IH]; [reflexivity|].
  cbn [all_chars toLowerCase]. rewrite !andb_true_iff. intros [Hc Hs].
  split; [|auto]. unfold not_backslash in *. now rewrite lower_backslash.
Qed.

Lemma lastIndexOf_lower s :
  ContextMethods.lastIndexOf "/" (toLowerCase s) = ContextMethods.lastIndexOf "/" s.
Proof.
  induction s as [|c s IH]; [reflexivity|].
  cbn [toLowerCase ContextMethods.lastIndexOf]. now rewrite IH, lower_slash.
Qed.

Lemma slice_lower n s :
  toLowerCase (ContextMethods.slice n s) = ContextMethods.slice n (toLowerCase s).
Proof.
  revert s. induction n as [|n IH]; intros [|c s]; try reflexivity. apply IH.
Qed.

Lemma after_last_slash_lower s :
  toLowerCase (after_last_slash s) = after_last_slash (toLowerCase s).
Proof. unfold after_last_slash. now rewrite slice_lower, lastIndexOf_lower. Qed.

Lemma split_path_lowered q : Forall (λ s, toLowerCase s = s) (split_path (toLowerCase q)).
Proof.
  assert (Hq : all_chars is_lowered (toLowerCase q) = true)
    by (apply lowered_iff, toLowerCase_idem).
  destruct (toLowerCase q) as [|c s]; [repeat constructor|].
  cbn [all_chars split_path] in *. apply andb_true_iff in Hq as [Hc Hs].
  pose proof (split_before_shape is_lowered s Hs) as Hshape.
  destruct (split_before s) as [w ws]. destruct Hshape as (_ & Hw & _ & Hws).
  constructor.
  - apply lowered_iff. cbn [all_chars]. now rewrite Hc, Hw.
  - eapply Forall_impl; [exact Hws|]. intros segment. apply lowered_iff.
Qed.

(** ** Names are kept by what registration changes *)

Lemma same_names_names_bound app app' :
  same_names app app' → names_bound app → names_bound app'.
Proof.
  intros [Hmap Hnames] Hbound key ref. rewrite Hmap. intros Hkey.
  destruct (Hbound key ref Hkey) as (Hlow & c & Hc & Hn). split; [assumption|].
  specialize (Hnames ref). rewrite Hc in Hnames. cbn in Hnames.
  apply fmap_Some in Hnames as (c' & Hc' & E). exists c'. split; [assumption|].
  unfold name_of in E. congruence.
Qed.

Lemma same_names_bound app app' ref : same_names app app' → bound app ref → bound app' ref.
Proof.
  intros [Hmap Hnames] (c & Hc & Hkey).
  specialize (Hnames ref). rewrite Hc in Hnames. cbn in Hnames.
  apply fmap_Some in Hnames as (c' & Hc' & E). exists c'. split; [assumption|].
  rewrite Hmap. congruence.
Qed.

Lemma same_names_name_at app app' parent :
  same_names app app' → name_at app' parent = name_at app parent.
Proof. intros [_ Hnames]. destruct parent as [p|]; [apply Hnames | reflexivity]. Qed.

Lemma set_parent_same_names command parent app :
  same_names app (snd (Context.set_parent command parent app)).
Proof.
  unfold Context.set_parent, reg_modify. cbn [snd]. split; [reflexivity|].
  intros ref. cbn [_commands]. rewrite !list_lookup_alter.
  repeat case_decide; subst; destruct (_commands app !! _); reflexivity.
Qed.

Lemma assign_config_same_names command source app :
  same_names app (snd (Context.assign_config command source app)).
Proof.
  unfold Context.assign_config, reg_modify. cbn [snd]. split; [reflexivity|].
  intros ref. cbn [_commands]. rewrite list_lookup_alter.
  case_decide; subst; destruct (_commands app !! _); reflexivity.
Qed.

(** A new command under a name that is free and in lower case. *)
Lemma names_bound_extend app app1 c0 :
  names_bound app → toLowerCase (name_of c0) = name_of c0 →
  _commandMap app !! name_of c0 = None →
  _commands app1 = (_commands app ++ [c0])%list →
  _commandMap app1 = <[name_of c0 := length (_commands app)]> (_commandMap app) →
  names_bound app1 ∧ bound app1 (length (_commands app)) ∧
  name_at app1 (Some (length (_commands app))) = Some (name_of c0) ∧
  keeps_bound app app1.
Proof.
  intros Hbound Hlow Hfree Hcmds Hmap.
  assert (Hat : _commands app1 !! length (_commands app) = Some c0)
    by (rewrite Hcmds; now apply list_lookup_middle).
  split; [|split; [|split]].
  - intros key ref. rewrite Hmap, lookup_insert. case_decide.
    + intros [= <-]. subst key. split; [assumption|]. exists c0. split; [assumption|reflexivity].
    + intros Hkey. destruct (Hbound key ref Hkey) as (Hl & c & Hc & Hn).
      split; [assumption|]. exists c. split; [|assumption].
      rewrite Hcmds, lookup_app_l; [assumption|]. eapply lookup_lt_Some, Hc.
  - exists c0. split; [assumption|]. rewrite Hmap. apply lookup_insert_eq.
  - cbn. now rewrite Hat.
  - intros ref (c & Hc & Hkey).
    assert (Hc1 : _commands app1 !! ref = Some c)
      by (rewrite Hcmds, lookup_app_l; [assumption|]; eapply lookup_lt_Some, Hc).
    split; [|cbn; now rewrite Hc1, Hc].
    exists c. split; [assumption|].
    rewrite Hmap, lookup_insert. case_decide; [congruence | assumption].
Qed.

Lemma same_names_keeps_bound app app' : same_names app app' → keeps_bound app app'.
Proof.
  intros Hsame ref Href. split; [eapply same_names_bound; eauto|].
  now apply same_names_name_at.
Qed.

Lemma keeps_bound_refl app : keeps_bound app app.
Proof. intros ref Href. auto. Qed.

Lemma keeps_bound_trans app1 app2 app3 :
  keeps_bound app1 app2 → keeps_bound app2 app3 → keeps_bound app1 app3.
Proof.
  intros H12 H23 ref Href. destruct (H12 ref Href) as [Href2 E2].
  destruct (H23 ref Href2) as [Href3 E3]. split; [assumption | congruence].
Qed.

Lemma segment_name_step parent segment app resolved app0 :
  Context.segment_name (node <$> parent) segment app = (Ok resolved, app0) →
  step_name (name_at app parent) segment = Some resolved.
Proof.
  unfold Context.segment_name, step_name, name_at. reg_unfold.
  destruct segment as [|c rest]; [intros [= <- <-]; reflexivity|].
  destruct (Ascii.eqb c "."); [|destruct (Ascii.eqb c "/"); intros [= <- <-]; reflexivity].
  destruct parent as [p|]; [|discriminate]. cbn.
  destruct (_commands app !! p) as [pc|]; [|discriminate].
  intros [= <- <-]. reflexivity.
Qed.

Lemma step_name_lowered prev segment resolved :
  (∀ n, prev = Some n → toLowerCase n = n) → toLowerCase segment = segment →
  step_name prev segment = Some resolved → toLowerCase resolved = resolved.
Proof.
  intros Hprev Hseg. unfold step_name.
  destruct segment as [|c rest]; [intros [= <-]; reflexivity|].
  destruct (Ascii.eqb c ".").
  - destruct prev as [n|]; [|discriminate]. intros [= <-].
    now rewrite toLowerCase_app, Hseg, (Hprev n eq_refl).
  - destruct (Ascii.eqb c "/"); intros [= <-]; [|assumption].
    cbn [toLowerCase] in Hseg. now injection Hseg.
Qed.

Lemma look_node app name ref :
  look app name = Some (node ref) ↔ _commandMap app !! name = Some ref.
Proof.
  unfold look. destruct (_commandMap app !! name) as [r|].
  - split; intros [= ->]; reflexivity.
  - destruct (inherited name); split; discriminate.
Qed.

Lemma look_None app name :
  look app name = None ↔ _commandMap app !! name = None ∧ inherited name = false.
Proof.
  unfold look. destruct (_commandMap app !! name) as [r|].
  - split; [discriminate | intros [? _]; discriminate].
  - destruct (inherited name); split; try discriminate; auto. intros [_ ?]; discriminate.
Qed.

(** Under an inherited object no segment returns. *)
Lemma command_segment_inherited contain_ids parseArguments this declared key segment
    app found app' :
  Context.command_segment contain_ids parseArguments this declared
    (Some (inherited_object key)) segment app = (Ok found, app') → False.
Proof.
  unfold Context.command_segment.
  unfold mbind at 1, Reg_bind at 1, reg_bind at 1.
  destruct (Context.segment_name _ segment app) as [[resolved|e0] app0] eqn:Hname;
    apply segment_name_state in Hname as ->; [|discriminate].
  unfold mbind at 1, Reg_bind at 1, reg_bind at 1, reg_get at 1.
  destruct (look app resolved) as [[command|key']|].
  - reg_unfold. repeat case_match; discriminate.
  - reg_unfold. repeat case_match; discriminate.
  - reg_unfold.
    destruct (Context.intersect_undefined this) as [ctx|e0]; [|discriminate].
    case_bool_decide; [discriminate|].
    destruct (Command.constructor _ _ _ _ _ app) as [[command|e0] app1]; discriminate.
Qed.

Lemma walk_inherited contain_ids parseArguments this declared key segments app r app' :
  Context.walk contain_ids parseArguments this declared (Some (inherited_object key))
    segments app = (Ok r, app') →
  r = Some (inherited_object key).
Proof.
  destruct segments as [|segment segments]; [intros [= <- <-]; reflexivity|].
  cbn [Context.walk].
  destruct (Context.command_segment contain_ids parseArguments this declared
              (Some (inherited_object key)) segment app) as [[found|e] app0] eqn:Hrun.
  - now apply command_segment_inherited in Hrun.
  - rewrite (reg_bind_Throw _ _ _ _ _ Hrun). discriminate.
Qed.

(** What a segment that returns a command has done: the command under the
    resolved name was there, and was perhaps linked to the parent, or it
    was made under a free name, and linked if there is a parent. *)
Lemma command_segment_Ok_name contain_ids parseArguments this declared above segment
    app ref app' :
  Context.command_segment contain_ids parseArguments this declared (node <$> above)
    segment app = (Ok (node ref), app') →
  ∃ resolved,
    Context.segment_name (node <$> above) segment app = (Ok resolved, app) ∧
    ((_commandMap app !! resolved = Some ref ∧
      (app' = app ∨ ∃ p, app' = snd (Context.set_parent ref p app)))
     ∨ (_commandMap app !! resolved = None ∧
        ∃ ctx app1,
          Command.constructor parseArguments resolved declared ctx CommandConfig.empty app
            = (Ok ref, app1) ∧
          (app' = app1 ∨ ∃ p, app' = snd (Context.set_parent ref p app1)))).
Proof.
  unfold Context.command_segment.
  unfold mbind at 1, Reg_bind at 1, reg_bind at 1.
  destruct (Context.segment_name (node <$> above) segment app)
    as [[resolved|e0] app0] eqn:Hname;
    apply segment_name_state in Hname as ->; [|discriminate].
  intros Hrun. exists resolved. split; [reflexivity|]. revert Hrun.
  unfold mbind at 1, Reg_bind at 1, reg_bind at 1, reg_get at 1.
  destruct (look app resolved) as [[command|key]|] eqn:Hlook.
  - apply look_node in Hlook.
    destruct above as [p|]; cbn [fmap option_fmap option_map].
    + unfold Context.set_parent. reg_unfold.
      repeat case_match; intros; simplify_eq; left; (split; [assumption|]); eauto.
    + reg_unfold. intros [= <- <-]. left. auto.
  - destruct above as [p|]; cbn [fmap option_fmap option_map].
    + reg_unfold. repeat case_match; intros; simplify_eq.
    + reg_unfold. discriminate.
  - apply look_None in Hlook as [Hmap _].
    destruct above as [p|]; cbn [fmap option_fmap option_map].
    + reg_unfold.
      destruct (_commands app !! p) as [pc|] eqn:Hp; [|discriminate].
      destruct (Context.intersect this (context pc)) as [ctx|e0] eqn:Hctx; [|discriminate].
      case_bool_decide; [discriminate|].
      destruct (Command.constructor _ _ _ _ _ app) as [[command|e0] app1] eqn:Hnew;
        [|discriminate].
      unfold Context.set_parent. intros [= <- <-].
      right. split; [assumption|]. eexists _, _. split; [exact Hnew|]. right. eauto.
    + reg_unfold. case_bool_decide; [discriminate|].
      destruct (Command.constructor _ _ _ _ _ app) as [[command|e0] app1] eqn:Hnew;
        [|discriminate].
      intros [= <- <-].
      right. split; [assumption|]. eexists _, _. split; [exact Hnew|]. left. reflexivity.
Qed.

Lemma bound_name_at app ref :
  names_bound app → bound app ref →
  ∃ n, name_at app (Some ref) = Some n ∧ toLowerCase n = n.
Proof.
  intros Hbound (c & Hc & Hkey). exists (name_of c). split.
  - cbn. now rewrite Hc.
  - apply (Hbound _ _ Hkey).
Qed.

Section Lookup.
Variable contain_ids : list Z → list Z → bool.
Variable parseArguments : string → list CommandArgument.t.
Variable this : Context.

Lemma command_segment_bound declared above segment app ref app' :
  names_bound app → (∀ p, above = Some p → bound app p) →
  toLowerCase segment = segment →
  Context.command_segment contain_ids parseArguments this declared (node <$> above)
    segment app = (Ok (node ref), app') →
  names_bound app' ∧ bound app' ref ∧
  step_name (name_at app above) segment = name_at app' (Some ref) ∧
  keeps_bound app app'.
Proof.
  intros Hbound Habove Hseg Hrun.
  apply command_segment_Ok_name in Hrun
    as (resolved & Hname & [[Hmap Hcase] | (Hfree & ctx & app1 & Hnew & Hcase)]);
    apply segment_name_step in Hname.
  - destruct (Hbound _ _ Hmap) as (Hlow & c & Hc & Hn). unfold name_of in *.
    assert (Href : bound app ref) by (exists c; split; [assumption|]; unfold name_of; congruence).
    assert (Hat : name_at app (Some ref) = Some resolved)
      by (cbn; rewrite Hc; cbn; unfold name_of; congruence).
    assert (Hsame : same_names app app').
    { destruct Hcase as [-> | [p ->]]; [split; reflexivity | apply set_parent_same_names]. }
    split; [eapply same_names_names_bound; eauto|].
    split; [eapply same_names_bound; eauto|].
    split; [|now apply same_names_keeps_bound].
    rewrite (same_names_name_at app app' _ Hsame). congruence.
  - assert (Hlow : toLowerCase resolved = resolved).
    { eapply step_name_lowered; [|exact Hseg|exact Hname].
      intros n Hn. destruct above as [p|]; [|discriminate].
      destruct (bound_name_at app p Hbound (Habove p eq_refl)) as (n' & Hn' & Hl).
      congruence. }
    apply constructor_Ok_inv in Hnew as (-> & c0 & _ & _ & Hn0 & Hcmds & Hm).
    rewrite Hlow in Hm. subst resolved.
    destruct (names_bound_extend app app1 c0 Hbound Hlow Hfree Hcmds Hm)
      as (Hbound1 & Href & Hat & Hkeep).
    assert (Hsame : same_names app1 app').
    { destruct Hcase as [-> | [p ->]]; [split; reflexivity | apply set_parent_same_names]. }
    split; [eapply same_names_names_bound; eauto|].
    split; [eapply same_names_bound; eauto|].
    split; [|eapply keeps_bound_trans; [exact Hkeep | now apply same_names_keeps_bound]].
    rewrite (same_names_name_at app1 app' _ Hsame). congruence.
Qed.

Lemma walk_resolve declared segments :
  ∀ above app r app',
  names_bound app → (∀ p, above = Some p → bound app p) →
  Forall (λ s, toLowerCase s = s) segments →
  Context.walk contain_ids parseArguments this declared (node <$> above) segments app
    = (Ok (node <$> r), app') →
  names_bound app' ∧ (∀ q, r = Some q → bound app' q) ∧
  resolve (name_at app above) segments = Some (name_at app' r) ∧
  keeps_bound app app'.
Proof.
  induction segments as [|segment segments IH]; intros above app r app' Hbound Habove Hlow.
  - cbn [Context.walk]. unfold mret, Reg_ret. intros [= E <-].
    assert (r = above) as ->.
    { destruct r, above; cbn in E; congruence. }
    split; [assumption|]. split; [assumption|]. split; [reflexivity | apply keeps_bound_refl].
  - apply Forall_cons in Hlow as [Hseg Hlow]. cbn [Context.walk resolve].
    destruct (Context.command_segment contain_ids parseArguments this declared
                (node <$> above) segment app) as [[[command|key]|e] app0] eqn:Hrun.
    + rewrite (reg_bind_Ok _ _ _ _ _ Hrun).
      apply command_segment_bound in Hrun as (Hbound0 & Href & Hstep & Hkeep);
        [|assumption..].
      destruct (bound_name_at app0 command Hbound0 Href) as (n & Hn & _).
      rewrite Hstep, Hn, <- Hn. intros Hrest.
      apply (IH (Some command)) in Hrest as (Hbound' & Hr & Hres & Hkeep');
        [|assumption| |assumption].
      * split; [assumption|]. split; [assumption|]. split; [assumption|].
        eapply keeps_bound_trans; eauto.
      * now intros p [= <-].
    + rewrite (reg_bind_Ok _ _ _ _ _ Hrun). intros Hrest.
      apply walk_inherited in Hrest. destruct r; discriminate.
    + rewrite (reg_bind_Throw _ _ _ _ _ Hrun). discriminate.
Qed.

Lemma command_lookup rawName description config app ref app' :
  names_bound app →
  all_chars not_backslash (fst (split_declaration rawName)) = true →
  Context.command contain_ids parseArguments this rawName description config app
    = (Ok ref, app') →
  ContextMethods._getCommandByRawName rawName app' = Some ref ∧ names_bound app'.
Proof.
  intros Hbound. unfold Context.command, ContextMethods._getCommandByRawName.
  destruct (split_declaration rawName) as [path declared]. cbn [fst]. intros Hback.
  destruct (Context.walk contain_ids parseArguments this declared None
              (split_path (toLowerCase path)) app) as [[[[command|key]|]|e] app0] eqn:Hwalk.
  2: { rewrite (reg_bind_Ok _ _ _ _ _ Hwalk). discriminate. }
  - rewrite (reg_bind_Ok _ _ _ _ _ Hwalk).
    apply (walk_resolve declared _ None app (Some command)) in Hwalk
      as (Hbound0 & Href & Hres & _);
      [|assumption|discriminate|apply split_path_lowered].
    specialize (Href command eq_refl).
    pose proof (assign_config_same_names command
      (CommandConfig.assign
         {| CommandConfig.checkUnknown := None; CommandConfig.checkRequired := None;
            CommandConfig.checkArgCount := None; CommandConfig.usageName := None;
            CommandConfig.description := description; CommandConfig.authority := None;
            CommandConfig.disable := None; CommandConfig.maxUsage := None;
            CommandConfig.minInterval := None; CommandConfig.showWarning := None |}
         config) app0) as Hsame.
    unfold mbind, Reg_bind, reg_bind, mret, Reg_ret.
    destruct (Context.assign_config _ _ app0) as [[[]|e] app1] eqn:Ha; [|discriminate].
    cbn [snd] in Hsame. intros [= <- <-].
    split; [|eapply same_names_names_bound; eauto].
    pose proof Href as (c & Hc & Hkey).
    assert (Hn : name_at app0 (Some command) = Some (name_of c)) by (cbn; now rewrite Hc).
    rewrite Hn in Hres. cbn [name_at mbind option_bind] in Hres.
    apply resolve_top in Hres; [|now apply toLowerCase_not_backslash].
    fold (after_last_slash path). rewrite after_last_slash_lower, <- Hres.
    destruct Hsame as [-> _]. exact Hkey.
  - rewrite (reg_bind_Ok _ _ _ _ _ Hwalk). discriminate.
  - rewrite (reg_bind_Throw _ _ _ _ _ Hwalk). discriminate.
Qed.
End Lookup.

Lemma names_bound_empty : names_bound empty_app.
Proof. intros key ref H. discriminate. Qed.

(** X21. A command registered through a path is found again by its raw name:
    on a registry where every name is in lower case and bound to the
    command of that name (no alias), and for a path without backslash,
    when [command(rawName)] returns, [_getCommandByRawName(rawName)] gives
    the command it returned, and the registry is again of that kind. *)
Theorem lookup_registered (contain_ids : list Z → list Z → bool)
    (parseArguments : string → list CommandArgument.t) (this : Context)
    (rawName : string) (description : option string) (config : CommandConfig.t)
    (app : App) (ref : CommandRef) (app' : App) :
  names_bound app →
  all_chars not_backslash (fst (split_declaration rawName)) = true →
  Context.command contain_ids parseArguments this rawName description config app
    = (Ok ref, app') →
  ContextMethods._getCommandByRawName rawName app' = Some ref ∧ names_bound app'.
Proof. apply command_lookup. Qed.

Lemma lookup_registered_witness :
  ContextMethods._getCommandByRawName "Foo/Bar <x>"
    (snd (register_rev user12_ctx "Foo/Bar <x>" None CommandConfig.empty empty_app)) = Some 1
  ∧ names_bound
      (snd (register_rev user12_ctx "Foo/Bar <x>" None CommandConfig.empty empty_app)).
Proof.
  apply (lookup_registered Utils.contain_rev no_arguments user12_ctx "Foo/Bar <x>" None
           CommandConfig.empty empty_app 1).
  - apply names_bound_empty.
  - reflexivity.
  - unfold register_rev.
    rewrite (surjective_pairing (Context.command _ _ _ _ _ _ _)) at 1.
    f_equal.
Defined.

(** ** What an execution sends, and the fields it reads *)

Lemma gating_sends env this user options :
  sends (fst (gating env this user options)) = [].
Proof.
  unfold gating. destruct user as [u|]; [|reflexivity].
  destruct (low_authority this u options); [reflexivity|].
  destruct (usage_suppressed this options); [reflexivity|].
  simpl. destruct (lt_Infinity _ || gt_zero _); reflexivity.
Qed.

Lemma sends_app l1 l2 : sends (l1 ++ l2) = (sends l1 ++ sends l2)%list.
Proof. apply omap_app. Qed.

(** X22. An execution itself sends at most one message to the
    conversation; it sends none when showWarning is off, and none when it
    went past the checks (to the command hook and the action). *)
Theorem execute_sends (env : Env) (this : Command) (argv : ParsedCommandLine) :
  (length (sends (fst (Command.execute env this argv))) ≤ 1)%nat ∧
  (truthy (CommandConfig.showWarning (config this)) = false →
   sends (fst (Command.execute env this argv)) = []) ∧
  (existsb past_checks (fst (Command.execute env this argv)) = true →
   sends (fst (Command.execute env this argv)) = []).
Proof.
  unfold Command.execute.
  destruct (before_command env _); [cbn; auto|].
  destruct (Command.check_arg_count this _) as [[[m p]|]|e]; cbn; auto.
  { rewrite sendHint_events. destruct (truthy _); cbn; repeat split; auto; discriminate. }
  destruct (Command.check_unknown this _) as [[m p]|].
  { rewrite sendHint_events. destruct (truthy _); cbn; repeat split; auto; discriminate. }
  destruct (Command.check_required this _) as [[m p]|].
  { rewrite sendHint_events. destruct (truthy _); cbn; repeat split; auto; discriminate. }
  rewrite checkUser_eq_gating.
  pose proof (gating_sends env this (meta_user (argv_meta argv))
                (default ∅ (argv_options argv))) as Hs.
  pose proof (gating_events env this (meta_user (argv_meta argv))
                (default ∅ (argv_options argv))) as Hp.
  destruct (gating env this _ _) as [events [[m|]|e]]; cbn [fst] in Hs, Hp;
    unfold sends in *; cbn.
  - rewrite sendHint_events. destruct (truthy _); cbn;
      rewrite ?app_nil_r, ?omap_app, ?existsb_app, ?Hs, ?Hp; cbn; repeat split; auto;
      discriminate.
  - unfold Command.run_action. destruct (_action this) as [action|]; cbn;
      [destruct (action _); cbn|];
      rewrite ?app_nil_r, ?omap_app, ?Hs; cbn; auto.
  - rewrite Hs. cbn. auto.
Qed.

(** X23. The user fields the authority and usage check reads are fields
    [attachUserFields] asked for, on the same command and options, for a
    user of level 0 or more and thresholds given as values: when the check
    rejects without the usage tracker, [authority] was asked for, and when
    it calls the usage tracker, [usage] was asked for. *)
Theorem checked_fields_attached (env : Env) (this : Command) (meta : MessageMeta)
    (options : gmap string string) (u : UserData.t) (userFields : gset string) :
  meta_user meta = Some u → (0 ≤ UserData.authority u)%Z →
  is_value (CommandConfig.maxUsage (config this)) →
  is_value (CommandConfig.minInterval (config this)) →
  (∀ message, Command._checkUser env this meta options = ([], Ok (Some message)) →
     "authority" ∈ Command.attachUserFields (Some this) (Some options) userFields) ∧
  (fst (Command._checkUser env this meta options) ≠ [] →
     "usage" ∈ Command.attachUserFields (Some this) (Some options) userFields).
Proof.
  intros Hu Hlevel Hmax Hmin.
  rewrite checkUser_eq_gating, attachUserFields_union, Hu.
  change (default ∅ (Some options)) with options. unfold gating.
  assert (Hauth : low_authority this u options = true →
                  authority_reachable this options = true).
  { unfold low_authority, authority_reachable, exceeds.
    rewrite !orb_true_iff, !existsb_exists. intros [Hc | (o & Ho & Hlow)].
    - left. destruct (CommandConfig.authority (config this)) as [a|]; [|discriminate].
      apply Z.ltb_lt in Hc. apply Z.ltb_lt. lia.
    - right. exists o. split; [assumption|].
      apply andb_true_iff in Hlow as [Hp Hlow]. rewrite Hp. cbn.
      apply Z.ltb_lt in Hlow. apply Z.ltb_lt. lia. }
  assert (Hget : ∀ x : option (UserType JsNumber), is_value x →
                 Command.getConfig x u = Command.is_number x).
  { intros [[v|f]|] Hx; try reflexivity. now destruct (Hx f). }
  destruct (low_authority this u options).
  - split; [|intros H; now destruct H].
    intros _ _. rewrite (Hauth eq_refl). set_solver.
  - destruct (usage_suppressed this options) eqn:Hsup.
    + split; [discriminate | intros H; now destruct H].
    + rewrite (Hget _ Hmax), (Hget _ Hmin). unfold usage_reachable.
      destruct (lt_Infinity _ || gt_zero _).
      * split; [discriminate|]. intros _. cbn. set_solver.
      * split; [discriminate | intros H; now destruct H].
Qed.

Lemma checked_fields_attached_witness :
  (∀ message,
     Command._checkUser sample_env admin_command sample_meta ∅ = ([], Ok (Some message)) →
     "authority" ∈ Command.attachUserFields (Some admin_command)
                      (Some (∅ : gmap string string)) ∅) ∧
  (fst (Command._checkUser sample_env admin_command sample_meta ∅) ≠ [] →
     "usage" ∈ Command.attachUserFields (Some admin_command)
                  (Some (∅ : gmap string string)) ∅).
Proof.
  apply (checked_fields_attached sample_env admin_command sample_meta ∅ sample_user ∅).
  - reflexivity.
  - cbn. lia.
  - intros f. discriminate.
  - intros f. discriminate.
Defined.

(** ** Subcommands *)

Lemma split_declaration_app x y :
  all_chars (λ c, negb (Ascii.eqb c " ")) x = true →
  split_declaration (x +:+ y) = (x +:+ fst (split_declaration y), snd (split_declaration y)).
Proof.
  induction x as [|a x IH].
  { intros _. change ("" +:+ y) with y. now destruct (split_declaration y). }
  cbn [all_chars]. rewrite andb_true_iff, negb_true_iff. intros [Ha Hx].
  change (String a x +:+ y) with (String a (x +:+ y)). cbn [split_declaration].
  now rewrite Ha, (IH Hx).
Qed.

Lemma split_before_plain r : all_chars not_separator r = true → split_before r = (r, []).
Proof.
  induction r as [|c r IH]; [reflexivity|].
  cbn [all_chars split_before]. rewrite andb_true_iff. unfold not_separator at 1.
  rewrite negb_true_iff. intros [Hc Hr]. now rewrite (IH Hr), Hc.
Qed.

Lemma split_before_last x s r :
  is_separator s = true → all_chars not_separator r = true →
  split_before (x +:+ String s r)
  = (fst (split_before x), (snd (split_before x) ++ [String s r])%list).
Proof.
  intros Hs Hr. induction x as [|a x IH].
  - change ("" +:+ String s r) with (String s r). cbn [split_before].
    now rewrite (split_before_plain r Hr), Hs.
  - change (String a x +:+ String s r) with (String a (x +:+ String s r)).
    cbn [split_before]. rewrite IH. destruct (split_before x) as [w ws].
    destruct (is_separator a); reflexivity.
Qed.

Lemma split_path_last x s r :
  x ≠ "" → is_separator s = true → all_chars not_separator r = true →
  split_path (x +:+ String s r) = (split_path x ++ [String s r])%list.
Proof.
  intros Hx Hs Hr. destruct x as [|a x]; [congruence|].
  change (String a x +:+ String s r) with (String a (x +:+ String s r)).
  cbn [split_path]. rewrite (split_before_last x s r Hs Hr).
  destruct (split_before x) as [w ws]. reflexivity.
Qed.

Lemma resolve_Some prev segments r :
  resolve (Some prev) segments = Some r → is_Some r.
Proof.
  revert prev. induction segments as [|segment segments IH]; intros prev.
  - intros [= <-]. eauto.
  - cbn [resolve]. destruct (step_name (Some prev) segment) as [n|]; [apply IH | discriminate].
Qed.

Lemma resolve_split_path q r : resolve None (split_path q) = Some r → is_Some r.
Proof.
  destruct q as [|c s]; [intros [= <-]; eauto|].
  cbn [split_path]. destruct (split_before s) as [w ws]. cbn [resolve].
  destruct (step_name None (String c w)) as [n|]; [apply resolve_Some | discriminate].
Qed.

Lemma lower_dot c : Ascii.eqb (lower c) "." = Ascii.eqb c ".".
Proof. destruct c as [[] [] [] [] [] [] [] []]; reflexivity. Qed.

Lemma lower_separator c : is_separator (lower c) = is_separator c.
Proof. unfold is_separator. now rewrite lower_dot, lower_slash, lower_backslash. Qed.

Lemma toLowerCase_not_separator s :
  all_chars not_separator s = true → all_chars not_separator (toLowerCase s) = true.
Proof.
  induction s as [|c s IH]; [reflexivity|].
  cbn [all_chars toLowerCase]. rewrite !andb_true_iff. intros [Hc Hs].
  split; [|auto]. unfold not_separator in *. now rewrite lower_separator.
Qed.

Section Subcommand.
Variable contain_ids : list Z → list Z → bool.
Variable parseArguments : string → list CommandArgument.t.
Variable this : Context.

Lemma walk_last declared segments last :
  ∀ above app,
  Context.walk contain_ids parseArguments this declared above (segments ++ [last]) app =
    match Context.walk contain_ids parseArguments this declared above segments app with
    | (Ok r, app0) =>
        match Context.command_segment contain_ids parseArguments this declared r last app0
        with
        | (Ok command, app1) => (Ok (Some command), app1)
        | (Throw e, app1) => (Throw e, app1)
        end
    | (Throw e, app0) => (Throw e, app0)
    end.
Proof.
  induction segments as [|segment segments IH]; intros above app.
  - cbn. unfold mbind, Reg_bind, reg_bind, mret, Reg_ret.
    destruct (Context.command_segment _ _ _ _ _ _ _) as [[command|e] app1]; reflexivity.
  - change ((segment :: segments) ++ [last])%list with (segment :: (segments ++ [last]))%list.
    cbn [Context.walk].
    destruct (Context.command_segment contain_ids parseArguments this declared
                above segment app) as [[command|e] app0] eqn:Hrun.
    + rewrite !(reg_bind_Ok _ _ _ _ _ Hrun). apply IH.
    + rewrite !(reg_bind_Throw _ _ _ _ _ Hrun). reflexivity.
Qed.

(** Under a parent, the command a segment returns is another command,
    and a child of that parent. *)
Lemma command_segment_parent declared p segment app ref app' :
  Context.command_segment contain_ids parseArguments this declared (Some (node p)) segment app
    = (Ok (node ref), app') →
  ref ≠ p ∧ ∃ c, _commands app' !! ref = Some c ∧ parent_of c = Some p.
Proof.
  unfold Context.command_segment.
  unfold mbind at 1, Reg_bind at 1, reg_bind at 1.
  destruct (Context.segment_name (Some (node p)) segment app)
    as [[resolved|e0] app0] eqn:Hname;
    apply segment_name_state in Hname as ->; [|discriminate].
  unfold mbind at 1, Reg_bind at 1, reg_bind at 1, reg_get at 1.
  destruct (look app resolved) as [[command|key]|] eqn:Hlook.
  - unfold Context.set_parent. reg_unfold.
    destruct (Nat.eqb_spec command p) as [|Hne]; [discriminate|].
    destruct (_commands app !! command) as [c|] eqn:Hc; [|discriminate].
    destruct (parent_of c) as [g|] eqn:Hg.
    + destruct (Nat.eqb_spec g p) as [->|]; [|discriminate].
      intros [= <- <-]. split; [assumption|]. eauto.
    + destruct (_commands app !! p) as [pc|] eqn:Hp; [|discriminate].
      destruct (Context.contain contain_ids (context pc) (context c)) as [[]|]; try discriminate.
      intros [= <- <-]. split; [assumption|]. cbn [_commands].
      rewrite list_lookup_alter_ne by congruence.
      rewrite list_lookup_alter_eq, Hc. cbn. eauto.
  - reg_unfold. repeat case_match; discriminate.
  - reg_unfold.
    destruct (_commands app !! p) as [pc|] eqn:Hp; [|discriminate].
    destruct (Context.intersect this (context pc)) as [ctx|e0] eqn:Hctx; [|discriminate].
    case_bool_decide; [discriminate|].
    destruct (Command.constructor _ _ _ _ _ app) as [[command|e0] app1] eqn:Hnew;
      [|discriminate].
    unfold Context.set_parent. intros [= <- <-].
    apply constructor_Ok_inv in Hnew as (-> & c0 & _ & _ & _ & Hcmds & _).
    assert (Hlt : p < length (_commands app)) by (eapply lookup_lt_Some, Hp).
    split; [lia|]. cbn [_commands].
    rewrite list_lookup_alter_ne by lia.
    rewrite list_lookup_alter_eq, Hcmds, list_lookup_middle by reflexivity. cbn. eauto.
Qed.
End Subcommand.

Section Under.
Variable contain_ids : list Z → list Z → bool.
Variable parseArguments : string → list CommandArgument.t.
Variable this : Context.

(** Registering a path that ends in one more segment after the name of a
    command that is there. *)
Lemma command_under rawName description config app ref app' path declared n s r p above :
  names_bound app →
  _commands app !! p = Some above → name_of above = n → _commandMap app !! n = Some p →
  n ≠ "" → all_chars not_slash n = true → all_chars not_backslash n = true →
  split_declaration rawName = (path, declared) →
  toLowerCase path = n +:+ String s r →
  is_separator s = true → all_chars not_separator r = true →
  toLowerCase (String s r) = String s r →
  Context.command contain_ids parseArguments this rawName description config app
    = (Ok ref, app') →
  ref ≠ p ∧
  ∃ child, _commands app' !! ref = Some child ∧ parent_of child = Some p ∧
           step_name (Some n) (String s r) = Some (name_of child).
Proof.
  intros Hbound Hp Hn Hkey Hne Hslash Hback Hsd Hpath Hs Hr Hlast.
  assert (Hlow : toLowerCase n = n) by apply (Hbound _ _ Hkey).
  assert (Hpb : bound app p) by (exists above; split; [assumption | congruence]).
  unfold Context.command. rewrite Hsd, Hpath, (split_path_last n s r Hne Hs Hr).
  unfold mbind, Reg_bind, reg_bind. rewrite walk_last.
  destruct (Context.walk contain_ids parseArguments this declared None (split_path n) app)
    as [[found|e] app0] eqn:Hwalk; [|discriminate].
  intros Hfinal.
  assert (∃ r0, found = node <$> r0) as [r0 ->].
  { destruct found as [[q|key]|]; [now exists (Some q)| |now exists None].
    destruct (Context.command_segment contain_ids parseArguments this declared
                (Some (inherited_object key)) (String s r) app0)
      as [[command|e] app1] eqn:Hrun; [|discriminate].
    now apply command_segment_inherited in Hrun. }
  revert Hfinal.
  apply (walk_resolve contain_ids parseArguments this declared _ None) in Hwalk
    as (Hbound0 & Hr0 & Hres & Hkeep);
    [|assumption|discriminate|rewrite <- Hlow; apply split_path_lowered].
  destruct (resolve_split_path _ _ Hres) as [q Hq].
  rewrite Hq in Hres. change (name_at app None) with (@None string) in Hres.
  apply resolve_top in Hres; [|assumption].
  rewrite (after_last_slash_none n Hslash) in Hres. subst q.
  destruct (Hkeep p Hpb) as [Hpb0 Hat0].
  assert (Hat : name_at app (Some p) = Some n) by (cbn; rewrite Hp; cbn; congruence).
  rewrite Hat in Hat0.
  assert (Hr0p : r0 = Some p).
  { destruct r0 as [q0|]; [|discriminate]. f_equal.
    destruct (Hr0 q0 eq_refl) as (cq & Hcq & Hkq).
    destruct Hpb0 as (cp & Hcp & Hkp).
    cbn in Hq, Hat0. rewrite Hcq in Hq. rewrite Hcp in Hat0. cbn in Hq, Hat0.
    congruence. }
  subst r0. cbn [fmap option_fmap option_map].
  destruct (Context.command_segment contain_ids parseArguments this declared (Some (node p))
              (String s r) app0) as [[[command|key]|e] app1] eqn:Hrun; [|discriminate..].
  pose proof (command_segment_parent _ _ _ _ _ _ _ _ _ Hrun) as (Hneq & child & Hchild & Hpar).
  apply (command_segment_bound contain_ids parseArguments this declared (Some p)) in Hrun
    as (_ & _ & Hstep & _);
    [|assumption|intros ? [= <-]; assumption|assumption].
  rewrite Hat0 in Hstep. cbn in Hstep. rewrite Hchild in Hstep. cbn in Hstep.
  unfold Context.assign_config, reg_modify, mret, Reg_ret. intros [= <- <-].
  split; [assumption|]. cbn [_commands]. rewrite list_lookup_alter_eq, Hchild. cbn.
  eexists. split; [reflexivity|]. split; [exact Hpar | exact Hstep].
Qed.
End Under.

Lemma name_char_parts n :
  all_chars name_char n = true →
  all_chars not_slash n = true ∧ all_chars not_backslash n = true ∧
  all_chars (λ c, negb (Ascii.eqb c " ")) n = true.
Proof.
  intros H. repeat split; revert H; apply all_chars_impl; intros c;
    unfold name_char, not_slash, not_backslash; rewrite !andb_true_iff; tauto.
Qed.

Lemma child_path_shape rawName :
  child_path (fst (split_declaration rawName)) = true →
  ∃ c0 s' rest declared,
    rawName = String c0 s' ∧ split_declaration rawName = (String c0 rest, declared) ∧
    Ascii.eqb c0 "/" = false ∧ Ascii.eqb c0 "\" = false ∧ Ascii.eqb c0 " " = false ∧
    all_chars not_separator rest = true.
Proof.
  destruct rawName as [|c0 s']; [discriminate|]. cbn [split_declaration].
  destruct (Ascii.eqb c0 " ") eqn:Hspace; [discriminate|].
  destruct (split_declaration s') as [rest declared]. cbn [fst child_path].
  rewrite !andb_true_iff, !negb_true_iff. intros [[Hslash Hback] Hrest].
  exists c0, s', rest, declared. repeat split; assumption || reflexivity.
Qed.

(** X24. A command made by [subcommand] is a child of the command it was
    asked of.  On a registry without aliases (every name in lower case and
    bound to the command of that name), for a parent that is there under a
    name without slash, backslash or space, and a path of one segment that
    does not start with a slash or a backslash: when [subcommand(rawName)]
    returns, it returns another command than the parent, whose parent is
    that command, and whose name is the path in lower case, after the name
    of the parent when the path starts with a dot. *)
Theorem subcommand_child (contain_ids : list Z → list Z → bool)
    (parseArguments : string → list CommandArgument.t) (this : CommandRef)
    (rawName : string) (description : option string) (config : CommandConfig.t)
    (app : App) (above : Command) (ref : CommandRef) (app' : App) :
  names_bound app →
  _commands app !! this = Some above → _commandMap app !! name_of above = Some this →
  name_of above ≠ "" → all_chars name_char (name_of above) = true →
  child_path (fst (split_declaration rawName)) = true →
  subcommand contain_ids parseArguments this rawName description config app = (Ok ref, app') →
  ref ≠ this ∧
  ∃ child, _commands app' !! ref = Some child ∧ parent_of child = Some this ∧
           name_of child = child_name above (toLowerCase (fst (split_declaration rawName))).
Proof.
  intros Hbound Hthis Hkey Hne Hname Hpath.
  destruct (child_path_shape _ Hpath)
    as (c0 & s' & rest & declared & -> & Hsd & Hslash & Hback & Hspace & Hrest).
  destruct (name_char_parts _ Hname) as (Hns & Hnb & Hnsp).
  unfold subcommand. rewrite (reg_bind_Ok _ _ _ _ _ (deref_Some _ _ _ Hthis)).
  rewrite Hsd. cbn [fst]. intros Hrun.
  set (sep := if Ascii.eqb c0 "." then "" else "/") in *.
  assert (Hfull : split_declaration (name_of above +:+ sep +:+ String c0 s')
                  = (name_of above +:+ sep +:+ String c0 rest, declared)).
  { rewrite (split_declaration_app _ _ Hnsp).
    rewrite (split_declaration_app sep) by (subst sep; now destruct (Ascii.eqb c0 ".")).
    now rewrite Hsd. }
  pose proof (toLowerCase_not_separator rest Hrest) as Hlrest.
  assert (Hlow : toLowerCase (name_of above) = name_of above) by apply (Hbound _ _ Hkey).
  destruct (Ascii.eqb_spec c0 ".") as [->|Hdot].
  - (* the path starts with a dot *)
    eapply (command_under contain_ids parseArguments (context above) _ description config
              app ref app' _ _ (name_of above) "." (toLowerCase rest) this above)
      in Hrun; try eassumption; try reflexivity.
    + destruct Hrun as (Hneq & child & Hchild & Hpar & Hstep). split; [assumption|].
      exists child. split; [assumption|]. split; [assumption|].
      cbn in Hstep. injection Hstep as Hstep. rewrite <- Hstep. reflexivity.
    + rewrite toLowerCase_app, Hlow. reflexivity.
    + cbn [toLowerCase]. now rewrite toLowerCase_idem.
  - (* the path is a name *)
    assert (Hplain : all_chars not_separator (toLowerCase (String c0 rest)) = true).
    { apply toLowerCase_not_separator. cbn [all_chars]. rewrite Hrest, andb_true_r.
      unfold not_separator, is_separator. rewrite Hslash, Hback.
      destruct (Ascii.eqb_spec c0 "."); [contradiction | reflexivity]. }
    eapply (command_under contain_ids parseArguments (context above) _ description config
              app ref app' _ _ (name_of above) "/" (toLowerCase (String c0 rest)) this above)
      in Hrun; try eassumption; try reflexivity.
    + destruct Hrun as (Hneq & child & Hchild & Hpar & Hstep). split; [assumption|].
      exists child. split; [assumption|]. split; [assumption|].
      cbn in Hstep. injection Hstep as Hstep. rewrite <- Hstep.
      cbn [toLowerCase child_name]. rewrite lower_dot.
      destruct (Ascii.eqb_spec c0 "."); [contradiction | reflexivity].
    + rewrite toLowerCase_app, Hlow. reflexivity.
    + change (toLowerCase (String "/" ?x)) with (String "/" (toLowerCase x)).
      now rewrite toLowerCase_idem.
Qed.

Lemma names_bound_app_foo : names_bound app_foo.
Proof.
  destruct (register_rev user12_ctx "foo" None CommandConfig.empty empty_app)
    as [r app1] eqn:Hrun.
  assert (Hr : r = Ok 0) by (apply (f_equal fst) in Hrun; exact (eq_sym Hrun)).
  subst r. unfold app_foo. rewrite Hrun.
  eapply command_lookup; [apply names_bound_empty | | exact Hrun]. reflexivity.
Qed.

Lemma subcommand_child_witness :
  1 ≠ 0 ∧
  ∃ child,
    _commands (snd (subcommand Utils.contain_rev no_arguments 0 ".Bar <x>" None
                      CommandConfig.empty app_foo)) !! 1 = Some child ∧
    parent_of child = Some 0 ∧
    name_of child = "foo.bar".
Proof.
  apply (subcommand_child Utils.contain_rev no_arguments 0 ".Bar <x>" None
           CommandConfig.empty app_foo
           {| name := "foo"; declaration := ""; context := user12_ctx;
              config := CommandConfig.with_description
                          (CommandConfig.assign defaultConfig CommandConfig.empty) None;
              children := []; parent := None; _aliases := ["foo"]; _options := [];
              _userFields := ∅; _argsDef := []; _action := None |} 1).
  - apply names_bound_app_foo.
  - reflexivity.
  - reflexivity.
  - discriminate.
  - reflexivity.
  - reflexivity.
  - rewrite (surjective_pairing (subcommand _ _ _ _ _ _ _)) at 1. f_equal.
Defined.

(** ** The teach plugin: from validation to display *)

(** X25. The validate handler either stops at one of its first two checks
    (surplus arguments, an image in the question), having sent the reply
    and left the options as they were, or it sends nothing but perhaps the
    invalid-redirect reply and leaves the question and the answer among
    the options each absent or non-empty: the truthiness tests of the
    modify handler then drop no question or answer that is there. *)
Theorem validate_outcome (trim : string → string)
    (stripQuestion : Teach.JsOpt string → string * bool) (registered : string → bool)
    (args : list string) (options : Teach.Options.t)
    (redirectDialogue : Teach.JsOpt string) (search : Teach.JsOpt bool) :
  let v := TeachHandlers.validate trim stripQuestion registered args options
             redirectDialogue search in
  ((TeachHandlers.sent v = Some TeachHandlers.SURPLUS_ARGUMENTS
    ∨ TeachHandlers.sent v = Some TeachHandlers.IMAGE_IN_QUESTION)
   ∧ TeachHandlers.validated v = options)
  ∨ ((TeachHandlers.sent v = None ∨ TeachHandlers.sent v = Some TeachHandlers.INVALID_REDIRECT)
     ∧ Teach.truthy_string (Teach.Options.answer (TeachHandlers.validated v))
       = Teach.is_defined (Teach.Options.answer (TeachHandlers.validated v))
     ∧ Teach.truthy_string (Teach.Options.question (TeachHandlers.validated v))
       = Teach.is_defined (Teach.Options.question (TeachHandlers.validated v))).
Proof.
  unfold TeachHandlers.validate.
  destruct (negb (Nat.eqb (length args) 0)); [left; cbn; auto|].
  destruct (TeachHandlers.includes _ _); [left; cbn; auto|].
  destruct (stripQuestion (Teach.Options.question options)) as [question appellative].
  right.
  destruct (trim _) as [|c answer]; [destruct question; cbn; auto|].
  destruct (Teach.truthy_string redirectDialogue); [destruct question; cbn; auto|].
  destruct (TeachHandlers.truthy_bool _ && _); [|destruct question; cbn; auto].
  destruct (registered _); destruct question; cbn; auto.
Qed.

Lemma to_int32_ext x y :
  (∀ n, (0 ≤ n < 32)%Z → Z.testbit x n = Z.testbit y n) → Teach.to_int32 x = Teach.to_int32 y.
Proof.
  intros Hbits. unfold Teach.to_int32.
  rewrite <- (Zplus_mod_idemp_l x), <- (Zplus_mod_idemp_l y).
  do 3 f_equal. apply Z.bits_inj'. intros n Hn.
  destruct (Z.lt_ge_cases n 32) as [Hlt|Hge].
  - rewrite !Z.mod_pow2_bits_low by lia. apply Hbits. lia.
  - rewrite !Z.mod_pow2_bits_high by lia. reflexivity.
Qed.

Lemma run_keeps_answer statements data :
  forallb (λ s, match s with Teach.SetAnswer _ => false | _ => true end) statements = true →
  Teach.Dialogue.answer (Teach.run statements data) = Teach.Dialogue.answer data.
Proof.
  revert data. induction statements as [|s statements IH]; intros data; [reflexivity|].
  cbn [forallb]. rewrite andb_true_iff. intros [Hs Hall].
  unfold Teach.run in *. cbn [fold_left]. rewrite (IH _ Hall).
  destruct data, s; try reflexivity; discriminate.
Qed.

(** The modify handler writes an answer that is there. *)
Lemma modify_answer flags options target appellative data :
  Teach.truthy_string (Teach.Options.answer options) = true →
  Teach.Dialogue.answer
    (Teach.run (Teach.before_dialogue_modify flags options target appellative) data)
  = Teach.Options.answer options.
Proof.
  intros Hanswer. unfold Teach.before_dialogue_modify. rewrite Hanswer, run_app.
  rewrite run_keeps_answer; [now destruct data|].
  rewrite !forallb_app.
  destruct (Teach.truthy_string (Teach.Options.question options)),
    (negb (Teach.truthy_object target) && appellative),
    (Teach.is_defined (Teach.Options.probabilityStrict options)),
    (Teach.is_defined (Teach.Options.probabilityAppellative options)),
    (Teach.is_defined (Teach.Options.keyword options)),
    (Teach.is_defined (Teach.Options.redirect options)); reflexivity.
Qed.

(** With [options.redirect] true, the modify handler sets the bits of
    [DialogueFlag.redirect]. *)
Lemma modify_redirect flags options target appellative data n :
  Teach.Options.redirect options = Teach.value true →
  (0 ≤ n < 32)%Z → Z.testbit (Teach.DialogueFlag.redirect flags) n = true →
  Z.testbit (Teach.Dialogue.flag
    (Teach.run (Teach.before_dialogue_modify flags options target appellative) data)) n
  = true.
Proof.
  intros Hredirect Hn Hbit. unfold Teach.before_dialogue_modify.
  rewrite !run_app, flag_update_bit by assumption.
  unfold flag_bit. rewrite Hredirect, Hbit. reflexivity.
Qed.

(** X26. An answer given with the redirect-dialogue option is shown as a
    redirection to that question.  When the validate handler sends
    nothing, the option is given and the answer is not blank, then after
    the modify handler has written the options into the dialogue, the
    detail handler adds the question line and, next, the line of a
    redirection to the trimmed answer; [trimStart] is taken to leave a
    trimmed string as it is, and [DialogueFlag.redirect] to have a bit
    among the low 32. *)
Theorem redirect_dialogue_shown (trim trimStart : string → string)
    (stripQuestion : Teach.JsOpt string → string * bool) (registered : string → bool)
    (show : Teach.JsOpt Q → string) (flags : Teach.DialogueFlag.t)
    (args : list string) (options : Teach.Options.t)
    (redirectDialogue : Teach.JsOpt string) (search : Teach.JsOpt bool)
    (target : Teach.JsOpt (list Z)) (appellative : bool) (data : Teach.Dialogue.t)
    (output : list string) :
  (∀ s, trimStart (trim s) = trim s) →
  Teach.to_int32 (Teach.DialogueFlag.redirect flags) ≠ 0%Z →
  Teach.truthy_string redirectDialogue = true →
  trim (TeachHandlers.or_empty (Teach.Options.answer options)) ≠ "" →
  let v := TeachHandlers.validate trim stripQuestion registered args options
             redirectDialogue search in
  TeachHandlers.sent v = None →
  ∃ lines,
    TeachHandlers.detail trimStart show flags
      (Teach.run (Teach.before_dialogue_modify flags (TeachHandlers.validated v) target
                    appellative) data) output = Ok lines ∧
    lines !! S (length output) =
      Some ("重定向到问题：" +:+ trim (TeachHandlers.or_empty (Teach.Options.answer options))).
Proof.
  intros Htrim Hflag Hredirect Hanswer. unfold TeachHandlers.validate.
  destruct (negb (Nat.eqb (length args) 0)); [discriminate|].
  destruct (TeachHandlers.includes _ _); [discriminate|].
  destruct (stripQuestion (Teach.Options.question options)) as [question appellative0].
  destruct (trim (TeachHandlers.or_empty (Teach.Options.answer options)))
    as [|c rest] eqn:Eanswer; [congruence|].
  rewrite Hredirect. cbn zeta. cbn [TeachHandlers.validated]. intros _.
  set (options' := TeachHandlers.set_answer _ _ _).
  set (data' := Teach.run _ data).
  assert (Ha : Teach.Dialogue.answer data' = Teach.value ("dialogue " +:+ String c rest))
    by (subst data'; now rewrite modify_answer).
  assert (Hbits : Teach.to_int32
                    (Z.land (Teach.to_int32 (Teach.Dialogue.flag data'))
                            (Teach.to_int32 (Teach.DialogueFlag.redirect flags)))
                  = Teach.to_int32 (Teach.DialogueFlag.redirect flags)).
  { apply to_int32_ext. intros n Hn.
    rewrite Z.land_spec, !to_int32_testbit by assumption.
    destruct (Z.testbit (Teach.DialogueFlag.redirect flags) n) eqn:Hbit;
      [|apply andb_false_r].
    subst data'. rewrite modify_redirect by (assumption || reflexivity). reflexivity. }
  unfold TeachHandlers.detail. rewrite Hbits, Ha.
  destruct (Z.eqb_spec (Teach.to_int32 (Teach.DialogueFlag.redirect flags)) 0)
    as [|_]; [contradiction|].
  cbn [negb]. rewrite prefix_append.
  change (ContextMethods.slice 9 ("dialogue " +:+ String c rest)) with (String c rest).
  rewrite <- Eanswer, Htrim.
  cbn [mbind].
  destruct (TeachHandlers.lt_one _ || TeachHandlers.gt_zero _); eexists; (split; [reflexivity|]).
  - rewrite <- !app_assoc. rewrite lookup_app_r by lia.
    replace (S (length output) - length output) with 1 by lia. reflexivity.
  - rewrite <- !app_assoc. rewrite lookup_app_r by lia.
    replace (S (length output) - length output) with 1 by lia. reflexivity.
Qed.

Lemma sample_trimStart_head s :
  match TeachHandlers.sample_trimStart s with
  | String c _ => Ascii.eqb c " " = false
  | EmptyString => True
  end.
Proof.
  induction s as [|c s IH]; [exact I|].
  cbn [TeachHandlers.sample_trimStart]. destruct (Ascii.eqb c " ") eqn:Ec; [exact IH | exact Ec].
Qed.

Lemma sample_trim_trimStart s :
  TeachHandlers.sample_trimStart (TeachHandlers.sample_trim s) = TeachHandlers.sample_trim s.
Proof.
  unfold TeachHandlers.sample_trim. pose proof (sample_trimStart_head s) as Hhead.
  destruct (TeachHandlers.sample_trimStart s) as [|c t]; [reflexivity|].
  cbn [TeachHandlers.sample_trimEnd].
  destruct (TeachHandlers.sample_trimEnd t) as [|c' t']; rewrite ?Hhead;
    cbn [TeachHandlers.sample_trimStart]; now rewrite Hhead.
Qed.

Lemma redirect_dialogue_shown_witness :
  ∃ lines,
    TeachHandlers.detail TeachHandlers.sample_trimStart TeachHandlers.sample_show
      Teach.sample_flags
      (Teach.run
         (Teach.before_dialogue_modify Teach.sample_flags
            (TeachHandlers.validated
               (TeachHandlers.validate TeachHandlers.sample_trim TeachHandlers.sample_strip
                  (λ _, false) [] TeachHandlers.redirect_options (Teach.value "=>")
                  Teach.undefined))
            Teach.undefined false) Teach.sample_data) ["#1"] = Ok lines ∧
    lines !! 2 = Some ("重定向到问题：" +:+ "good morning").
Proof.
  apply (redirect_dialogue_shown TeachHandlers.sample_trim TeachHandlers.sample_trimStart
           TeachHandlers.sample_strip (λ _, false) TeachHandlers.sample_show
           Teach.sample_flags [] TeachHandlers.redirect_options (Teach.value "=>")
           Teach.undefined Teach.undefined false Teach.sample_data ["#1"]).
  - apply sample_trim_trimStart.
  - discriminate.
  - reflexivity.
  - discriminate.
  - reflexivity.
Defined.

(** ** Registration under a parent *)

Lemma contain_returns contain_ids a b :
  valid a = true → valid b = true → ∃ r, Context.contain contain_ids a b = Ok r.
Proof.
  unfold valid. intros Ha Hb.
  apply valid_scope_inv in Ha as (s0 & s1 & s2 & Hsa & Hs0 & Hs1 & Hs2).
  apply valid_scope_inv in Hb as (t0 & t1 & t2 & Hsb & Ht0 & Ht1 & Ht2).
  unfold Context.contain, every_index, Context.contain_entry, entry_at.
  rewrite Hsa, Hsb. cbn.
  destruct s0 as [[?|] [?|]], s1 as [[?|] [?|]], s2 as [[?|] [?|]]; try discriminate;
    destruct t0 as [[?|] [?|]], t1 as [[?|] [?|]], t2 as [[?|] [?|]]; try discriminate;
    cbn; repeat (case_match; cbn); eauto.
Qed.

Section Segment.
Variable contain_ids : list Z → list Z → bool.
Variable parseArguments : string → list CommandArgument.t.
Hypothesis contain_ids_spec :
  ∀ l1 l2, contain_ids l1 l2 = true ↔ ∀ id, id ∈ l2 → id ∈ l1.
Variables (this : Context) (declared : string).
Variables (app : App) (above : nat) (p : Command) (segment resolved : string).
Hypothesis this_valid : valid this = true.
Hypothesis parent_valid : valid (context p) = true.
Hypothesis parent_there : _commands app !! above = Some p.
Hypothesis name_resolved :
  Context.segment_name (Some (node above)) segment app = (Ok resolved, app).

(** An existing node without a parent: what [contain] answers decides. *)
Lemma command_segment_existing command c :
  _commandMap app !! resolved = Some command → command ≠ above →
  _commands app !! command = Some c → parent_of c = None →
  Context.command_segment contain_ids parseArguments this declared (Some (node above))
    segment app =
    match Context.contain contain_ids (context p) (context c) with
    | Ok true => (Ok (node command), snd (Context.set_parent command above app))
    | Ok false => (Throw INVALID_CONTEXT, app)
    | Throw e => (Throw e, app)
    end.
Proof using parent_there name_resolved.
  intros Hmap Hne Hc Hnone. unfold Context.command_segment.
  rewrite (reg_bind_Ok _ _ _ _ _ name_resolved).
  rewrite (reg_bind_Ok reg_get _ app app app eq_refl).
  rewrite (proj2 (look_node app resolved command) Hmap).
  apply Nat.eqb_neq in Hne. rewrite Hne.
  rewrite (reg_bind_Ok _ _ _ _ _ (deref_Some _ _ _ Hc)).
  rewrite Hnone.
  rewrite (reg_bind_Ok _ _ _ _ _ (deref_Some _ _ _ parent_there)).
  destruct (Context.contain contain_ids (context p) (context c)) as [[]|e]; reflexivity.
Qed.

(** It is adopted exactly when the parent matches all that it matches. *)
Lemma command_segment_adopts command c :
  _commandMap app !! resolved = Some command → command ≠ above →
  _commands app !! command = Some c → parent_of c = None → valid (context c) = true →
  ((∀ x, Context.match_ (context c) x = Ok true → Context.match_ (context p) x = Ok true) →
   Context.command_segment contain_ids parseArguments this declared (Some (node above))
     segment app = (Ok (node command), snd (Context.set_parent command above app))) ∧
  (¬ (∀ x, Context.match_ (context c) x = Ok true → Context.match_ (context p) x = Ok true) →
   Context.command_segment contain_ids parseArguments this declared (Some (node above))
     segment app = (Throw INVALID_CONTEXT, app)).
Proof using contain_ids_spec parent_valid parent_there name_resolved.
  intros Hmap Hne Hc Hnone Hvalid.
  rewrite (command_segment_existing command c Hmap Hne Hc Hnone).
  destruct (contain_returns contain_ids (context p) (context c) parent_valid Hvalid)
    as [contained Hcontain].
  rewrite Hcontain. split.
  - intros Hsub. destruct contained; [reflexivity|].
    rewrite (contain_complete contain_ids contain_ids_spec (context p) (context c))
      in Hcontain; [discriminate|assumption..|].
    intros meta Hm. specialize (Hsub meta).
    rewrite !match_valid in Hsub by assumption.
    rewrite Hm in Hsub. specialize (Hsub eq_refl). congruence.
  - intros Hnot. destruct contained; [|reflexivity].
    destruct Hnot. intros x. rewrite !match_valid by assumption.
    intros [= Hm]. f_equal.
    eapply (contain_sound contain_ids contain_ids_spec); eauto.
Qed.

(** A name that resolves to nothing: the intersection with the parent's
    Context decides. *)
Lemma command_segment_noop ctx :
  look app resolved = None →
  Context.intersect this (context p) = Ok ctx →
  identifier ctx = noopIdentifier →
  Context.command_segment contain_ids parseArguments this declared (Some (node above))
    segment app = (Throw INVALID_CONTEXT, app).
Proof using parent_there name_resolved.
  intros Hmap Hctx Hnoop. unfold Context.command_segment.
  rewrite (reg_bind_Ok _ _ _ _ _ name_resolved).
  rewrite (reg_bind_Ok reg_get _ app app app eq_refl).
  rewrite Hmap.
  erewrite reg_bind_Ok; cycle 1.
  { erewrite reg_bind_Ok by (apply deref_Some, parent_there).
    unfold reg_lift. rewrite Hctx. reflexivity. }
  now rewrite bool_decide_eq_true_2.
Qed.

Lemma command_segment_new ctx :
  look app resolved = None →
  Context.intersect this (context p) = Ok ctx →
  identifier ctx ≠ noopIdentifier →
  resolved ≠ "" → look app (toLowerCase resolved) = None →
  ∃ app' c' p',
    Context.command_segment contain_ids parseArguments this declared (Some (node above))
      segment app = (Ok (node (length (_commands app))), app') ∧
    _commandMap app' = <[toLowerCase resolved := length (_commands app)]> (_commandMap app) ∧
    _commands app' !! length (_commands app) = Some c' ∧
    name_of c' = resolved ∧ context c' = ctx ∧ parent_of c' = Some above ∧
    _commands app' !! above = Some p' ∧
    children p' = (children p ++ [length (_commands app)])%list.
Proof using parent_there name_resolved.
  intros Hmap Hctx Hnoop Hname Hlower.
  pose proof (lookup_lt_Some _ _ _ parent_there) as Hlt.
  set (c0 := {| name := resolved; declaration := declared; context := ctx;
                config := CommandConfig.assign defaultConfig CommandConfig.empty;
                children := []; parent := None; _aliases := [toLowerCase resolved];
                _options := []; _userFields := ∅;
                _argsDef := parseArguments declared; _action := None |}).
  set (app1 := {| _commands := _commands app ++ [c0];
                  _commandMap := <[toLowerCase resolved := length (_commands app)]> (_commandMap app);
                  new_commands := new_commands app ++ [length (_commands app)] |}).
  assert (Hnew : Command.constructor parseArguments resolved declared ctx CommandConfig.empty app
                 = (Ok (length (_commands app)), app1)).
  { unfold Command.constructor. rewrite bool_decide_eq_false_2 by assumption.
    unfold Command._registerAlias. reg_unfold. rewrite Hlower. reflexivity. }
  destruct (set_parent_spec (length (_commands app)) above app1 c0 p)
    as (app' & c' & p' & Hset & Hm & _ & Hc' & Hpar & Hcc & Hcn & Hp' & Hch & _).
  { lia. }
  { subst app1. cbn [_commands]. now rewrite list_lookup_middle. }
  { subst app1. cbn [_commands]. now rewrite lookup_app_l. }
  exists app', c', p'. split.
  - unfold Context.command_segment.
    rewrite (reg_bind_Ok _ _ _ _ _ name_resolved).
    rewrite (reg_bind_Ok reg_get _ app app app eq_refl).
    rewrite Hmap.
    erewrite reg_bind_Ok; cycle 1.
    { erewrite reg_bind_Ok by (apply deref_Some, parent_there).
      unfold reg_lift. rewrite Hctx. reflexivity. }
    rewrite bool_decide_eq_false_2 by assumption.
    rewrite (reg_bind_Ok _ _ _ _ _ Hnew).
    unfold mbind at 1, Reg_bind at 1, reg_bind at 1. rewrite Hset. reflexivity.
  - rewrite Hm. subst app1. cbn [_commands _commandMap] in *.
    repeat split; auto.
Qed.

(** A walk that throws stopped at one segment: the segments before it ran
    to their end, and the registry is the one they left. *)
Lemma walk_throw segments :
  ∀ parent app0 e app1,
  Context.walk contain_ids parseArguments this declared parent segments app0
    = (Throw e, app1) →
  ∃ done failing rest reached,
    segments = (done ++ failing :: rest)%list ∧
    Context.walk contain_ids parseArguments this declared parent done app0
      = (Ok reached, app1) ∧
    Context.command_segment contain_ids parseArguments this declared reached failing app1
      = (Throw e, app1).
Proof using this_valid.
  induction segments as [|first segments IH]; intros parent app0 e app1.
  - discriminate.
  - cbn [Context.walk].
    destruct (Context.command_segment contain_ids parseArguments this declared
                parent first app0) as [[found|e0] app2] eqn:Hseg.
    + rewrite (reg_bind_Ok _ _ _ _ _ Hseg). intros Hrest.
      destruct (IH _ _ _ _ Hrest) as (done & failing & rest & reached & -> & Hdone & Hfail).
      exists (first :: done), failing, rest, reached. split; [reflexivity|].
      split; [|exact Hfail].
      cbn [Context.walk]. now rewrite (reg_bind_Ok _ _ _ _ _ Hseg).
    + rewrite (reg_bind_Throw _ _ _ _ _ Hseg). intros [= <- <-].
      assert (app2 = app0) as ->.
      { eapply command_segment_throw; [|exact Hseg].
        intros _ _. now apply valid_scope_nonempty. }
      exists [], first, segments, parent. repeat split. exact Hseg.
Qed.
End Segment.

(** C7, as amended.  The helper [contain(l1, l2)] of koishi-utils is taken
    to hold iff every id of [l2] is in [l1], and the Contexts to have their
    three readable Subscopes.  Under a parent, a segment that is rejected
    leaves the registry as it found it.  An existing node without a
    parent, other than the parent itself, is adopted when the parent's
    Context matches every event identity that the node's Context matches,
    and rejected with the context error when it does not.  A name that
    resolves to nothing (no command, and no name that the map inherits as
    an object) gets the intersection of the calling Context and the
    parent's Context, which matches what both match: the segment is
    rejected with the context error when the identifier of the
    intersection is the noop identifier, and otherwise (given a name that
    is not empty and, in lower case, resolves to nothing) the node is
    created on the intersection and linked to the parent.  A walk that
    throws keeps what the segments before the failing one did. *)
Theorem command_segment_containment (contain_ids : list Z → list Z → bool)
    (parseArguments : string → list CommandArgument.t) (this : Context)
    (declared : string) (app : App) (above : nat) (p : Command)
    (segment resolved : string) :
  (∀ l1 l2, contain_ids l1 l2 = true ↔ ∀ id, id ∈ l2 → id ∈ l1) →
  valid this = true → valid (context p) = true →
  _commands app !! above = Some p →
  Context.segment_name (Some (node above)) segment app = (Ok resolved, app) →
  let step := Context.command_segment contain_ids parseArguments this declared in
  (∀ e app', step (Some (node above)) segment app = (Throw e, app') → app' = app) ∧
  (∀ command c,
     _commandMap app !! resolved = Some command → command ≠ above →
     _commands app !! command = Some c → parent_of c = None → valid (context c) = true →
     ((∀ x, Context.match_ (context c) x = Ok true → Context.match_ (context p) x = Ok true) →
      step (Some (node above)) segment app
        = (Ok (node command), snd (Context.set_parent command above app))) ∧
     (¬ (∀ x, Context.match_ (context c) x = Ok true →
              Context.match_ (context p) x = Ok true) →
      step (Some (node above)) segment app = (Throw INVALID_CONTEXT, app))) ∧
  (look app resolved = None →
   ∃ ctx,
     Context.intersect this (context p) = Ok ctx ∧
     (∀ x, Context.match_ ctx x = Ok true ↔
           Context.match_ this x = Ok true ∧ Context.match_ (context p) x = Ok true) ∧
     if bool_decide (identifier ctx = noopIdentifier)
     then step (Some (node above)) segment app = (Throw INVALID_CONTEXT, app)
     else resolved ≠ "" → look app (toLowerCase resolved) = None →
          ∃ app' c' p',
            step (Some (node above)) segment app = (Ok (node (length (_commands app))), app') ∧
            _commandMap app' =
              <[toLowerCase resolved := length (_commands app)]> (_commandMap app) ∧
            _commands app' !! length (_commands app) = Some c' ∧
            name_of c' = resolved ∧ context c' = ctx ∧ parent_of c' = Some above ∧
            _commands app' !! above = Some p' ∧
            children p' = (children p ++ [length (_commands app)])%list) ∧
  (∀ parent segments app0 e app1,
     Context.walk contain_ids parseArguments this declared parent segments app0
       = (Throw e, app1) →
     ∃ done failing rest reached,
       segments = (done ++ failing :: rest)%list ∧
       Context.walk contain_ids parseArguments this declared parent done app0
         = (Ok reached, app1) ∧
       step reached failing app1 = (Throw e, app1)).
Proof.
  intros Hspec Hthis Hparent Hp Hname step. subst step. split; [|split; [|split]].
  - intros e app'. apply command_segment_throw. discriminate.
  - intros command c. eapply command_segment_adopts; eauto.
  - intros Hlook.
    destruct (intersect_spec this (context p) Hthis Hparent) as (ctx & Hctx & Vctx & Mctx).
    exists ctx. split; [exact Hctx|]. split.
    + intros x. rewrite !match_valid by assumption. rewrite Mctx.
      split.
      * intros [= H]. apply andb_true_iff in H as [-> ->]. auto.
      * intros [[= ->] [= ->]]. reflexivity.
    + case_bool_decide as Hnoop.
      * eapply command_segment_noop; eauto.
      * intros Hne Hlower. eapply command_segment_new; eauto.
  - intros parent segments. now apply walk_throw.
Qed.

Lemma command_segment_containment_witness :
  _commandMap app_p_c !! "c" = Some 1 ∧
  context <$> _commands app_p_c !! 0 = Some user12_ctx ∧
  context <$> _commands app_p_c !! 1 = Some user1_ctx ∧
  Context.command_segment Utils.contain_rev no_arguments user12_ctx "" (Some (node 0)) "/c"
    app_p_c = (Ok (node 1), snd (Context.set_parent 1 0 app_p_c)).
Proof.
  split; [reflexivity|]. split; [reflexivity|]. split; [reflexivity|].
  refine (proj1 (proj1 (proj2
    (command_segment_containment Utils.contain_rev no_arguments user12_ctx ""
       app_p_c 0 _ "/c" "c" contain_rev_spec _ _ _ _)) 1 _ _ _ _ _ _) _).
  3: (vm_compute; reflexivity).
  6: (vm_compute; reflexivity).
  all: try reflexivity.
  - discriminate.
  - intros x. cbn [context]. rewrite !match_valid by reflexivity.
    intros [= H]. f_equal. revert H.
    destruct x as [[] id]; unfold matches; cbn; rewrite !includes_true;
      rewrite ?elem_of_cons; tauto.
Defined.

(** C7, as worded, fails: registration through a path is not one step.
    The existing [b], on users 1 and 2, is not contained in the new [a],
    on users 1 and 3 (user 2), and [command('a/b')] throws the context
    error; by then it has created [a], which stays.  The outcome is the
    same with the helper [contain] in the one direction and in the
    other. *)
Lemma registration_counterexample :
  (_commandMap app_b !! "b" = Some 0 ∧
   _commandMap app_b !! "a" = None ∧
   length (_commands app_b) = 1 ∧
   context <$> _commands app_b !! 0 = Some user12_ctx ∧
   Context.match_ user12_ctx user2_meta = Ok true ∧
   Context.match_ user13_ctx user2_meta = Ok false ∧
   fst (register_rev user13_ctx "a/b" None CommandConfig.empty app_b) = Throw INVALID_CONTEXT ∧
   _commandMap (snd (register_rev user13_ctx "a/b" None CommandConfig.empty app_b)) !! "a"
     = Some 1 ∧
   length (_commands (snd (register_rev user13_ctx "a/b" None CommandConfig.empty app_b))) = 2) ∧
  (fst (register user13_ctx "a/b" None CommandConfig.empty app_b) = Throw INVALID_CONTEXT ∧
   snd (register user13_ctx "a/b" None CommandConfig.empty app_b)
   = snd (register_rev user13_ctx "a/b" None CommandConfig.empty app_b)).
Proof. vm_compute. repeat split. Qed.
